(** * gitree: the items-selection pipeline

    A shallow embedding of the path resolver, the gitignore loader and
    matcher, the filter chain and the selection coordinator of gitree,
    with the properties of its specification stated over that embedding.

    Strings are Rocq strings (sequences of 8-bit characters): the ASCII
    behaviour of [str.lower], [str.strip] and [str.splitlines] is
    modelled, the handling of code points beyond ASCII is not. *)

From Stdlib Require Import ZArith Ascii.
From stdpp Require Import gmap strings list fin_maps.

#[local] Set Warnings "-clear-no-such-hyp".

(** ** Python string operations used by the sources *)

Module Str.

Definition DOT : ascii := "."%char.
Definition SLASH : ascii := "/"%char.
Definition BANG : ascii := "!"%char.
Definition HASH : ascii := "#"%char.

(** [s.startswith(c)] for a one-character prefix. *)
Definition startswith (c : ascii) (s : string) : bool :=
  match s with
  | String a _ => bool_decide (a = c)
  | EmptyString => false
  end.

(** [s[1:]] *)
Definition tail (s : string) : string :=
  match s with
  | String _ r => r
  | EmptyString => EmptyString
  end.

(** [s.lstrip(c)] for a one-character set. *)
Fixpoint lstrip (c : ascii) (s : string) : string :=
  match s with
  | String a r => if bool_decide (a = c) then lstrip c r else s
  | EmptyString => EmptyString
  end.

Definition lower_ascii (a : ascii) : ascii :=
  let n := nat_of_ascii a in
  if (65 <=? n)%nat && (n <=? 90)%nat then ascii_of_nat (n + 32) else a.

(** [s.lower()] *)
Fixpoint lower (s : string) : string :=
  match s with
  | String a r => String (lower_ascii a) (lower r)
  | EmptyString => EmptyString
  end.

(** [s.rfind(c)]: the highest index of [c] in [s], or -1. *)
Fixpoint rfind (c : ascii) (s : string) : Z :=
  match s with
  | String a r =>
      let i := rfind c r in
      if (0 <=? i)%Z then (i + 1)%Z
      else if bool_decide (a = c) then 0%Z else (-1)%Z
  | EmptyString => (-1)%Z
  end.

(** [s[n:]] for [n >= 0]. *)
Fixpoint drop (n : nat) (s : string) : string :=
  match n, s with
  | O, _ => s
  | S n', String _ r => drop n' r
  | S _, EmptyString => EmptyString
  end.

(** [c in s] *)
Fixpoint contains (c : ascii) (s : string) : bool :=
  match s with
  | String a r => bool_decide (a = c) || contains c r
  | EmptyString => false
  end.

(** [sep.join(l)] *)
Fixpoint join (sep : string) (l : list string) : string :=
  match l with
  | [] => EmptyString
  | [x] => x
  | x :: r => x +:+ sep +:+ join sep r
  end.

(** The characters [str.strip()] removes (ASCII white space). *)
Definition is_space (a : ascii) : bool :=
  let n := nat_of_ascii a in
  ((9 <=? n)%nat && (n <=? 13)%nat) || ((28 <=? n)%nat && (n <=? 32)%nat).

Fixpoint lstrip_space (s : string) : string :=
  match s with
  | String a r => if is_space a then lstrip_space r else s
  | EmptyString => EmptyString
  end.

Fixpoint rstrip_space (s : string) : string :=
  match s with
  | String a r =>
      match rstrip_space r with
      | EmptyString => if is_space a then EmptyString else String a EmptyString
      | r' => String a r'
      end
  | EmptyString => EmptyString
  end.

(** [s.strip()] *)
Definition strip (s : string) : string := rstrip_space (lstrip_space s).

(** The ASCII line boundaries of [str.splitlines()]. *)
Definition is_linebreak (a : ascii) : bool :=
  let n := nat_of_ascii a in
  ((10 <=? n)%nat && (n <=? 13)%nat) || ((28 <=? n)%nat && (n <=? 30)%nat).

Definition CR : ascii := ascii_of_nat 13.
Definition LF : ascii := ascii_of_nat 10.

(** [splitlines_go skip_lf cur s]: [cur] is the current line, reversed;
    [skip_lf] holds right after a carriage return, whose following line
    feed belongs to the same boundary. *)
Fixpoint splitlines_go (skip_lf : bool) (cur : list ascii) (s : string)
  : list string :=
  match s with
  | EmptyString =>
      match cur with
      | [] => []
      | _ => [String.string_of_list_ascii (rev cur)]
      end
  | String a r =>
      if skip_lf && bool_decide (a = LF) then splitlines_go false cur r
      else if is_linebreak a then
        String.string_of_list_ascii (rev cur) ::
          splitlines_go (bool_decide (a = CR)) [] r
      else splitlines_go false (a :: cur) r
  end.

(** [s.splitlines()] *)
Definition splitlines (s : string) : list string := splitlines_go false [] s.

End Str.

(** ** pathlib paths *)

(** A pure path: its anchor (drive and root, ["/"] on POSIX) and its
    components.  Paths built by pathlib are normalised, and two paths are
    equal exactly when their [str] agree, so a dictionary or set the
    sources key by [str(path)] is keyed by the path here. *)
Record Path : Type := mkPath { anchor : string; parts : list string }.

Global Instance Path_eq_dec : EqDecision Path.
Proof. solve_decision. Defined.

Global Instance Path_countable : Countable Path.
Proof.
  refine (inj_countable' (fun p => (anchor p, parts p))
                         (fun t => mkPath t.1 t.2) _).
  by intros [].
Defined.

Module PathLib.

(** [path / name]; pathlib drops empty and ["."] segments. *)
Definition joinpath (p : Path) (name : string) : Path :=
  if bool_decide (name = "" ∨ name = ".") then p
  else mkPath (anchor p) (parts p ++ [name]).

(** [path.parent] *)
Definition parent (p : Path) : Path :=
  mkPath (anchor p) (removelast (parts p)).

(** [path.name] *)
Definition name (p : Path) : string := List.last (parts p) "".

(** [strip_prefix pre l]: [Some r] when [l = pre ++ r]. *)
Fixpoint strip_prefix (pre l : list string) : option (list string) :=
  match pre, l with
  | [], _ => Some l
  | a :: pre', b :: l' =>
      if bool_decide (a = b) then strip_prefix pre' l' else None
  | _ :: _, [] => None
  end.

(** [path.relative_to(root)]: the components of [path] below [root];
    [None] stands for the [ValueError] pathlib raises. *)
Definition relative_to (p root : Path) : option (list string) :=
  if bool_decide (anchor p = anchor root)
  then strip_prefix (parts root) (parts p)
  else None.

(** [path.is_relative_to(root)] *)
Definition is_relative_to (p root : Path) : bool :=
  match relative_to p root with Some _ => true | None => false end.

(** [rel.as_posix()] of a relative path. *)
Definition as_posix (rel : list string) : string :=
  match rel with
  | [] => "."
  | _ => Str.join "/" rel
  end.

(** The longest common prefix of two component lists. *)
Fixpoint common_prefix (l1 l2 : list string) : list string :=
  match l1, l2 with
  | a :: l1', b :: l2' =>
      if bool_decide (a = b) then a :: common_prefix l1' l2' else []
  | _, _ => []
  end.

(** [os.path.commonpath(paths)] on absolute paths; [None] stands for the
    [ValueError] raised on an empty sequence or on paths that do not
    share their drive. *)
Fixpoint commonpath (paths : list Path) : option Path :=
  match paths with
  | [] => None
  | [p] => Some p
  | p :: rest =>
      match commonpath rest with
      | Some q =>
          if bool_decide (anchor p = anchor q)
          then Some (mkPath (anchor p) (common_prefix (parts p) (parts q)))
          else None
      | None => None
      end
  end.

End PathLib.

(** ** The file system, as the sources observe it *)

(** The queries are total functions: a run in which the operating system
    refuses a query ([PermissionError], a symbolic-link loop) is outside
    the embedding, and so is a pattern the pattern compiler rejects. *)
Record FileSystem : Type := mkFS {
  (** [os.getcwd()] *)
  getcwd : Path;
  (** [Path(s).exists()] *)
  exists_ : string -> bool;
  (** [(base_path / s).resolve(strict=False)] and [Path(s).resolve(strict=False)] *)
  resolve_str : string -> Path;
  (** [glob.glob(pattern, recursive=True, include_hidden=True)] *)
  glob_ : string -> list string;
  (** [path.resolve(strict=False)] *)
  resolve : Path -> Path;
  is_dir : Path -> bool;
  is_file : Path -> bool;
  is_symlink : Path -> bool;
  (** the entry names [path.iterdir()] produces before it ends or fails *)
  iterdir : Path -> list string;
  (** [path.read_text(encoding="utf-8", errors="ignore")], [None] on failure *)
  read_text : Path -> option string
}.

(** ** Results of fallible code *)

Inductive exception : Type := TypeError | IndexError | ValueError.

Inductive message : Type :=
| MsgPathDoesNotExist (path_str : string)
| MsgNoGlobMatches (pattern : string)
| MsgCommonPathError
| MsgNoIncludedPaths.

Inductive outcome (A : Type) : Type :=
| Ok (a : A)
| Exit (status : Z) (reported : message)
| Raise (e : exception).
Arguments Ok {A} a.
Arguments Exit {A} status reported.
Arguments Raise {A} e.

(** State-and-exit monad: a computation over a state [S] either returns a
    value and a new state, ends the process, or raises. *)
Definition M (S A : Type) : Type := S -> outcome (A * S).

Definition ret {S A} (a : A) : M S A := fun s => Ok (a, s).

Definition bind {S A B} (m : M S A) (k : A -> M S B) : M S B :=
  fun s =>
    match m s with
    | Ok (a, s') => k a s'
    | Exit st msg => Exit st msg
    | Raise e => Raise e
    end.

Definition get {S} : M S S := fun s => Ok (s, s).
Definition put {S} (s : S) : M S unit := fun _ => Ok (tt, s).
Definition exit_with {S A} (status : Z) (msg : message) : M S A :=
  fun _ => Exit status msg.
Definition raise {S A} (e : exception) : M S A := fun _ => Raise e.

Global Instance M_ret {S} : MRet (M S) := fun A a => ret a.
Global Instance M_bind {S} : MBind (M S) := fun A B k m => bind m k.

(** Modelled from the spec: [error_and_exit] of the functions utility,
    whose source is not part of the selection core.  The specification
    has the error "reported to the user" and the process "exits non-zero
    immediately"; status 1 is taken for the non-zero status. *)
Definition error_and_exit {S A} (msg : message) : M S A := exit_with 1 msg.

(** ** services/items_selection/path_resolver.py *)

Module PathResolver.

(** The attributes of a [PathResolver]; [warnings] is what the resolver
    logged at WARNING level on the context's logger. *)
Record t : Type := mk {
  base_path : Path;
  _resolved_cache : gmap string Path;
  _glob_cache : gmap string (list Path);
  warnings : list message
}.

(** [PathResolver.__init__] *)
Definition init (fs : FileSystem) : t :=
  mk (getcwd fs) ∅ ∅ [].

(** [any(c in path_str for c in "*?[")] *)
Definition _is_glob (path_str : string) : bool :=
  Str.contains "*"%char path_str
  || Str.contains "?"%char path_str
  || Str.contains "["%char path_str.

Definition _resolve_single_path (fs : FileSystem) (path_str : string)
  : M t Path :=
  self ← get;
  match _resolved_cache self !! path_str with
  | Some p => mret p
  | None =>
      if negb (exists_ fs path_str)
      then error_and_exit (MsgPathDoesNotExist path_str)
      else
        let resolved_path := resolve_str fs path_str in
        put (mk (base_path self)
                (<[path_str := resolved_path]> (_resolved_cache self))
                (_glob_cache self) (warnings self));;
        mret resolved_path
  end.

Definition _resolve_glob (fs : FileSystem) (pattern : string)
  : M t (list Path) :=
  self ← get;
  match _glob_cache self !! pattern with
  | Some l => mret l
  | None =>
      let matched_paths := glob_ fs pattern in
      match matched_paths with
      | [] =>
          put (mk (base_path self) (_resolved_cache self) (_glob_cache self)
                  (warnings self ++ [MsgNoGlobMatches pattern]));;
          mret []
      | _ =>
          let result := map (resolve_str fs) matched_paths in
          put (mk (base_path self) (_resolved_cache self)
                  (<[pattern := result]> (_glob_cache self))
                  (warnings self));;
          mret result
      end
  end.

(** The [for path_str in path_strings] loop of [resolve_paths], on the
    list [calculated_paths] built so far. *)
Fixpoint resolve_loop (fs : FileSystem) (path_strings : list string)
    (calculated_paths : list Path) : M t (list Path) :=
  match path_strings with
  | [] => mret calculated_paths
  | path_str :: rest =>
      if _is_glob path_str then
        paths ← _resolve_glob fs path_str;
        resolve_loop fs rest (calculated_paths ++ paths)
      else
        path ← _resolve_single_path fs path_str;
        resolve_loop fs rest (calculated_paths ++ [path])
  end.

Definition resolve_paths (fs : FileSystem) (path_strings : list string)
  : M t (list Path) :=
  match path_strings with
  | [] => self ← get; mret [base_path self]
  | _ =>
      calculated_paths ← resolve_loop fs path_strings [];
      match calculated_paths with
      | [] => mret calculated_paths
      | _ =>
          match PathLib.commonpath calculated_paths with
          | Some common_parent => mret (calculated_paths ++ [common_parent])
          | None => exit_with 1 MsgCommonPathError
          end
      end
  end.

(** [any(path == p or path.is_relative_to(p) for p in parents)] *)
Definition is_under (path : Path) (parents : list Path) : bool :=
  existsb (fun p => bool_decide (path = p) || PathLib.is_relative_to path p)
          parents.

(** [path.name.startswith(".")] *)
Definition is_hidden (path : Path) : bool :=
  Str.startswith Str.DOT (PathLib.name path).

End PathResolver.

(** ** The configuration object *)

(** Modelled from the spec: the configuration object ([objects/config.py]
    is not among the sources of the selection core), with the attributes
    the sources read.  A depth that is "int or unbounded" is an
    [option Z]: [None] is Python's [None], which
    [GitIgnore._within_depth] tests with [is None]. *)
Record Config : Type := mkConfig {
  paths : list string;
  include : list string;
  exclude : list string;
  gitignore : bool;
  gitignore_depth : option Z;
  hidden_items : bool;
  no_files : bool;
  file_extensions : list string;
  exclude_depth : option Z;
  no_max_depth : bool;
  max_depth : Z;
  no_max_items : bool;
  max_items : Z;
  no_max_entries : bool;
  max_entries : Z
}.

(** ** objects/gitignore.py *)

Module GitIgnore.

(** A compiled [pathspec.PathSpec] is kept as the list of pattern lines
    it was built from. *)
Definition PathSpec : Type := list string.

(** [config.gitignore_depth], which [__init__] copies into the object. *)
Definition config_gitignore_depth (config : Config) : option Z :=
  gitignore_depth config.

(** The attributes of a [GitIgnore]. *)
Record t : Type := mk {
  enabled : bool;
  gitignore_depth : option Z;
  _specs : list (Path * PathSpec);
  _rel_path_cache : gmap (Path * Path) (option string);
  root_path : option Path
}.

Definition set_cache (self : t) (c : gmap (Path * Path) (option string)) : t :=
  mk (enabled self) (gitignore_depth self) (_specs self) c (root_path self).

Definition _get_relative_path_cached (self : t) (path root : Path)
  : option string * t :=
  let cache_key := (path, root) in
  match _rel_path_cache self !! cache_key with
  | Some v => (v, self)
  | None =>
      match PathLib.relative_to path root with
      | Some rel_parts =>
          let rel := PathLib.as_posix rel_parts in
          (Some rel, set_cache self (<[cache_key := Some rel]> (_rel_path_cache self)))
      | None =>
          (None, set_cache self (<[cache_key := None]> (_rel_path_cache self)))
      end
  end.

Definition _parse_line (line : string) : list string :=
  let line := Str.strip line in
  if bool_decide (line = "") || Str.startswith Str.HASH line then []
  else
    let neg := Str.startswith Str.BANG line in
    let pat := if neg then Str.tail line else line in
    let pat := Str.lstrip Str.SLASH pat in
    [if neg then "!" +:+ pat else pat].

Definition _parse_gitignore_file (fs : FileSystem) (gitignore_path : Path)
  : list string :=
  match read_text fs gitignore_path with
  | None => []
  | Some text => flat_map _parse_line (Str.splitlines text)
  end.

Definition _within_depth (self : t) (root dirpath : Path) : bool :=
  match gitignore_depth self with
  | None => true
  | Some n =>
      match PathLib.relative_to dirpath root with
      | Some rel => (Z.of_nat (length rel) <=? n)%Z
      | None => false
      end
  end.

(** The sub-directories [_walk_dirs] pushes for [d], in iteration order. *)
Definition subdirs (fs : FileSystem) (d : Path) : list Path :=
  filter (fun c => is_dir fs c && negb (is_symlink fs c))
         (map (PathLib.joinpath d) (iterdir fs d)).

(** The [while stack] loop of [_walk_dirs].  The head of [stack] is the
    top of the Python stack (its last element).  The result is the
    sequence of directories yielded within [fuel] iterations, and
    whether the loop has ended. *)
Fixpoint walk_loop (fs : FileSystem) (self : t) (root : Path) (fuel : nat)
    (stack : list Path) (visited : gset Path) : list Path * bool :=
  match fuel with
  | O => ([], bool_decide (stack = []))
  | S fuel' =>
      match stack with
      | [] => ([], true)
      | d :: stack' =>
          if bool_decide (d ∈ visited)
          then walk_loop fs self root fuel' stack' visited
          else
            let visited' := {[d]} ∪ visited in
            let stack'' :=
              if _within_depth self root d
              then reverse (subdirs fs d) ++ stack'
              else stack' in
            let '(ys, finished) :=
              walk_loop fs self root fuel' stack'' visited' in
            (d :: ys, finished)
      end
  end.

Definition _walk_dirs (fs : FileSystem) (self : t) (root : Path) (fuel : nat)
  : list Path * bool :=
  walk_loop fs self root fuel [root] ∅.

(** The inner [for pat in file_patterns] body of [_collect_patterns]. *)
Definition prefix_pattern (prefix pat : string) : string :=
  let neg := Str.startswith Str.BANG pat in
  let base_pat := if neg then Str.tail pat else pat in
  let prefixed_pat := prefix +:+ Str.lstrip Str.SLASH base_pat in
  if neg then "!" +:+ prefixed_pat else prefixed_pat.

(** The outer [for d in self._walk_dirs(root)] loop of
    [_collect_patterns] on the yielded directories, with the list
    [patterns] built so far. *)
Fixpoint collect_loop (fs : FileSystem) (root : Path) (dirs : list Path)
    (patterns : list string) : outcome (list string) :=
  match dirs with
  | [] => Ok patterns
  | d :: rest =>
      let gi := PathLib.joinpath d ".gitignore" in
      if negb (is_file fs gi) then collect_loop fs root rest patterns
      else
        match PathLib.relative_to d root with
        | None => Raise ValueError
        | Some rel =>
            let rel_dir := PathLib.as_posix rel in
            let prefix := if bool_decide (rel_dir = ".") then ""
                          else rel_dir +:+ "/" in
            let file_patterns := _parse_gitignore_file fs gi in
            collect_loop fs root rest
              (patterns ++ map (prefix_pattern prefix) file_patterns)
        end
  end.

Definition _collect_patterns (fs : FileSystem) (self : t) (root : Path)
    (fuel : nat) : outcome (list string) :=
  collect_loop fs root (_walk_dirs fs self root fuel).1 [].

(** The [for r in roots] loop of [_norm_roots]. *)
Fixpoint norm_roots_loop (fs : FileSystem) (roots : list Path)
    (seen : gset Path) (out : list Path) : list Path :=
  match roots with
  | [] => out
  | r :: rest =>
      let rr := resolve fs r in
      let rr := if is_dir fs rr then rr else PathLib.parent rr in
      if bool_decide (rr ∈ seen) then norm_roots_loop fs rest seen out
      else norm_roots_loop fs rest ({[rr]} ∪ seen) (out ++ [rr])
  end.

Definition _norm_roots (fs : FileSystem) (roots : list Path) : list Path :=
  norm_roots_loop fs roots ∅ [].

Definition _load_spec_from_gitignore (fs : FileSystem) (self : t)
    (gitignore_path : Path) : t :=
  let gi := resolve fs gitignore_path in
  let root := PathLib.parent gi in
  let patterns := _parse_gitignore_file fs gi in
  mk (enabled self) (gitignore_depth self)
     (match patterns with [] => [] | _ => [(root, patterns)] end)
     ∅ (Some root).

(** The [for root in self._norm_roots(roots)] loop of [_load_from_roots],
    on the list [_specs] built so far. *)
Fixpoint load_roots_loop (fs : FileSystem) (self : t) (fuel : nat)
    (roots : list Path) (specs : list (Path * PathSpec))
  : outcome (list (Path * PathSpec)) :=
  match roots with
  | [] => Ok specs
  | root :: rest =>
      match _collect_patterns fs self root fuel with
      | Ok [] => load_roots_loop fs self fuel rest specs
      | Ok pats => load_roots_loop fs self fuel rest (specs ++ [(root, pats)])
      | Exit status msg => Exit status msg
      | Raise e => Raise e
      end
  end.

Definition _load_from_roots (fs : FileSystem) (self : t) (roots : list Path)
    (fuel : nat) : outcome t :=
  match load_roots_loop fs self fuel (_norm_roots fs roots) [] with
  | Ok specs => Ok (mk (enabled self) (gitignore_depth self) specs ∅ (root_path self))
  | Exit status msg => Exit status msg
  | Raise e => Raise e
  end.

(** [GitIgnore.__init__] *)
Definition init (fs : FileSystem) (config : Config) (gitignore_path : Path)
  : t :=
  _load_spec_from_gitignore fs
    (mk (gitignore config) (config_gitignore_depth config) [] ∅ None)
    gitignore_path.

Section Matching.

(** [spec.match_file(rel)] of the pathspec library: the gitwildmatch
    algorithm is an external capability. *)
Variable match_file : PathSpec -> string -> bool.

(** The [for root, spec in self._specs] loop of [excluded]. *)
Fixpoint excluded_loop (p : Path) (is_dir : bool)
    (specs : list (Path * PathSpec)) (self : t) : bool * t :=
  match specs with
  | [] => (false, self)
  | (root, spec) :: rest =>
      let '(rel, self) := _get_relative_path_cached self p root in
      match rel with
      | None => excluded_loop p is_dir rest self
      | Some rel =>
          if match_file spec rel then (true, self)
          else if is_dir && match_file spec (rel +:+ "/") then (true, self)
          else excluded_loop p is_dir rest self
      end
  end.

Definition excluded (fs : FileSystem) (self : t) (item_path : Path)
  : bool * t :=
  if negb (enabled self) then (false, self)
  else
    let p := resolve fs item_path in
    let is_dir := is_dir fs p in
    excluded_loop p is_dir (_specs self) self.

End Matching.

End GitIgnore.

(** ** utilities/gitignore_utility.py *)

Module GitIgnoreMatcher.

(** The attributes of a [GitIgnoreMatcher].  Each entry of [gitignores]
    carries the state of its [GitIgnore] object, which [excluded]
    updates in place.  That state is the relative-path cache of the
    object; an object registered twice is carried once per entry. *)
Record t : Type := mk {
  gitignores : list (Path * GitIgnore.t);
  _exclusion_cache : gmap Path bool;
  _max_cache_size : Z
}.

(** [GitIgnoreMatcher.__init__] *)
Definition init : t := mk [] ∅ 10000.

Definition add_gitignore (self : t) (gitignore : GitIgnore.t)
    (root_path : Path) : t :=
  mk (gitignores self ++ [(root_path, gitignore)]) ∅ (_max_cache_size self).

Definition _is_path_in_scope (item_path gitignore_root : Path) : bool :=
  match PathLib.relative_to item_path gitignore_root with
  | Some _ => true
  | None => false
  end.

Definition clear_cache (self : t) : t :=
  mk (gitignores self) ∅ (_max_cache_size self).

Section Matching.

Variable match_file : GitIgnore.PathSpec -> string -> bool.
Variable fs : FileSystem.

(** The [for root_path, gitignore in self.gitignores] loop of
    [excluded]; it returns [result] and the list with the updated
    [GitIgnore] objects. *)
Fixpoint scan (item_path : Path) (gis : list (Path * GitIgnore.t))
  : bool * list (Path * GitIgnore.t) :=
  match gis with
  | [] => (false, [])
  | (root_path, gitignore) :: rest =>
      if negb (_is_path_in_scope item_path root_path)
      then
        let '(result, rest') := scan item_path rest in
        (result, (root_path, gitignore) :: rest')
      else
        let '(hit, gitignore') :=
          GitIgnore.excluded match_file fs gitignore item_path in
        if hit then (true, (root_path, gitignore') :: rest)
        else
          let '(result, rest') := scan item_path rest in
          (result, (root_path, gitignore') :: rest')
  end.

Definition excluded (self : t) (item_path : Path) : bool * t :=
  let path_key := item_path in
  match _exclusion_cache self !! path_key with
  | Some cached => (cached, self)
  | None =>
      let '(result, gis) := scan item_path (gitignores self) in
      if (Z.of_nat (size (_exclusion_cache self)) <? _max_cache_size self)%Z
      then
        (result,
         mk gis (<[path_key := result]> (_exclusion_cache self))
            (_max_cache_size self))
      else
        (result,
         mk gis (<[path_key := result]> ∅) (_max_cache_size self))
  end.

End Matching.

End GitIgnoreMatcher.

(** ** services/items_selection/filter_applier.py *)

Module FilterApplier.

(** The attributes of a [FilterApplier]; [file_extensions_set] is
    [None] or the normalised set. *)
Record t : Type := mk {
  config : Config;
  file_extensions_set : option (gset string)
}.

(** [ext.lower().lstrip('.')] *)
Definition normalize_ext (ext : string) : string :=
  Str.lstrip Str.DOT (Str.lower ext).

(** [FilterApplier.__init__] *)
Definition init (config : Config) : t :=
  mk config
     (match file_extensions config with
      | [] => None
      | exts => Some (list_to_set (map normalize_ext exts))
      end).

(** Truth value of [self.file_extensions_set]. *)
Definition extensions_active (self : t) : bool :=
  match file_extensions_set self with
  | None => false
  | Some s => negb (bool_decide (s = ∅))
  end.

Definition in_extensions (self : t) (ext : string) : bool :=
  match file_extensions_set self with
  | None => false
  | Some s => bool_decide (ext ∈ s)
  end.

(** [a <= b] on an [int] and a configured depth: comparing with [None]
    raises [TypeError]. *)
Definition le_depth (a : Z) (b : option Z) : outcome bool :=
  match b with
  | Some n => Ok (a <=? n)%Z
  | None => Raise TypeError
  end.

(** Filter 1.5 of [should_include_item]: [true] when the block returns
    [False]. *)
Definition rejected_by_extension (self : t) (item_path : Path)
    (is_dir : bool) : bool :=
  if negb is_dir && extensions_active self then
    let name := PathLib.name item_path in
    let dot_idx := Str.rfind Str.DOT name in
    if (0 <? dot_idx)%Z then
      let file_ext := Str.lower (Str.drop (Z.to_nat (dot_idx + 1)) name) in
      negb (in_extensions self file_ext)
    else true
  else false.

(** Filter 2: [true] when the block returns [False]. *)
Definition rejected_as_not_given (self : t) (item_path : Path)
    (is_dir : bool) (resolved_include_paths : list Path)
    (dir_under_given_paths : bool) : bool :=
  if negb dir_under_given_paths && negb (extensions_active self) then
    if negb is_dir && negb (bool_decide (item_path ∈ resolved_include_paths))
    then true
    else if is_dir
            && negb (existsb (fun t => PathResolver.is_under t [item_path])
                             resolved_include_paths)
    then true
    else false
  else false.

Section Filtering.

Variable match_file : GitIgnore.PathSpec -> string -> bool.
Variable fs : FileSystem.

Definition should_include_item (self : t) (item_path : Path)
    (curr_depth : Z) (is_dir : bool)
    (exclude_paths resolved_include_paths : list Path)
    (dir_under_given_paths : bool) : M GitIgnoreMatcher.t bool :=
  fun gitignore_matcher =>
  (* Filter 1 *)
  if negb is_dir && no_files (config self) then Ok (false, gitignore_matcher)
  (* Filter 1.5 *)
  else if rejected_by_extension self item_path is_dir
  then Ok (false, gitignore_matcher)
  (* Filter 2 *)
  else if rejected_as_not_given self item_path is_dir
            resolved_include_paths dir_under_given_paths
  then Ok (false, gitignore_matcher)
  (* Filter 3 *)
  else if negb (hidden_items (config self))
          && PathResolver.is_hidden item_path
          && negb (bool_decide (item_path ∈ resolved_include_paths))
  then Ok (false, gitignore_matcher)
  else
    (* Filter 4 *)
    match le_depth curr_depth (exclude_depth (config self)) with
    | Raise e => Raise e
    | Exit st msg => Exit st msg
    | Ok within_exclude =>
        if within_exclude && PathResolver.is_under item_path exclude_paths
        then Ok (false, gitignore_matcher)
        else
          (* Filter 5 *)
          match le_depth curr_depth (gitignore_depth (config self)) with
          | Raise e => Raise e
          | Exit st msg => Exit st msg
          | Ok within_gitignore =>
              let '(ignored, gitignore_matcher) :=
                if within_gitignore
                then GitIgnoreMatcher.excluded match_file fs
                       gitignore_matcher item_path
                else (false, gitignore_matcher) in
              if ignored then Ok (false, gitignore_matcher)
              (* Filter 6 *)
              else if negb (extensions_active self)
                      && negb (PathResolver.is_under item_path
                                 resolved_include_paths)
              then Ok (false, gitignore_matcher)
              else Ok (true, gitignore_matcher)
          end
    end.

End Filtering.

Definition check_depth_limit (self : t) (curr_depth : Z) : bool :=
  if no_max_depth (config self) then false
  else (max_depth (config self) - 1 <? curr_depth)%Z.

Definition check_item_limit (self : t) (items_added : Z) : bool :=
  if no_max_items (config self) then false
  else (max_items (config self) <=? items_added)%Z.

Definition check_entry_limit (self : t) (entries_count : Z) : bool :=
  if no_max_entries (config self) then false
  else (max_entries (config self) <=? entries_count)%Z.

End FilterApplier.

(** ** services/items_selection/items_selection_service.py *)

Module ItemsSelectionService.

Section Run.

(** [DirectoryTraverser.traverse], whose source is not part of the
    sources at hand: [root_dir], [resolved_include_paths],
    [exclude_paths] and the matcher go in, the items come out. *)
Variable Items : Type.
Variable traverse :
  Path -> list Path -> list Path -> GitIgnoreMatcher.t ->
  M PathResolver.t Items.

(** [l[-1]] *)
Definition last_item (l : list Path) : M PathResolver.t Path :=
  match last l with
  | Some x => mret x
  | None => raise IndexError
  end.

(** [ItemsSelectionService.run], from the resolver it creates on. *)
Definition run_from (fs : FileSystem) (config : Config)
  : M PathResolver.t Items :=
  resolved_include_paths ←
    PathResolver.resolve_paths fs (paths config ++ include config);
  (* print("\n    Root: ", resolved_include_paths[-1]) *)
  _ ← last_item resolved_include_paths;
  resolved_exclude_paths ← PathResolver.resolve_paths fs (exclude config);
  (* Safety check *)
  match resolved_include_paths with
  | [] => exit_with 1 MsgNoIncludedPaths
  | _ =>
      root_dir ← last_item resolved_include_paths;
      traverse root_dir resolved_include_paths
               (removelast resolved_exclude_paths)
               GitIgnoreMatcher.init
  end.

Definition run (fs : FileSystem) (config : Config)
  : outcome (Items * PathResolver.t) :=
  run_from fs config (PathResolver.init fs).

End Run.

End ItemsSelectionService.

(** The value of a computation, without its final state. *)
Definition result_of {A S} (o : outcome (A * S)) : outcome A :=
  match o with
  | Ok (a, _) => Ok a
  | Exit st msg => Exit st msg
  | Raise e => Raise e
  end.

(** ** Specification-level notions *)

(** What one input string stands for on the file system. *)
Definition expand_one (fs : FileSystem) (path_str : string) : list Path :=
  if PathResolver._is_glob path_str
  then map (resolve_str fs) (glob_ fs path_str)
  else [resolve_str fs path_str].

(** The resolutions of all inputs, in input order. *)
Definition expand (fs : FileSystem) (path_strings : list string) : list Path :=
  flat_map (expand_one fs) path_strings.

(** Every literal input exists on disk. *)
Definition literals_exist (fs : FileSystem) (path_strings : list string)
  : Prop :=
  Forall (fun s => PathResolver._is_glob s = false -> exists_ fs s = true)
         path_strings.

(** The caches of a resolver hold what the file system answers. *)
Definition coherent (fs : FileSystem) (st : PathResolver.t) : Prop :=
  (forall s p, PathResolver._resolved_cache st !! s = Some p ->
               p = resolve_str fs s /\ exists_ fs s = true) /\
  (forall s l, PathResolver._glob_cache st !! s = Some l ->
               l = map (resolve_str fs) (glob_ fs s)).

(** A file name with an allowed extension: the name reads [stem.ext]
    with a non-empty [stem] and no dot in [ext], so that the dot is the
    last one and stands at an index above 0, and the lower-cased [ext] is
    a member of the set [file_extensions_set]. *)
Definition has_allowed_extension (self : FilterApplier.t) (name : string)
  : Prop :=
  exists stem ext s,
    name = stem +:+ String Str.DOT ext
    /\ stem <> ""
    /\ Str.contains Str.DOT ext = false
    /\ FilterApplier.file_extensions_set self = Some s
    /\ Str.lower ext ∈ s.

(** [n] dots. *)
Fixpoint dots (n : nat) : string :=
  match n with
  | O => ""
  | S n' => String Str.DOT (dots n')
  end.

(** [x] is the entry [e] of an allow-list in lower case and without its
    leading dots. *)
Definition normal_form (e x : string) : Prop :=
  exists n, Str.lower e = dots n +:+ x /\ Str.startswith Str.DOT x = false.

(** Two entries that agree up to case and leading dots. *)
Definition same_extension (a b : string) : Prop :=
  exists x, normal_form a x /\ normal_form b x.

(** One compiled scope [(root, spec)] matches the resolved path [p]: [p]
    lies under [root] and the pattern set matches its relative form, or,
    for a directory, that form with a trailing slash. *)
Definition spec_matches (match_file : GitIgnore.PathSpec -> string -> bool)
    (p : Path) (is_dir : bool) (scope : Path * GitIgnore.PathSpec) : bool :=
  match PathLib.relative_to p scope.1 with
  | None => false
  | Some rel =>
      match_file scope.2 (PathLib.as_posix rel)
      || (is_dir && match_file scope.2 (PathLib.as_posix rel +:+ "/"))
  end.

(** What [GitIgnore.excluded] answers, without the relative-path cache. *)
Definition excluded_pure (match_file : GitIgnore.PathSpec -> string -> bool)
    (fs : FileSystem) (gi : GitIgnore.t) (item_path : Path) : bool :=
  GitIgnore.enabled gi
  && existsb (spec_matches match_file (resolve fs item_path)
                (is_dir fs (resolve fs item_path)))
             (GitIgnore._specs gi).

(** The relative-path cache of a [GitIgnore] holds what [relative_to]
    computes; true of a newly constructed object, and kept by [excluded]. *)
Definition rel_coherent (gi : GitIgnore.t) : Prop :=
  forall p r v,
    GitIgnore._rel_path_cache gi !! (p, r) = Some v ->
    v = PathLib.as_posix <$> PathLib.relative_to p r.

(** Two states of one [GitIgnore] object: only the cache may differ. *)
Definition same_rules (gi gi' : GitIgnore.t) : Prop :=
  GitIgnore.enabled gi' = GitIgnore.enabled gi
  /\ GitIgnore.gitignore_depth gi' = GitIgnore.gitignore_depth gi
  /\ GitIgnore._specs gi' = GitIgnore._specs gi
  /\ GitIgnore.root_path gi' = GitIgnore.root_path gi.

(** The cache-free evaluation of [GitIgnoreMatcher.excluded] over a list
    of gitignores: some scope whose root is an ancestor of, or equal to,
    the path reports it excluded. *)
Definition excluded_fresh (match_file : GitIgnore.PathSpec -> string -> bool)
    (fs : FileSystem) (gis : list (Path * GitIgnore.t)) (item_path : Path)
  : bool :=
  existsb (fun entry =>
             GitIgnoreMatcher._is_path_in_scope item_path entry.1
             && excluded_pure match_file fs entry.2 item_path)
          gis.

(** A call on a [GitIgnoreMatcher]. *)
Inductive call : Type :=
| AddGitignore (gitignore : GitIgnore.t) (root_path : Path)
| Excluded (item_path : Path).

(** The matcher after a sequence of calls. *)
Fixpoint after_calls (match_file : GitIgnore.PathSpec -> string -> bool)
    (fs : FileSystem) (calls : list call) (m : GitIgnoreMatcher.t)
  : GitIgnoreMatcher.t :=
  match calls with
  | [] => m
  | AddGitignore gi root_path :: rest =>
      after_calls match_file fs rest (GitIgnoreMatcher.add_gitignore m gi root_path)
  | Excluded item_path :: rest =>
      after_calls match_file fs rest
        (GitIgnoreMatcher.excluded match_file fs m item_path).2
  end.

(** Every gitignore added by the calls has a coherent cache. *)
Definition added_coherent (calls : list call) : Prop :=
  Forall (fun c => match c with
                   | AddGitignore gi _ => rel_coherent gi
                   | Excluded _ => True
                   end) calls.

(** The invariant of a matcher: coherent gitignores, and an exclusion
    cache that holds the cache-free answers. *)
Definition matcher_ok (match_file : GitIgnore.PathSpec -> string -> bool)
    (fs : FileSystem) (m : GitIgnoreMatcher.t) : Prop :=
  Forall (fun entry => rel_coherent entry.2) (GitIgnoreMatcher.gitignores m)
  /\ forall k b,
      GitIgnoreMatcher._exclusion_cache m !! k = Some b ->
      b = excluded_fresh match_file fs (GitIgnoreMatcher.gitignores m) k.

(** The scopes a sequence of calls registers, in order. *)
Fixpoint added (calls : list call) : list (Path * GitIgnore.t) :=
  match calls with
  | [] => []
  | AddGitignore gi root_path :: rest => (root_path, gi) :: added rest
  | Excluded _ :: rest => added rest
  end.

(** Two states of one registered scope. *)
Definition same_scope (e e' : Path * GitIgnore.t) : Prop :=
  e'.1 = e.1 /\ same_rules e.2 e'.2.

(** [d] was pushed on the stack of [_walk_dirs] while a directory of [V]
    that is within depth was expanded. *)
Definition pushed_from (fs : FileSystem) (gi : GitIgnore.t) (root : Path)
    (V : gset Path) (d : Path) : Prop :=
  exists parent,
    parent ∈ V /\ d ∈ GitIgnore.subdirs fs parent
    /\ GitIgnore._within_depth gi root parent = true.

(** A name that [joinpath] keeps as a component. *)
Definition proper_name (name : string) : Prop := name <> "" /\ name <> ".".

(** [d] lies under [root], below it by proper names. *)
Definition below (root d : Path) : Prop :=
  exists rel, PathLib.relative_to d root = Some rel /\ Forall proper_name rel.

(** The prefix [_collect_patterns] puts before the patterns of the
    directory [rel] below the root. *)
Definition dir_prefix (rel : list string) : string :=
  match rel with
  | [] => ""
  | _ => Str.join "/" rel +:+ "/"
  end.

(** What the [.gitignore] of one walked directory contributes. *)
Definition contribution (fs : FileSystem) (root d : Path) : list string :=
  if is_file fs (PathLib.joinpath d ".gitignore") then
    match PathLib.relative_to d root with
    | Some rel =>
        map (GitIgnore.prefix_pattern (dir_prefix rel))
            (GitIgnore._parse_gitignore_file fs (PathLib.joinpath d ".gitignore"))
    | None => []
    end
  else [].

(** The rewriting of one parsed pattern of the [.gitignore] in the
    directory [rel] below the root: the negation mark stays in front,
    then the directory prefix, then the pattern body without leading
    slashes. *)
Definition rewritten (rel : list string) (pat : string) : string :=
  (if Str.startswith Str.BANG pat then "!" else "")
  +:+ dir_prefix rel
  +:+ Str.lstrip Str.SLASH
        (if Str.startswith Str.BANG pat then Str.tail pat else pat).

(** ** Concrete configurations and file systems *)

(** A POSIX path. *)
Definition posix (components : list string) : Path := mkPath "/" components.

(** The configuration [config] with another extension allow-list. *)
Definition with_extensions (config : Config) (exts : list string) : Config :=
  mkConfig (paths config) (include config) (exclude config)
           (gitignore config) (gitignore_depth config) (hidden_items config)
           (no_files config) exts (exclude_depth config)
           (no_max_depth config) (max_depth config)
           (no_max_items config) (max_items config)
           (no_max_entries config) (max_entries config).

(** The configuration [config] with another gitignore depth. *)
Definition with_gitignore_depth (config : Config) (d : option Z) : Config :=
  mkConfig (paths config) (include config) (exclude config)
           (gitignore config) d (hidden_items config)
           (no_files config) (file_extensions config) (exclude_depth config)
           (no_max_depth config) (max_depth config)
           (no_max_items config) (max_items config)
           (no_max_entries config) (max_entries config).

(** No paths given, gitignore off, hidden items off, both depths 5, no
    limits, no extension allow-list. *)
Definition cfg_plain : Config :=
  mkConfig [] [] [] false (Some 5%Z) false false [] (Some 5%Z)
           true 0 true 0 true 0.

(** [cfg_plain] with the allow-list [{"py"}]. *)
Definition cfg_py : Config := with_extensions cfg_plain ["py"].

(** [cfg_plain] with gitignore filtering on. *)
Definition cfg_on : Config :=
  mkConfig [] [] [] true (Some 5%Z) false false [] (Some 5%Z)
           true 0 true 0 true 0.

(** [cfg_plain] with the single path argument [*.md]. *)
Definition cfg_glob : Config :=
  mkConfig ["*.md"] [] [] false (Some 5%Z) false false [] (Some 5%Z)
           true 0 true 0 true 0.

(** [cfg_plain] with the single path argument [missing.txt]. *)
Definition cfg_missing : Config :=
  mkConfig ["missing.txt"] [] [] false (Some 5%Z) false false [] (Some 5%Z)
           true 0 true 0 true 0.

(** A pattern matcher that matches nothing. *)
Definition match_nothing : GitIgnore.PathSpec -> string -> bool :=
  fun _ _ => false.

(** A toy pattern matcher, for concrete runs: a pattern set matches the
    relative paths it lists literally. *)
Definition match_exact : GitIgnore.PathSpec -> string -> bool :=
  fun spec rel => bool_decide (rel ∈ spec).

(** A flat working directory [/cwd] in which every name exists as a plain
    file and no glob matches. *)
Definition fs_flat : FileSystem :=
  mkFS (posix ["cwd"]) (fun _ => true) (fun s => posix ["cwd"; s])
       (fun _ => []) (fun p => p) (fun _ => false) (fun _ => true)
       (fun _ => false) (fun _ => []) (fun _ => None).

(** A working directory in which nothing exists. *)
Definition fs_empty : FileSystem :=
  mkFS (posix ["cwd"]) (fun _ => false) (fun s => posix ["cwd"; s])
       (fun _ => []) (fun p => p) (fun _ => false) (fun _ => false)
       (fun _ => false) (fun _ => []) (fun _ => None).

(** The text of [/root/sub/.gitignore]: a comment line and the pattern
    [foo]. *)
Definition sub_gitignore_text : string :=
  "# sub" +:+ String Str.LF ("foo" +:+ String Str.LF "").

(** The tree [/root/foo], [/root/sub/.gitignore], [/root/sub/foo], and a
    symbolic link [/a/link] to [/root/sub/foo]. *)
Definition fs_scope : FileSystem :=
  mkFS (posix ["root"]) (fun _ => true) (fun s => posix ["root"; s])
       (fun _ => [])
       (fun p => if bool_decide (p = posix ["a"; "link"])
                 then posix ["root"; "sub"; "foo"] else p)
       (fun p => bool_decide (p ∈ [posix ["root"]; posix ["root"; "sub"];
                                   posix ["a"]]))
       (fun p => bool_decide (p ∈ [posix ["root"; "foo"];
                                   posix ["root"; "sub"; ".gitignore"];
                                   posix ["root"; "sub"; "foo"];
                                   posix ["a"; "link"]]))
       (fun p => bool_decide (p = posix ["a"; "link"]))
       (fun p => if bool_decide (p = posix ["root"]) then ["foo"; "sub"]
                 else if bool_decide (p = posix ["root"; "sub"])
                      then [".gitignore"; "foo"]
                      else if bool_decide (p = posix ["a"]) then ["link"]
                           else [])
       (fun p => if bool_decide (p = posix ["root"; "sub"; ".gitignore"])
                 then Some sub_gitignore_text else None).

(** The [GitIgnore] loaded from [/root/sub/.gitignore]. *)
Definition gi_sub : GitIgnore.t :=
  GitIgnore.init fs_scope cfg_on (posix ["root"; "sub"; ".gitignore"]).

(** A [GitIgnore] with scan depth 0, loaded from the absent
    [/root/.gitignore]. *)
Definition gi_depth0 : GitIgnore.t :=
  GitIgnore.init fs_scope (with_gitignore_depth cfg_on (Some 0%Z))
    (posix ["root"; ".gitignore"]).

(** A run on a matcher: register [gi_sub] for [/root/sub], then ask
    about [/root/sub/foo] and [/root/foo]. *)
Definition calls_demo : list call :=
  [AddGitignore gi_sub (posix ["root"; "sub"]);
   Excluded (posix ["root"; "sub"; "foo"]);
   Excluded (posix ["root"; "foo"])].

(** Two drives: the name [c] resolves on drive [C:], every other name
    on drive [D:]. *)
Definition fs_drives : FileSystem :=
  mkFS (mkPath "C:" ["cwd"]) (fun _ => true)
       (fun s => if bool_decide (s = "c") then mkPath "C:" ["cwd"; s]
                 else mkPath "D:" [s])
       (fun _ => []) (fun p => p) (fun _ => false) (fun _ => true)
       (fun _ => false) (fun _ => []) (fun _ => None).

(** [cfg_plain] with the path arguments [c] and [d]. *)
Definition cfg_drives : Config :=
  mkConfig ["c"; "d"] [] [] false (Some 5%Z) false false [] (Some 5%Z)
           true 0 true 0 true 0.

(** ** services/items_selection/performance_cache.py *)

Module PerformanceCache.

(** The attributes of a [PerformanceCache]; the dictionaries and sets
    keyed by [str(path)] are keyed by the path. *)
Record t : Type := mk {
  max_cache_size : Z;
  _is_dir_cache : gmap Path bool;
  _exists_cache : gmap Path bool;
  _resolved_path_cache : gmap Path Path;
  _is_under_cache : gmap (Path * Path) bool;
  _known_dirs : gset Path;
  _known_files : gset Path
}.

(** [PerformanceCache.__init__] *)
Definition init (max_cache_size : Z) : t := mk max_cache_size ∅ ∅ ∅ ∅ ∅ ∅.

(** [_cache_with_limit], which updates the dictionary it is given. *)
Definition _cache_with_limit `{Countable K} {V} (self : t)
    (cache : gmap K V) (key : K) (value : V) : gmap K V :=
  if (Z.of_nat (size cache) <? max_cache_size self)%Z
  then <[key := value]> cache
  else <[key := value]> ∅.

Section Cached.

Variable fs : FileSystem.

(** [path.exists()] on a path object. *)
Variable path_exists : Path -> bool.

(** [is_dir_cached]: the known sets first, then the dictionary, then
    [path.is_dir()], whose answer goes to the dictionary and to a known
    set. *)
Definition is_dir_cached (self : t) (path : Path) : bool * t :=
  if bool_decide (path ∈ _known_dirs self) then (true, self)
  else if bool_decide (path ∈ _known_files self) then (false, self)
  else
    match _is_dir_cache self !! path with
    | Some cached => (cached, self)
    | None =>
        let result := is_dir fs path in
        let cache := _cache_with_limit self (_is_dir_cache self) path result in
        (result,
         mk (max_cache_size self) cache (_exists_cache self)
            (_resolved_path_cache self) (_is_under_cache self)
            (if result then {[path]} ∪ _known_dirs self else _known_dirs self)
            (if result then _known_files self
             else {[path]} ∪ _known_files self))
    end.

(** [exists_cached] *)
Definition exists_cached (self : t) (path : Path) : bool * t :=
  match _exists_cache self !! path with
  | Some cached => (cached, self)
  | None =>
      let result := path_exists path in
      (result,
       mk (max_cache_size self) (_is_dir_cache self)
          (_cache_with_limit self (_exists_cache self) path result)
          (_resolved_path_cache self) (_is_under_cache self)
          (_known_dirs self) (_known_files self))
  end.

(** [resolve_cached] *)
Definition resolve_cached (self : t) (path : Path) : Path * t :=
  match _resolved_path_cache self !! path with
  | Some cached => (cached, self)
  | None =>
      let result := resolve fs path in
      (result,
       mk (max_cache_size self) (_is_dir_cache self) (_exists_cache self)
          (_cache_with_limit self (_resolved_path_cache self) path result)
          (_is_under_cache self) (_known_dirs self) (_known_files self))
  end.

(** [is_under_cached]; on path objects neither [==] nor
    [is_relative_to] raises, so the [except] branch is never taken.  The
    size limit is written out in the source and not passed to
    [_cache_with_limit]. *)
Definition is_under_cached (self : t) (child parent : Path) : bool * t :=
  let cache_key := (child, parent) in
  match _is_under_cache self !! cache_key with
  | Some cached => (cached, self)
  | None =>
      let result :=
        bool_decide (child = parent) || PathLib.is_relative_to child parent in
      (result,
       mk (max_cache_size self) (_is_dir_cache self) (_exists_cache self)
          (_resolved_path_cache self)
          (if (Z.of_nat (size (_is_under_cache self)) <? max_cache_size self)%Z
           then <[cache_key := result]> (_is_under_cache self)
           else <[cache_key := result]> ∅)
          (_known_dirs self) (_known_files self))
  end.

End Cached.

(** The dictionary [get_stats] returns. *)
Record stats : Type := mkStats {
  is_dir_cache_size : nat;
  exists_cache_size : nat;
  resolved_path_cache_size : nat;
  is_under_cache_size : nat;
  known_dirs_count : nat;
  known_files_count : nat
}.

(** [get_stats] *)
Definition get_stats (self : t) : stats :=
  mkStats (size (_is_dir_cache self)) (size (_exists_cache self))
          (size (_resolved_path_cache self)) (size (_is_under_cache self))
          (size (_known_dirs self)) (size (_known_files self)).

(** [clear_all] *)
Definition clear_all (self : t) : t := mk (max_cache_size self) ∅ ∅ ∅ ∅ ∅ ∅.

End PerformanceCache.

(** ** utilities/gitignore_utility.py, continued *)

(** The dictionary [GitIgnoreMatcher.get_cache_stats] returns. *)
Record cache_stats : Type := mkCacheStats {
  cache_size : nat;
  gitignore_count : nat
}.

(** [GitIgnoreMatcher.get_cache_stats] *)
Definition get_cache_stats (self : GitIgnoreMatcher.t) : cache_stats :=
  mkCacheStats (size (GitIgnoreMatcher._exclusion_cache self))
          (length (GitIgnoreMatcher.gitignores self)).

(** ** Further specification-level notions *)

(** No glob pattern is cached with an empty expansion; true of a new
    resolver, and kept by [_resolve_glob], which returns before caching
    when nothing matches. *)
Definition glob_cache_nonempty (st : PathResolver.t) : Prop :=
  forall s l, PathResolver._glob_cache st !! s = Some l -> l <> [].

(** The inputs that are glob patterns without a match, in input order. *)
Definition unmatched_globs (fs : FileSystem) (path_strings : list string)
  : list string :=
  filter (fun s => PathResolver._is_glob s = true /\ glob_ fs s = [])
         path_strings.

(** The directory [_norm_roots] keeps for a root: its resolved form when
    that is a directory, the parent of it otherwise. *)
Definition norm_root (fs : FileSystem) (r : Path) : Path :=
  if is_dir fs (resolve fs r) then resolve fs r
  else PathLib.parent (resolve fs r).


(** An upper bound on the iterations of the walk below [d] when [budget]
    more levels may be expanded. *)
Fixpoint walk_cost (fs : FileSystem) (budget : nat) (d : Path) : nat :=
  match budget with
  | O => 1
  | S b => S (sum_list (map (walk_cost fs b) (GitIgnore.subdirs fs d)))
  end.

(** The levels the walk may still expand below a directory that lies
    [len] components below the root, with scan depth [n]. *)
Definition budget (n : Z) (len : nat) : nat :=
  Z.to_nat (n + 1 - Z.of_nat len).

(** The number of components of [d] below [root] (0 when [d] is not below
    [root]). *)
Definition rel_len (root d : Path) : nat :=
  match PathLib.relative_to d root with
  | Some rel => length rel
  | None => 0
  end.

(** The cost of a stack of the depth-[n] walk. *)
Definition stack_cost (fs : FileSystem) (root : Path) (n : Z)
    (stack : list Path) : nat :=
  sum_list (map (fun d => walk_cost fs (budget n (rel_len root d)) d) stack).


(** A call on a [PerformanceCache]. *)
Inductive cache_call : Type :=
| IsDirCached (path : Path)
| ExistsCached (path : Path)
| ResolveCached (path : Path)
| IsUnderCached (child parent : Path)
| ClearAll.

(** The cache after a sequence of calls. *)
Fixpoint cache_after (fs : FileSystem) (path_exists : Path -> bool)
    (calls : list cache_call) (c : PerformanceCache.t) : PerformanceCache.t :=
  match calls with
  | [] => c
  | IsDirCached p :: rest =>
      cache_after fs path_exists rest (PerformanceCache.is_dir_cached fs c p).2
  | ExistsCached p :: rest =>
      cache_after fs path_exists rest
        (PerformanceCache.exists_cached path_exists c p).2
  | ResolveCached p :: rest =>
      cache_after fs path_exists rest (PerformanceCache.resolve_cached fs c p).2
  | IsUnderCached child parent :: rest =>
      cache_after fs path_exists rest
        (PerformanceCache.is_under_cached c child parent).2
  | ClearAll :: rest =>
      cache_after fs path_exists rest (PerformanceCache.clear_all c)
  end.

(** The invariant of a [PerformanceCache]: every dictionary holds what
    the uncached operation answers, the known directories are
    directories and the known files are not. *)
Definition cache_ok (fs : FileSystem) (path_exists : Path -> bool)
    (c : PerformanceCache.t) : Prop :=
  (forall p b, PerformanceCache._is_dir_cache c !! p = Some b ->
               b = is_dir fs p)
  /\ (forall p b, PerformanceCache._exists_cache c !! p = Some b ->
                  b = path_exists p)
  /\ (forall p q, PerformanceCache._resolved_path_cache c !! p = Some q ->
                  q = resolve fs p)
  /\ (forall p q b, PerformanceCache._is_under_cache c !! (p, q) = Some b ->
                    b = PathResolver.is_under p [q])
  /\ (forall p, p ∈ PerformanceCache._known_dirs c -> is_dir fs p = true)
  /\ (forall p, p ∈ PerformanceCache._known_files c -> is_dir fs p = false).

(** No dictionary holds more entries than the limit (one entry when the
    limit is below one). *)
Definition cache_bounded (c : PerformanceCache.t) : Prop :=
  let bound := Z.max (PerformanceCache.max_cache_size c) 1 in
  (Z.of_nat (size (PerformanceCache._is_dir_cache c)) <= bound)%Z
  /\ (Z.of_nat (size (PerformanceCache._exists_cache c)) <= bound)%Z
  /\ (Z.of_nat (size (PerformanceCache._resolved_path_cache c)) <= bound)%Z
  /\ (Z.of_nat (size (PerformanceCache._is_under_cache c)) <= bound)%Z.

(** The paths a [PerformanceCache] knows as a directory or as a file. *)
Definition known (c : PerformanceCache.t) : gset Path :=
  PerformanceCache._known_dirs c ∪ PerformanceCache._known_files c.

(** Every path in the [is_dir] dictionary is in a known set. *)
Definition dir_cache_known (c : PerformanceCache.t) : Prop :=
  forall p, is_Some (PerformanceCache._is_dir_cache c !! p) -> p ∈ known c.

(** The three invariants together. *)
Definition cache_inv (fs : FileSystem) (path_exists : Path -> bool)
    (c : PerformanceCache.t) : Prop :=
  cache_ok fs path_exists c /\ cache_bounded c /\ dir_cache_known c.

(** ** Further configurations and inputs *)

(** A resolver on [fs_flat] that has already resolved the literal [a]. *)
Definition resolver_warm : PathResolver.t :=
  PathResolver.mk (posix ["cwd"]) (<["a" := posix ["cwd"; "a"]]> ∅) ∅ [].

(** A [GitIgnore] constructed with gitignore filtering off. *)
Definition gi_off : GitIgnore.t :=
  GitIgnore.init fs_scope cfg_plain (posix ["root"; "sub"; ".gitignore"]).

(** The scope of [/root/sub] registered after a pattern-less scope of
    [/root]. *)
Definition calls_before : list call :=
  [AddGitignore gi_depth0 (posix ["root"]);
   AddGitignore gi_sub (posix ["root"; "sub"])].

(** The same two scopes registered in the other order, with a question
    in between. *)
Definition calls_after : list call :=
  [AddGitignore gi_sub (posix ["root"; "sub"]);
   Excluded (posix ["root"; "foo"]);
   AddGitignore gi_depth0 (posix ["root"])].

(** [cfg_plain] with the path argument [a] and the exclude argument [b]. *)
Definition cfg_ab : Config :=
  mkConfig ["a"] [] ["b"] false (Some 5%Z) false false [] (Some 5%Z)
           true 0 true 0 true 0.

(** A traversal that returns the exclude paths it was given. *)
Definition traverse_excludes (root_dir : Path) (incl excl : list Path)
    (matcher : GitIgnoreMatcher.t) : M PathResolver.t (list Path) :=
  mret excl.

(** [cfg_plain] with the single path argument [a]. *)
Definition cfg_file : Config :=
  mkConfig ["a"] [] [] false (Some 5%Z) false false [] (Some 5%Z)
           true 0 true 0 true 0.

(** A traversal that returns the root directory it was given. *)
Definition traverse_root (root_dir : Path) (incl excl : list Path)
    (matcher : GitIgnoreMatcher.t) : M PathResolver.t Path :=
  mret root_dir.

(** The fragment of gitwildmatch on literal patterns with a slash inside,
    for concrete runs: such a pattern matches the relative path equal to
    it, a leading [!] makes it a negation, and the last pattern that
    matches a path decides. *)
Definition match_last_literal : GitIgnore.PathSpec -> string -> bool :=
  fun spec rel =>
    foldl (fun verdict pat =>
             if Str.startswith Str.BANG pat
             then (if bool_decide (Str.tail pat = rel) then false else verdict)
             else (if bool_decide (pat = rel) then true else verdict))
          false spec.

(** The tree [/root/.gitignore] with the pattern [x/foo], [/root/x/foo]
    and a directory [/root/!x]; with [nested], that directory holds a
    [.gitignore] with the pattern [foo]. *)
Definition fs_bang (nested : bool) : FileSystem :=
  mkFS (posix ["root"]) (fun _ => true) (fun s => posix ["root"; s])
       (fun _ => []) (fun p => p)
       (fun p => bool_decide (p ∈ [posix ["root"]; posix ["root"; "!x"];
                                   posix ["root"; "x"]]))
       (fun p => bool_decide (p ∈ [posix ["root"; ".gitignore"];
                                   posix ["root"; "x"; "foo"]])
                 || nested
                    && bool_decide (p = posix ["root"; "!x"; ".gitignore"]))
       (fun _ => false)
       (fun p => if bool_decide (p = posix ["root"])
                 then [".gitignore"; "!x"; "x"]
                 else if bool_decide (p = posix ["root"; "x"]) then ["foo"]
                      else if nested
                              && bool_decide (p = posix ["root"; "!x"])
                           then [".gitignore"] else [])
       (fun p => if bool_decide (p = posix ["root"; ".gitignore"])
                 then Some ("x/foo" +:+ String Str.LF "")
                 else if nested
                         && bool_decide
                              (p = posix ["root"; "!x"; ".gitignore"])
                      then Some ("foo" +:+ String Str.LF "") else None).

(** The [GitIgnore] loaded from [/root/.gitignore] on [fs_bang]. *)
Definition gi_bang (nested : bool) : GitIgnore.t :=
  GitIgnore.init (fs_bang nested) cfg_on (posix ["root"; ".gitignore"]).

(** Filters 1 to 3 of [should_include_item] let the item through. *)
Definition passes_filters_1_to_3 (self : FilterApplier.t) (item_path : Path)
    (is_dir : bool) (resolved_include_paths : list Path)
    (dir_under_given_paths : bool) : bool :=
  negb (negb is_dir && no_files (FilterApplier.config self))
  && negb (FilterApplier.rejected_by_extension self item_path is_dir)
  && negb (FilterApplier.rejected_as_not_given self item_path is_dir
             resolved_include_paths dir_under_given_paths)
  && negb (negb (hidden_items (FilterApplier.config self))
           && PathResolver.is_hidden item_path
           && negb (bool_decide (item_path ∈ resolved_include_paths))).

(** * Properties *)

(** ** The embedding on small inputs *)

Example rfind_last_dot : Str.rfind Str.DOT "a.tar.gz" = 5%Z.
Proof. reflexivity. Qed.

Example rfind_no_dot : Str.rfind Str.DOT "Makefile" = (-1)%Z.
Proof. reflexivity. Qed.

Example splitlines_mixed :
  Str.splitlines ("a" +:+ String Str.CR (String Str.LF ("b" +:+
                    String Str.LF (String Str.LF "c"))))
  = ["a"; "b"; ""; "c"].
Proof. reflexivity. Qed.

Example parse_lines :
  flat_map GitIgnore._parse_line ["# build output"; ""; "  /build/ "; "!/keep.txt"]
  = ["build/"; "!keep.txt"].
Proof. reflexivity. Qed.

Example prefix_negated : GitIgnore.prefix_pattern "pkg/" "!keep.txt" = "!pkg/keep.txt".
Proof. reflexivity. Qed.

Example commonpath_siblings :
  PathLib.commonpath [posix ["r"; "a"; "x"]; posix ["r"; "a"; "y"]; posix ["r"; "b"]]
  = Some (posix ["r"]).
Proof. reflexivity. Qed.

Example commonpath_two_drives :
  PathLib.commonpath [mkPath "C:" ["a"]; mkPath "D:" ["a"]] = None.
Proof. reflexivity. Qed.

(** ** Paths *)

Section PathFacts.

Import PathLib.

Lemma strip_prefix_app pre r : strip_prefix pre (pre ++ r) = Some r.
Proof.
  induction pre as [|a pre IH]; simpl; [done|].
  by rewrite bool_decide_eq_true_2.
Qed.

Lemma strip_prefix_Some pre l r :
  strip_prefix pre l = Some r -> l = pre ++ r.
Proof.
  revert l; induction pre as [|a pre IH]; intros [|b l]; simpl; try congruence.
  case_bool_decide as Hab; [|done]. intros Hs. apply IH in Hs. by subst.
Qed.

Lemma relative_to_Some p root r :
  relative_to p root = Some r <->
  anchor p = anchor root /\ parts p = parts root ++ r.
Proof.
  unfold relative_to. case_bool_decide as Ha; split.
  - intros Hs. apply strip_prefix_Some in Hs. done.
  - intros [_ Hp]. rewrite Hp. apply strip_prefix_app.
  - done.
  - intros [? _]. done.
Qed.

Lemma is_relative_to_true p root :
  is_relative_to p root = true <->
  exists r, anchor p = anchor root /\ parts p = parts root ++ r.
Proof.
  unfold is_relative_to.
  destruct (relative_to p root) as [r|] eqn:E.
  - apply relative_to_Some in E. split; [eauto|done].
  - split; [done|]. intros (r & Hr). apply relative_to_Some in Hr. congruence.
Qed.

Lemma is_relative_to_refl p : is_relative_to p p = true.
Proof. apply is_relative_to_true. exists []. by rewrite app_nil_r. Qed.

Lemma is_relative_to_trans p q r :
  is_relative_to p q = true -> is_relative_to q r = true ->
  is_relative_to p r = true.
Proof.
  rewrite !is_relative_to_true. intros (a & Ha1 & Ha2) (b & Hb1 & Hb2).
  exists (b ++ a). split; [congruence|]. by rewrite Ha2, Hb2, app_assoc.
Qed.

Lemma common_prefix_l l1 l2 : exists r, l1 = common_prefix l1 l2 ++ r.
Proof.
  revert l2; induction l1 as [|a l1 IH]; intros [|b l2]; simpl; eauto.
  case_bool_decide; simpl; eauto.
  destruct (IH l2) as [r Hr]. exists r. by rewrite <- Hr.
Qed.

Lemma common_prefix_r l1 l2 : exists r, l2 = common_prefix l1 l2 ++ r.
Proof.
  revert l2; induction l1 as [|a l1 IH]; intros [|b l2]; simpl; eauto.
  case_bool_decide; simpl; eauto. subst.
  destruct (IH l2) as [r Hr]. exists r. by rewrite <- Hr.
Qed.

Lemma common_prefix_greatest c l1 l2 r1 r2 :
  l1 = c ++ r1 -> l2 = c ++ r2 -> exists r, common_prefix l1 l2 = c ++ r.
Proof.
  revert l1 l2; induction c as [|a c IH]; intros l1 l2 -> ->; simpl; eauto.
  rewrite bool_decide_eq_true_2 by done.
  destruct (IH _ _ eq_refl eq_refl) as [r ->]. eauto.
Qed.

(** [commonpath] succeeds on paths that share their anchor. *)
Lemma commonpath_same_anchor a ps :
  ps <> [] -> Forall (fun p => anchor p = a) ps ->
  exists cp, commonpath ps = Some cp /\ anchor cp = a.
Proof.
  induction ps as [|p ps IH]; [done|]. intros _ Hall.
  apply Forall_cons in Hall as [Hp Hall].
  destruct ps as [|q ps]; [by exists p|].
  destruct IH as (cp & Hcp & Hacp); [done|done|].
  change (commonpath (p :: q :: ps)) with
    (match commonpath (q :: ps) with
     | Some q0 => if bool_decide (anchor p = anchor q0)
                  then Some (mkPath (anchor p) (common_prefix (parts p) (parts q0)))
                  else None
     | None => None end).
  rewrite Hcp, bool_decide_eq_true_2 by congruence. eauto.
Qed.

(** The common path is an ancestor of, or equal to, every path. *)
Lemma commonpath_ancestor ps cp :
  commonpath ps = Some cp ->
  Forall (fun p => is_relative_to p cp = true) ps.
Proof.
  revert cp; induction ps as [|p ps IH]; intros cp; [done|].
  destruct ps as [|q ps].
  - intros [= ->]. constructor; [apply is_relative_to_refl|done].
  - change (commonpath (p :: q :: ps)) with
      (match commonpath (q :: ps) with
       | Some q0 => if bool_decide (anchor p = anchor q0)
                    then Some (mkPath (anchor p) (common_prefix (parts p) (parts q0)))
                    else None
       | None => None end).
    destruct (commonpath (q :: ps)) as [c|] eqn:E; [|done].
    case_bool_decide as Ha; [|done]. intros [= <-].
    constructor.
    + apply is_relative_to_true. simpl.
      destruct (common_prefix_l (parts p) (parts c)) as [r Hr]. eauto.
    + eapply Forall_impl; [apply (IH c eq_refl)|]. intros x Hx. simpl in Hx.
      eapply is_relative_to_trans; [exact Hx|].
      apply is_relative_to_true. simpl.
      destruct (common_prefix_r (parts p) (parts c)) as [r Hr]. eauto.
Qed.

(** Every common ancestor is an ancestor of the common path. *)
Lemma commonpath_greatest ps cp q :
  commonpath ps = Some cp ->
  Forall (fun p => is_relative_to p q = true) ps ->
  is_relative_to cp q = true.
Proof.
  revert cp; induction ps as [|p ps IH]; intros cp; [done|].
  destruct ps as [|p' ps].
  - intros [= ->] Hall. by apply Forall_cons in Hall as [? _].
  - change (commonpath (p :: p' :: ps)) with
      (match commonpath (p' :: ps) with
       | Some q0 => if bool_decide (anchor p = anchor q0)
                    then Some (mkPath (anchor p) (common_prefix (parts p) (parts q0)))
                    else None
       | None => None end).
    destruct (commonpath (p' :: ps)) as [c|] eqn:E; [|done].
    case_bool_decide as Ha; [|done]. intros [= <-] Hall.
    apply Forall_cons in Hall as [Hp Hall].
    specialize (IH c eq_refl Hall).
    apply is_relative_to_true in Hp as (r1 & Ha1 & Hp1).
    apply is_relative_to_true in IH as (r2 & Ha2 & Hp2).
    apply is_relative_to_true. simpl.
    destruct (common_prefix_greatest (parts q) _ _ r1 r2 Hp1 Hp2) as [r Hr].
    eauto.
Qed.

End PathFacts.

(** ** The path resolver *)

Section ResolverFacts.

Import PathResolver.

Variable fs : FileSystem.

Lemma coherent_init : coherent fs (init fs).
Proof. split; intros ? ?; simpl; by rewrite lookup_empty. Qed.

Lemma resolve_single_ok st s :
  coherent fs st -> exists_ fs s = true ->
  exists st', _resolve_single_path fs s st = Ok (resolve_str fs s, st')
              /\ coherent fs st' /\ base_path st' = base_path st
              /\ warnings st' = warnings st.
Proof.
  intros Hc Hex. pose proof Hc as [Hr Hg]. unfold _resolve_single_path.
  unfold mbind, M_bind, bind, get; simpl.
  destruct (_resolved_cache st !! s) as [p|] eqn:E.
  - destruct (Hr _ _ E) as [-> _]. exists st. split_and!; auto.
  - rewrite Hex; simpl. eexists; split; [reflexivity|].
    split_and!; simpl; auto. split; simpl; [|exact Hg].
    intros s0 p Hp. destruct (decide (s = s0)) as [<-|Hne].
    + rewrite lookup_insert_eq in Hp. split; congruence.
    + rewrite lookup_insert_ne in Hp by done. by apply Hr.
Qed.

Lemma resolve_single_missing st s :
  coherent fs st -> exists_ fs s = false ->
  _resolve_single_path fs s st = Exit 1 (MsgPathDoesNotExist s).
Proof.
  intros [Hr _] Hex. unfold _resolve_single_path.
  unfold mbind, M_bind, bind, get; simpl.
  destruct (_resolved_cache st !! s) as [p|] eqn:E.
  - apply Hr in E as [_ E]. congruence.
  - by rewrite Hex.
Qed.

Lemma resolve_glob_ok st pat :
  coherent fs st ->
  exists st', _resolve_glob fs pat st
              = Ok (map (resolve_str fs) (glob_ fs pat), st')
              /\ coherent fs st' /\ base_path st' = base_path st
              /\ (warnings st' = warnings st
                  \/ glob_ fs pat = []
                     /\ warnings st' = warnings st ++ [MsgNoGlobMatches pat]).
Proof.
  intros Hc. pose proof Hc as [Hr Hg]. unfold _resolve_glob.
  unfold mbind, M_bind, bind, get; simpl.
  destruct (_glob_cache st !! pat) as [l|] eqn:E.
  - rewrite (Hg _ _ E). exists st. split_and!; auto.
  - destruct (glob_ fs pat) as [|m ms] eqn:G; simpl.
    + eexists; split; [reflexivity|]. split_and!; simpl; auto.
    + eexists; split; [reflexivity|]. split_and!; simpl; auto.
      split; simpl; [exact Hr|].
      intros s l Hl. destruct (decide (pat = s)) as [<-|Hne].
      * rewrite lookup_insert_eq in Hl. rewrite G. simpl. congruence.
      * rewrite lookup_insert_ne in Hl by done. by apply Hg.
Qed.

Lemma resolve_loop_ok path_strings : forall acc st,
  coherent fs st -> literals_exist fs path_strings ->
  exists st', resolve_loop fs path_strings acc st
              = Ok (acc ++ expand fs path_strings, st')
              /\ coherent fs st' /\ base_path st' = base_path st.
Proof.
  induction path_strings as [|s rest IH]; intros acc st Hc Hall; simpl.
  - exists st. by rewrite app_nil_r.
  - apply Forall_cons in Hall as [Hs Hall]. unfold expand_one.
    destruct (_is_glob s) eqn:G; unfold mbind, M_bind, bind.
    + destruct (resolve_glob_ok st s Hc) as (st1 & -> & Hc1 & Hb1 & _).
      destruct (IH (acc ++ map (resolve_str fs) (glob_ fs s)) st1 Hc1 Hall)
        as (st2 & -> & Hc2 & Hb2).
      exists st2. rewrite <- app_assoc. split_and!; auto. congruence.
    + destruct (resolve_single_ok st s Hc (Hs eq_refl))
        as (st1 & -> & Hc1 & Hb1 & _).
      destruct (IH (acc ++ [resolve_str fs s]) st1 Hc1 Hall)
        as (st2 & -> & Hc2 & Hb2).
      exists st2. rewrite <- app_assoc. split_and!; auto. congruence.
Qed.

(** [resolve_paths] on a non-empty input whose literals exist: the
    resolutions in input order, then their common path. *)
Lemma resolve_paths_ok path_strings st cp :
  coherent fs st -> path_strings <> [] -> literals_exist fs path_strings ->
  PathLib.commonpath (expand fs path_strings) = Some cp ->
  exists st', resolve_paths fs path_strings st
              = Ok (expand fs path_strings ++ [cp], st') /\ coherent fs st'.
Proof.
  intros Hc Hne Hall Hcp. unfold resolve_paths.
  destruct path_strings as [|s rest]; [done|].
  unfold mbind, M_bind, bind.
  destruct (resolve_loop_ok (s :: rest) [] st Hc Hall) as (st1 & -> & Hc1 & _).
  rewrite app_nil_l.
  destruct (expand fs (s :: rest)) as [|p ps] eqn:E; [done|].
  rewrite Hcp. by exists st1.
Qed.

(** A glob that matches nothing contributes no path and logs a
    warning; nothing is fatal. *)
Lemma resolve_glob_empty st pat :
  coherent fs st -> glob_ fs pat = [] ->
  exists st', _resolve_glob fs pat st = Ok ([], st').
Proof.
  intros Hc G. destruct (resolve_glob_ok st pat Hc) as (st' & H & _).
  rewrite G in H. eauto.
Qed.

End ResolverFacts.

(** ** Claims about [PathResolver.resolve_paths] *)

(** C1, as stated, fails: [resolve_paths] performs no de-duplication.
    The literal ["a"] given twice resolves to the same path twice, and
    both occurrences stay in front of the appended common ancestor. *)
Lemma resolve_paths_duplicates :
  result_of (PathResolver.resolve_paths fs_flat ["a"; "a"]
               (PathResolver.init fs_flat))
  = Ok [posix ["cwd"; "a"]; posix ["cwd"; "a"]; posix ["cwd"; "a"]]
  /\ ~ NoDup [posix ["cwd"; "a"]; posix ["cwd"; "a"]].
Proof.
  split; [reflexivity|].
  intros Hnd. apply NoDup_cons in Hnd as [Hin _]. apply Hin. left.
Qed.

(** C1, amended: for a non-empty input list whose literal paths exist
    and whose resolutions have a common path, [resolve_paths] returns
    every resolution of every input string, in input order and with its
    repetitions, followed by the common path. *)
Theorem resolve_paths_in_input_order fs st path_strings cp :
  coherent fs st -> path_strings <> [] -> literals_exist fs path_strings ->
  PathLib.commonpath (expand fs path_strings) = Some cp ->
  result_of (PathResolver.resolve_paths fs path_strings st)
  = Ok (flat_map (expand_one fs) path_strings ++ [cp]).
Proof.
  intros Hc Hne Hall Hcp.
  destruct (resolve_paths_ok fs path_strings st cp Hc Hne Hall Hcp)
    as (st' & -> & _).
  reflexivity.
Qed.

Lemma resolve_paths_in_input_order_witness :
  result_of (PathResolver.resolve_paths fs_flat ["a"; "b"; "a"]
               (PathResolver.init fs_flat))
  = Ok (flat_map (expand_one fs_flat) ["a"; "b"; "a"] ++ [posix ["cwd"]]).
Proof.
  apply (resolve_paths_in_input_order fs_flat (PathResolver.init fs_flat)
           ["a"; "b"; "a"] (posix ["cwd"])).
  - apply coherent_init.
  - discriminate.
  - repeat constructor.
  - reflexivity.
Defined.

(** The element [resolve_paths] appends: for a non-empty input list
    whose literal paths exist and which
    resolves to at least one path (all on one anchor), the result of
    [resolve_paths] is the resolved paths followed by exactly one more
    element, their common path, which is an ancestor of or equal to every
    resolved path and is the deepest such path; for the empty input list
    the result is the single path [base_path], which [__init__] sets to
    the working directory. *)
Theorem resolve_paths_ends_with_common_ancestor fs st path_strings a :
  coherent fs st -> path_strings <> [] -> literals_exist fs path_strings ->
  expand fs path_strings <> [] ->
  Forall (fun p => anchor p = a) (expand fs path_strings) ->
  (exists cp,
      result_of (PathResolver.resolve_paths fs path_strings st)
      = Ok (expand fs path_strings ++ [cp])
      /\ PathLib.commonpath (expand fs path_strings) = Some cp
      /\ Forall (fun p => PathResolver.is_under p [cp] = true)
                (expand fs path_strings)
      /\ (forall q,
             Forall (fun p => PathLib.is_relative_to p q = true)
                    (expand fs path_strings) ->
             PathLib.is_relative_to cp q = true))
  /\ result_of (PathResolver.resolve_paths fs [] st)
     = Ok [PathResolver.base_path st]
  /\ PathResolver.base_path (PathResolver.init fs) = getcwd fs.
Proof.
  intros Hc Hne Hall Hex Hanchor. split; [|split; reflexivity].
  destruct (commonpath_same_anchor a _ Hex Hanchor) as (cp & Hcp & _).
  exists cp. split_and!.
  - destruct (resolve_paths_ok fs path_strings st cp Hc Hne Hall Hcp)
      as (st' & -> & _).
    reflexivity.
  - exact Hcp.
  - eapply Forall_impl; [apply (commonpath_ancestor _ _ Hcp)|].
    intros p Hp. unfold PathResolver.is_under. simpl.
    rewrite Hp. by rewrite orb_true_r.
  - intros q Hq. by apply (commonpath_greatest _ _ _ Hcp).
Qed.

Lemma resolve_paths_ends_with_common_ancestor_witness :
  (exists cp,
      result_of (PathResolver.resolve_paths fs_flat ["a"; "b"]
                   (PathResolver.init fs_flat))
      = Ok (expand fs_flat ["a"; "b"] ++ [cp])
      /\ PathLib.commonpath (expand fs_flat ["a"; "b"]) = Some cp
      /\ Forall (fun p => PathResolver.is_under p [cp] = true)
                (expand fs_flat ["a"; "b"])
      /\ (forall q,
             Forall (fun p => PathLib.is_relative_to p q = true)
                    (expand fs_flat ["a"; "b"]) ->
             PathLib.is_relative_to cp q = true))
  /\ result_of (PathResolver.resolve_paths fs_flat []
                  (PathResolver.init fs_flat))
     = Ok [PathResolver.base_path (PathResolver.init fs_flat)]
  /\ PathResolver.base_path (PathResolver.init fs_flat) = getcwd fs_flat.
Proof.
  apply (resolve_paths_ends_with_common_ancestor fs_flat
           (PathResolver.init fs_flat) ["a"; "b"] "/").
  - apply coherent_init.
  - discriminate.
  - repeat constructor.
  - discriminate.
  - repeat constructor.
Defined.

(** C8, on the code: for the single input [a], an existing regular file,
    [resolve_paths] returns [/cwd/a] twice: the element it appends as the
    common parent is the file itself and no directory, where the parent
    directory of the file is [/cwd]; [ItemsSelectionService.run] then
    hands that file to the traversal as its [root_dir]. *)
Theorem resolve_paths_single_file_appends_the_file :
  result_of (PathResolver.resolve_paths fs_flat ["a"]
               (PathResolver.init fs_flat))
  = Ok [posix ["cwd"; "a"]; posix ["cwd"; "a"]]
  /\ is_file fs_flat (posix ["cwd"; "a"]) = true
  /\ is_dir fs_flat (posix ["cwd"; "a"]) = false
  /\ PathLib.parent (posix ["cwd"; "a"]) = posix ["cwd"]
  /\ result_of (ItemsSelectionService.run Path traverse_root fs_flat cfg_file)
     = Ok (posix ["cwd"; "a"]).
Proof. split_and!; vm_compute; reflexivity. Qed.

(** ** The filter chain *)

Section FilterFacts.

Import FilterApplier.

Lemma should_include_item_true_inv mf fs self item_path curr_depth is_dir
    excl incl flag st st' :
  should_include_item mf fs self item_path curr_depth is_dir excl incl flag st
  = Ok (true, st') ->
  rejected_by_extension self item_path is_dir = false.
Proof.
  unfold should_include_item.
  destruct (negb is_dir && no_files (config self)); [done|].
  destruct (rejected_by_extension self item_path is_dir); [done|].
  done.
Qed.

(** [s.rfind(c)] is the last index of [c]. *)
Lemma rfind_range c s : (-1 <= Str.rfind c s < Z.of_nat (String.length s))%Z.
Proof.
  induction s as [|a s IH]; simpl; [lia|].
  destruct (0 <=? Str.rfind c s)%Z eqn:E.
  - apply Z.leb_le in E. lia.
  - case_bool_decide; lia.
Qed.

Lemma rfind_none c s : Str.rfind c s = (-1)%Z <-> Str.contains c s = false.
Proof.
  induction s as [|a s IH]; simpl; [done|].
  pose proof (rfind_range c s) as Hr.
  destruct (0 <=? Str.rfind c s)%Z eqn:E.
  - apply Z.leb_le in E. split; [lia|].
    intros [_ Hc]%orb_false_iff. apply IH in Hc. lia.
  - apply Z.leb_gt in E. assert (Str.rfind c s = (-1)%Z) as H1 by lia.
    apply IH in H1. rewrite H1, orb_false_r.
    case_bool_decide; split; try done; lia.
Qed.

Lemma rfind_last c s :
  (0 <= Str.rfind c s)%Z ->
  String.get (Z.to_nat (Str.rfind c s)) s = Some c /\
  Str.contains c (Str.drop (Z.to_nat (Str.rfind c s + 1)) s) = false.
Proof.
  induction s as [|a s IH]; simpl; [lia|].
  pose proof (rfind_range c s) as Hr.
  destruct (0 <=? Str.rfind c s)%Z eqn:E.
  - apply Z.leb_le in E. intros _. destruct (IH E) as [Hg Hd].
    replace (Z.to_nat (Str.rfind c s + 1)) with (S (Z.to_nat (Str.rfind c s)))
      by lia.
    simpl. split; [done|].
    replace (S (Z.to_nat (Str.rfind c s)))
      with (Z.to_nat (Str.rfind c s + 1)) by lia.
    replace (Z.to_nat (Str.rfind c s + 1 + 1))
      with (S (Z.to_nat (Str.rfind c s + 1))) by lia.
    done.
  - apply Z.leb_gt in E. assert (Str.rfind c s = (-1)%Z) as H1 by lia.
    case_bool_decide as Hac; [|lia]. intros _. subst a. simpl.
    split; [done|]. by apply rfind_none.
Qed.

Lemma rfind_app_last c stem ext :
  Str.contains c ext = false ->
  Str.rfind c (stem +:+ String c ext) = Z.of_nat (String.length stem).
Proof.
  intros Hc. induction stem as [|a stem IH]; simpl.
  - apply rfind_none in Hc. rewrite Hc. simpl. by rewrite bool_decide_eq_true_2.
  - rewrite IH. destruct (0 <=? Z.of_nat (String.length stem))%Z eqn:E; [lia|].
    apply Z.leb_gt in E. lia.
Qed.

Lemma rfind_split c s :
  (0 <= Str.rfind c s)%Z ->
  exists stem,
    s = stem +:+ String c (Str.drop (Z.to_nat (Str.rfind c s + 1)) s)
    /\ String.length stem = Z.to_nat (Str.rfind c s).
Proof.
  induction s as [|a s IH]; simpl; [lia|].
  pose proof (rfind_range c s) as Hr.
  destruct (0 <=? Str.rfind c s)%Z eqn:E.
  - apply Z.leb_le in E. intros _. destruct (IH E) as (stem & Hs & Hl).
    exists (String a stem). simpl.
    replace (Z.to_nat (Str.rfind c s + 1 + 1))
      with (S (Z.to_nat (Str.rfind c s + 1))) by lia.
    split; [|simpl; lia].
    change (String a stem +:+ ?x) with (String a (stem +:+ x)).
    f_equal. exact Hs.
  - apply Z.leb_gt in E. case_bool_decide as Hac; [|lia]. intros _.
    subst a. exists "". simpl. done.
Qed.

(** Filter 1.5 lets a file through exactly when its name has an allowed
    extension. *)
Lemma rejected_by_extension_file self item_path :
  extensions_active self = true ->
  rejected_by_extension self item_path false = false
  <-> has_allowed_extension self (PathLib.name item_path).
Proof.
  intros Hact. unfold rejected_by_extension, has_allowed_extension.
  rewrite Hact. simpl. set (name := PathLib.name item_path).
  unfold in_extensions.
  destruct (0 <? Str.rfind Str.DOT name)%Z eqn:E.
  - apply Z.ltb_lt in E. rewrite negb_false_iff.
    destruct (rfind_split Str.DOT name ltac:(lia)) as (stem & Hs & Hl).
    destruct (rfind_last Str.DOT name ltac:(lia)) as [_ Hnd].
    split.
    + destruct (file_extensions_set self) as [s|]; [|done].
      intros Hin%bool_decide_eq_true.
      exists stem, (Str.drop (Z.to_nat (Str.rfind Str.DOT name + 1)) name), s.
      split_and!; try done. intros ->. simpl in Hl. lia.
    + intros (stem' & ext & s & Hn & Hne & Hc & Hset & Hin).
      rewrite Hset. apply bool_decide_eq_true.
      pose proof (rfind_app_last Str.DOT stem' ext Hc) as Hr.
      rewrite <- Hn in Hr. rewrite Hr.
      replace (Z.to_nat (Z.of_nat (String.length stem') + 1))
        with (S (String.length stem')) by lia.
      assert (Str.drop (S (String.length stem')) name = ext) as ->; [|done].
      rewrite Hn. clear. induction stem' as [|a stem' IH]; [done|exact IH].
  - apply Z.ltb_ge in E. split; [done|].
    intros (stem' & ext & s & Hn & Hne & Hc & _).
    pose proof (rfind_app_last Str.DOT stem' ext Hc) as Hr.
    rewrite <- Hn in Hr. destruct stem'; [done|]. simpl in Hr. lia.
Qed.

End FilterFacts.

(** C5: with a non-empty extension allow-list, a file that
    [should_include_item] retains has a name [stem.ext] with a non-empty
    [stem] and no dot in [ext], that is, a [.] at an index above 0, and
    the lower-cased text [ext] after the last [.] is a member of the
    normalised allow-list [file_extensions_set]; the extension filter
    lets a file through exactly under that condition; directories are
    never rejected by it.  With the allow-list [{"py"}], [a.PY] is
    retained, and [a.txt], [a] and [.hidden] are rejected. *)
Theorem extension_filter_retains_only_allowed mf fs self item_path
    curr_depth excl incl flag st :
  FilterApplier.extensions_active self = true ->
  (forall st',
      FilterApplier.should_include_item mf fs self item_path curr_depth false
        excl incl flag st = Ok (true, st') ->
      has_allowed_extension self (PathLib.name item_path))
  /\ (FilterApplier.rejected_by_extension self item_path false = false
      <-> has_allowed_extension self (PathLib.name item_path))
  /\ ((0 < Str.rfind Str.DOT (PathLib.name item_path))%Z ->
      String.get (Z.to_nat (Str.rfind Str.DOT (PathLib.name item_path)))
                 (PathLib.name item_path) = Some Str.DOT
      /\ Str.contains Str.DOT
           (Str.drop (Z.to_nat (Str.rfind Str.DOT (PathLib.name item_path) + 1))
                     (PathLib.name item_path)) = false)
  /\ FilterApplier.rejected_by_extension self item_path true = false
  /\ result_of (FilterApplier.should_include_item match_nothing fs_flat
                  (FilterApplier.init cfg_py) (posix ["cwd"; "a.PY"]) 1 false
                  [] [posix ["cwd"]] false GitIgnoreMatcher.init) = Ok true
  /\ result_of (FilterApplier.should_include_item match_nothing fs_flat
                  (FilterApplier.init cfg_py) (posix ["cwd"; "a"]) 1 false
                  [] [posix ["cwd"]] false GitIgnoreMatcher.init) = Ok false
  /\ result_of (FilterApplier.should_include_item match_nothing fs_flat
                  (FilterApplier.init cfg_py) (posix ["cwd"; ".hidden"]) 1
                  false [] [posix ["cwd"]] false GitIgnoreMatcher.init)
     = Ok false
  /\ FilterApplier.rejected_by_extension (FilterApplier.init cfg_py)
       (posix ["cwd"; "a"]) false = true
  /\ FilterApplier.rejected_by_extension (FilterApplier.init cfg_py)
       (posix ["cwd"; ".hidden"]) false = true
  /\ result_of (FilterApplier.should_include_item match_nothing fs_flat
                  (FilterApplier.init cfg_py) (posix ["cwd"; "a.txt"]) 1
                  false [] [posix ["cwd"]] false GitIgnoreMatcher.init)
     = Ok false
  /\ FilterApplier.rejected_by_extension (FilterApplier.init cfg_py)
       (posix ["cwd"; "a.txt"]) false = true
  /\ FilterApplier.rejected_by_extension (FilterApplier.init cfg_py)
       (posix ["cwd"; "a.PY"]) false = false
  /\ FilterApplier.file_extensions_set (FilterApplier.init cfg_py)
     = Some {["py"]}
  /\ ~ has_allowed_extension (FilterApplier.init cfg_py) "a.txt".
Proof.
  intros Hact. split_and!.
  - intros st' Hst. apply rejected_by_extension_file; [done|].
    eapply should_include_item_true_inv; eauto.
  - by apply rejected_by_extension_file.
  - intros Hpos. apply rfind_last. lia.
  - reflexivity.
  - vm_compute; reflexivity.
  - vm_compute; reflexivity.
  - vm_compute; reflexivity.
  - vm_compute; reflexivity.
  - vm_compute; reflexivity.
  - vm_compute; reflexivity.
  - vm_compute; reflexivity.
  - vm_compute; reflexivity.
  - unfold FilterApplier.init, cfg_py; simpl.
    change (FilterApplier.normalize_ext "py") with "py".
    by rewrite (right_id_L ∅ (∪)).
  - intros Hno.
    apply (rejected_by_extension_file (FilterApplier.init cfg_py)
             (posix ["cwd"; "a.txt"])) in Hno; [|reflexivity].
    vm_compute in Hno. discriminate.
Qed.

Lemma extension_filter_retains_only_allowed_witness :
  has_allowed_extension (FilterApplier.init cfg_py)
    (PathLib.name (posix ["cwd"; "a.PY"])).
Proof.
  refine (proj1 (extension_filter_retains_only_allowed match_nothing fs_flat
                   (FilterApplier.init cfg_py) (posix ["cwd"; "a.PY"]) 1
                   [] [posix ["cwd"]] false GitIgnoreMatcher.init _) _ _).
  - vm_compute; reflexivity.
  - vm_compute; reflexivity.
Defined.

Section NormalizationFacts.

Import FilterApplier.

Lemma normalize_ext_leading_dot e :
  normalize_ext (String Str.DOT e) = normalize_ext e.
Proof. reflexivity. Qed.

Lemma normalize_ext_case e e' :
  Str.lower e = Str.lower e' -> normalize_ext e = normalize_ext e'.
Proof. unfold normalize_ext. by intros ->. Qed.

Lemma init_same_set c exts1 exts2 :
  Forall2 (fun a b => normalize_ext a = normalize_ext b) exts1 exts2 ->
  file_extensions_set (init (with_extensions c exts1))
  = file_extensions_set (init (with_extensions c exts2)).
Proof.
  intros HF. assert (map normalize_ext exts1 = map normalize_ext exts2) as Hm.
  { induction HF; simpl; congruence. }
  unfold init; simpl. destruct HF as [|x y l l' Hxy HF]; [done|].
  simpl in *. injection Hm as H1 H2. by rewrite H1, H2.
Qed.

(** The verdict reads the configuration only through the normalised
    set and the four attributes below. *)
Lemma should_include_item_ext mf fs self1 self2 :
  file_extensions_set self1 = file_extensions_set self2 ->
  no_files (config self1) = no_files (config self2) ->
  hidden_items (config self1) = hidden_items (config self2) ->
  exclude_depth (config self1) = exclude_depth (config self2) ->
  gitignore_depth (config self1) = gitignore_depth (config self2) ->
  forall item_path curr_depth is_dir excl incl flag st,
    should_include_item mf fs self1 item_path curr_depth is_dir excl incl flag st
    = should_include_item mf fs self2 item_path curr_depth is_dir excl incl
        flag st.
Proof.
  intros Hs Hn Hh He Hg item_path curr_depth is_dir excl incl flag st.
  unfold should_include_item, rejected_by_extension, rejected_as_not_given,
    extensions_active, in_extensions.
  by rewrite Hs, Hn, Hh, He, Hg.
Qed.

Lemma lstrip_dots n x :
  Str.startswith Str.DOT x = false -> Str.lstrip Str.DOT (dots n +:+ x) = x.
Proof.
  intros Hx. induction n as [|n IH]; simpl.
  - destruct x as [|a x]; [done|]. simpl in *. by rewrite Hx.
  - exact IH.
Qed.

Lemma lstrip_split s :
  exists n, s = dots n +:+ Str.lstrip Str.DOT s
            /\ Str.startswith Str.DOT (Str.lstrip Str.DOT s) = false.
Proof.
  induction s as [|a s (n & Hs & Hn)]; [by exists 0|].
  simpl. case_bool_decide as Ha.
  - subst a. exists (S n). split; [|done].
    change (dots (S n) +:+ ?x) with (String Str.DOT (dots n +:+ x)).
    f_equal. exact Hs.
  - exists 0. simpl. split; [done|]. by apply bool_decide_eq_false.
Qed.

(** The normal form of an entry is what [normalize_ext] computes. *)
Lemma normal_form_normalize_ext e x :
  normal_form e x <-> x = normalize_ext e.
Proof.
  unfold normal_form, normalize_ext. split.
  - intros (n & -> & Hx). by rewrite lstrip_dots.
  - intros ->. apply lstrip_split.
Qed.

Lemma same_extension_normalize_ext a b :
  same_extension a b <-> normalize_ext a = normalize_ext b.
Proof.
  unfold same_extension. setoid_rewrite normal_form_normalize_ext. split.
  - by intros (x & -> & ->).
  - intros H. by exists (normalize_ext a).
Qed.

Lemma init_set_elem c exts :
  exts <> [] ->
  exists s,
    file_extensions_set (init (with_extensions c exts)) = Some s
    /\ forall x, x ∈ s <-> exists e, e ∈ exts /\ normal_form e x.
Proof.
  intros Hne. destruct exts as [|e0 exts]; [done|].
  exists (list_to_set (map normalize_ext (e0 :: exts))).
  split; [reflexivity|]. intros x.
  rewrite elem_of_list_to_set, list_elem_of_fmap.
  setoid_rewrite normal_form_normalize_ext. naive_solver.
Qed.

End NormalizationFacts.

(** C10: [FilterApplier.__init__] lower-cases every configured entry
    and strips all its leading dots: the set it builds holds exactly the
    entries in lower case without their leading dots.  So two allow-lists
    whose entries agree up to case and leading dots give the same verdict
    on every item: [py], [PY] and [.py] all configure the set [{"py"}],
    which retains [a.py] and rejects [a.md], and [.MD] configures
    [{"md"}], which retains [a.md] and rejects [a.py]. *)
Theorem extension_allow_list_normalized config exts1 exts2 :
  Forall2 same_extension exts1 exts2 ->
  (forall mf fs item_path curr_depth is_dir excl incl flag st,
      FilterApplier.should_include_item mf fs
        (FilterApplier.init (with_extensions config exts1))
        item_path curr_depth is_dir excl incl flag st
      = FilterApplier.should_include_item mf fs
          (FilterApplier.init (with_extensions config exts2))
          item_path curr_depth is_dir excl incl flag st)
  /\ (forall e x, normal_form e x <-> x = FilterApplier.normalize_ext e)
  /\ (forall exts,
         exts <> [] ->
         exists s,
           FilterApplier.file_extensions_set
             (FilterApplier.init (with_extensions config exts)) = Some s
           /\ forall x, x ∈ s <-> exists e, e ∈ exts /\ normal_form e x)
  /\ (forall e, FilterApplier.normalize_ext (String Str.DOT e)
                = FilterApplier.normalize_ext e)
  /\ (forall e e', Str.lower e = Str.lower e' ->
                   FilterApplier.normalize_ext e
                   = FilterApplier.normalize_ext e')
  /\ FilterApplier.file_extensions_set
       (FilterApplier.init (with_extensions config ["py"])) = Some {["py"]}
  /\ FilterApplier.file_extensions_set
       (FilterApplier.init (with_extensions config ["PY"])) = Some {["py"]}
  /\ FilterApplier.file_extensions_set
       (FilterApplier.init (with_extensions config [".py"])) = Some {["py"]}
  /\ FilterApplier.file_extensions_set
       (FilterApplier.init (with_extensions config [".MD"])) = Some {["md"]}
  /\ Forall (fun exts =>
               result_of (FilterApplier.should_include_item match_nothing
                            fs_flat
                            (FilterApplier.init
                               (with_extensions cfg_plain exts))
                            (posix ["cwd"; "a.py"]) 1 false []
                            [posix ["cwd"]] false GitIgnoreMatcher.init)
               = Ok true
               /\ result_of (FilterApplier.should_include_item match_nothing
                               fs_flat
                               (FilterApplier.init
                                  (with_extensions cfg_plain exts))
                               (posix ["cwd"; "a.md"]) 1 false []
                               [posix ["cwd"]] false GitIgnoreMatcher.init)
                  = Ok false)
            [["py"]; ["PY"]; [".py"]]
  /\ result_of (FilterApplier.should_include_item match_nothing fs_flat
                  (FilterApplier.init (with_extensions cfg_plain [".MD"]))
                  (posix ["cwd"; "a.md"]) 1 false [] [posix ["cwd"]] false
                  GitIgnoreMatcher.init) = Ok true
  /\ result_of (FilterApplier.should_include_item match_nothing fs_flat
                  (FilterApplier.init (with_extensions cfg_plain [".MD"]))
                  (posix ["cwd"; "a.py"]) 1 false [] [posix ["cwd"]] false
                  GitIgnoreMatcher.init) = Ok false.
Proof.
  intros HF. split_and!.
  - intros mf fs. apply should_include_item_ext; try reflexivity.
    apply init_same_set. eapply Forall2_impl; [exact HF|].
    intros a b. by apply same_extension_normalize_ext.
  - apply normal_form_normalize_ext.
  - apply init_set_elem.
  - apply normalize_ext_leading_dot.
  - apply normalize_ext_case.
  - unfold FilterApplier.init; simpl.
    change (FilterApplier.normalize_ext "py") with "py".
    by rewrite (right_id_L ∅ (∪)).
  - unfold FilterApplier.init; simpl.
    change (FilterApplier.normalize_ext "PY") with "py".
    by rewrite (right_id_L ∅ (∪)).
  - unfold FilterApplier.init; simpl.
    change (FilterApplier.normalize_ext ".py") with "py".
    by rewrite (right_id_L ∅ (∪)).
  - unfold FilterApplier.init; simpl.
    change (FilterApplier.normalize_ext ".MD") with "md".
    by rewrite (right_id_L ∅ (∪)).
  - repeat constructor; vm_compute; reflexivity.
  - vm_compute; reflexivity.
  - vm_compute; reflexivity.
Qed.

Lemma extension_allow_list_normalized_witness :
  FilterApplier.should_include_item match_nothing fs_flat
    (FilterApplier.init (with_extensions cfg_plain ["PY"; "..Md"]))
    (posix ["cwd"; "a.py"]) 1 false [] [posix ["cwd"]] false
    GitIgnoreMatcher.init
  = FilterApplier.should_include_item match_nothing fs_flat
      (FilterApplier.init (with_extensions cfg_plain [".py"; "md"]))
      (posix ["cwd"; "a.py"]) 1 false [] [posix ["cwd"]] false
      GitIgnoreMatcher.init.
Proof.
  refine (proj1 (extension_allow_list_normalized cfg_plain
                   ["PY"; "..Md"] [".py"; "md"] _) match_nothing fs_flat
                (posix ["cwd"; "a.py"]) 1%Z false [] [posix ["cwd"]] false
                GitIgnoreMatcher.init).
  constructor.
  - exists "py". split; [by exists 0|by exists 1].
  - constructor; [|constructor].
    exists "md". split; [by exists 2|by exists 0].
Defined.

(** With either depth at [None], [should_include_item] never returns
    [True]: an item is rejected by filters 1 to 4 or the call raises. *)
Lemma should_include_item_unbounded_never_true mf fs self item_path
    curr_depth is_dir excl incl flag st st' :
  exclude_depth (FilterApplier.config self) = None
  \/ gitignore_depth (FilterApplier.config self) = None ->
  FilterApplier.should_include_item mf fs self item_path curr_depth is_dir
    excl incl flag st <> Ok (true, st').
Proof.
  unfold FilterApplier.should_include_item.
  intros [He|Hg].
  - rewrite He. simpl.
    repeat match goal with
           | |- context [if ?c then _ else _] => destruct c; [done|]
           end.
    done.
  - rewrite Hg.
    repeat match goal with
           | |- context [if ?c then _ else _] => destruct c; [done|]
           end.
    destruct (FilterApplier.le_depth curr_depth _) as [b| |]; [|done|done].
    simpl. destruct (b && _); done.
Qed.

(** C6, on the code: with the gitignore depth at its unbounded value
    [None] (the value [GitIgnore._within_depth] tests for), an item that
    passes filters 1 to 4 makes [should_include_item] raise [TypeError]
    at [curr_depth <= self.config.gitignore_depth] instead of returning
    a boolean. *)
Theorem should_include_item_unbounded_depth_raises :
  FilterApplier.should_include_item match_nothing fs_flat
    (FilterApplier.init (with_gitignore_depth cfg_plain None))
    (posix ["cwd"; "a.txt"]) 1 false [] [posix ["cwd"; "a.txt"]; posix ["cwd"]]
    false GitIgnoreMatcher.init
  = Raise TypeError.
Proof. vm_compute; reflexivity. Qed.

(** ** The selection coordinator *)

Section RunFacts.

Import PathResolver ItemsSelectionService.

Variable Items : Type.
Variable traverse :
  Path -> list Path -> list Path -> GitIgnoreMatcher.t ->
  M PathResolver.t Items.

(** The resolver ends the process only for a missing literal path or a
    failed common path. *)
Lemma resolve_loop_exit fs path_strings : forall acc st status msg,
  resolve_loop fs path_strings acc st = Exit status msg ->
  status = 1%Z /\ exists s, msg = MsgPathDoesNotExist s.
Proof.
  induction path_strings as [|s rest IH]; intros acc st status msg; simpl;
    [done|].
  destruct (_is_glob s); unfold mbind, M_bind, bind.
  - unfold _resolve_glob, mbind, M_bind, bind, get; simpl.
    destruct (_glob_cache st !! s); simpl; [apply IH|].
    destruct (glob_ fs s); simpl; apply IH.
  - unfold _resolve_single_path, mbind, M_bind, bind, get; simpl.
    destruct (_resolved_cache st !! s); simpl; [apply IH|].
    destruct (exists_ fs s); simpl; [apply IH|].
    intros [= <- <-]. eauto.
Qed.

Lemma resolve_paths_exit fs path_strings st status msg :
  resolve_paths fs path_strings st = Exit status msg ->
  status = 1%Z /\ msg <> MsgNoIncludedPaths.
Proof.
  unfold resolve_paths. destruct path_strings as [|s rest]; [done|].
  unfold mbind, M_bind, bind.
  destruct (resolve_loop fs (s :: rest) [] st) as [[l st1]|st1 m1|e] eqn:E.
  - destruct l as [|p l]; [done|].
    destruct (PathLib.commonpath (p :: l)); [done|].
    intros [= <- <-]. done.
  - apply resolve_loop_exit in E as [-> [s0 ->]]. intros [= <- <-]. done.
  - done.
Qed.

Lemma last_item_cases (l : list Path) (st : PathResolver.t) :
  last_item l st = Raise IndexError
  \/ exists x, last_item l st = Ok (x, st).
Proof. unfold last_item. destruct (last l); [right|left]; eauto. Qed.

(** The safety check of [run] is never the one that ends the process:
    when no include path was resolved, [resolved_include_paths[-1]] has
    raised before. *)
Lemma run_never_reports_no_included_paths fs config :
  (forall r i e m st, traverse r i e m st <> Exit 1 MsgNoIncludedPaths) ->
  run Items traverse fs config <> Exit 1 MsgNoIncludedPaths.
Proof.
  intros Htr. unfold run, run_from, mbind, M_bind, bind.
  destruct (resolve_paths fs (paths config ++ include config) (init fs))
    as [[l st1]|st1 m1|e] eqn:E1.
  - destruct l as [|p l]; [done|].
    destruct (last_item_cases (p :: l) st1) as [->|[r ->]]; [done|].
    destruct (resolve_paths fs (exclude config) st1)
      as [[l3 st3]|st3 m3|e3] eqn:E3.
    + destruct (last_item_cases (p :: l) st3) as [->|[r4 ->]]; [done|].
      apply Htr.
    + apply resolve_paths_exit in E3 as [_ ?]. congruence.
    + done.
  - apply resolve_paths_exit in E1 as [_ ?]. congruence.
  - done.
Qed.

(** A literal path argument that does not exist is fatal. *)
Lemma run_missing_literal :
  run Items traverse fs_empty cfg_missing
  = Exit 1 (MsgPathDoesNotExist "missing.txt").
Proof. reflexivity. Qed.

(** Resolved paths without a common path are fatal. *)
Lemma run_no_common_path :
  run Items traverse fs_drives cfg_drives = Exit 1 MsgCommonPathError.
Proof. reflexivity. Qed.

(** A glob that matches nothing next to a literal that exists: a
    warning, no path from the glob, and the run goes on to the
    traversal. *)
Lemma resolve_paths_glob_warning :
  exists st,
    resolve_paths fs_flat ["*.md"; "a"] (init fs_flat)
    = Ok ([posix ["cwd"; "a"]; posix ["cwd"; "a"]], st)
    /\ warnings st = [MsgNoGlobMatches "*.md"].
Proof. eexists. split; reflexivity. Qed.

End RunFacts.

(** C7, on the code: when the only include argument is a glob that matches
    nothing, the glob is non-fatal and [resolve_paths] returns the empty
    list, but [run] then evaluates [resolved_include_paths[-1]] before its
    safety check and raises [IndexError]; the error report and [exit(1)]
    of the zero-include-paths case are never reached. *)
Theorem run_zero_include_paths_raises :
  forall (Items : Type)
         (traverse : Path -> list Path -> list Path -> GitIgnoreMatcher.t ->
                     M PathResolver.t Items),
    result_of (PathResolver.resolve_paths fs_flat
                 (paths cfg_glob ++ include cfg_glob)
                 (PathResolver.init fs_flat)) = Ok []
    /\ ItemsSelectionService.run Items traverse fs_flat cfg_glob
       = Raise IndexError.
Proof. intros Items traverse. split; reflexivity. Qed.

(** ** The gitignore scopes *)

Section GitIgnoreFacts.

Variable match_file : GitIgnore.PathSpec -> string -> bool.
Variable fs : FileSystem.

Lemma same_rules_refl gi : same_rules gi gi.
Proof. by repeat split. Qed.

Lemma same_rules_trans a b c :
  same_rules a b -> same_rules b c -> same_rules a c.
Proof. unfold same_rules. intros (?&?&?&?) (?&?&?&?). split_and!; congruence. Qed.

Lemma get_relative_path_cached_spec self p root :
  rel_coherent self ->
  exists self',
    GitIgnore._get_relative_path_cached self p root
    = (PathLib.as_posix <$> PathLib.relative_to p root, self')
    /\ rel_coherent self' /\ same_rules self self'.
Proof.
  intros Hc. unfold GitIgnore._get_relative_path_cached.
  destruct (GitIgnore._rel_path_cache self !! (p, root)) as [v|] eqn:E.
  - rewrite (Hc _ _ _ E). exists self. split_and!; auto using same_rules_refl.
  - destruct (PathLib.relative_to p root) as [rel|] eqn:R; simpl;
      (eexists; split; [reflexivity|]; split; [|by repeat split]);
      intros p' r' v; simpl;
      (destruct (decide ((p, root) = (p', r'))) as [[= <- <-]|Hne];
       [rewrite lookup_insert_eq; intros [= <-]; by rewrite R
       |rewrite lookup_insert_ne by done; apply Hc]).
Qed.

Lemma excluded_loop_spec p d specs : forall self,
  rel_coherent self ->
  exists self',
    GitIgnore.excluded_loop match_file p d specs self
    = (existsb (spec_matches match_file p d) specs, self')
    /\ rel_coherent self' /\ same_rules self self'.
Proof.
  induction specs as [|[root spec] rest IH]; intros self Hc; simpl.
  - exists self. split_and!; auto using same_rules_refl.
  - destruct (get_relative_path_cached_spec self p root Hc)
      as (s1 & -> & Hc1 & Hs1).
    unfold spec_matches at 1; simpl.
    destruct (PathLib.relative_to p root) as [rel|]; simpl.
    + destruct (match_file spec (PathLib.as_posix rel)); simpl;
        [by exists s1|].
      destruct (d && match_file spec (PathLib.as_posix rel +:+ "/")); simpl;
        [by exists s1|].
      destruct (IH s1 Hc1) as (s2 & -> & Hc2 & Hs2).
      exists s2. split_and!; eauto using same_rules_trans.
    + destruct (IH s1 Hc1) as (s2 & -> & Hc2 & Hs2).
      exists s2. split_and!; eauto using same_rules_trans.
Qed.

(** The relative-path cache never changes an answer of
    [GitIgnore.excluded]. *)
Lemma gitignore_excluded_spec self item_path :
  rel_coherent self ->
  exists self',
    GitIgnore.excluded match_file fs self item_path
    = (excluded_pure match_file fs self item_path, self')
    /\ rel_coherent self' /\ same_rules self self'.
Proof.
  intros Hc. unfold GitIgnore.excluded, excluded_pure.
  destruct (GitIgnore.enabled self); simpl.
  - apply excluded_loop_spec, Hc.
  - exists self. split_and!; auto using same_rules_refl.
Qed.

Lemma excluded_pure_same_rules gi gi' item_path :
  same_rules gi gi' ->
  excluded_pure match_file fs gi' item_path
  = excluded_pure match_file fs gi item_path.
Proof. intros (He & _ & Hs & _). unfold excluded_pure. by rewrite He, Hs. Qed.

Lemma init_rel_coherent config gitignore_path :
  rel_coherent (GitIgnore.init fs config gitignore_path).
Proof. intros p r v. simpl. by rewrite lookup_empty. Qed.

Lemma same_scope_refl_all gis : Forall2 same_scope gis gis.
Proof.
  induction gis; constructor; [|done]. split; [done|apply same_rules_refl].
Qed.

Lemma same_scope_trans_all l1 l2 l3 :
  Forall2 same_scope l1 l2 -> Forall2 same_scope l2 l3 ->
  Forall2 same_scope l1 l3.
Proof.
  intros H12; revert l3; induction H12 as [|a b l l' [Ha1 Ha2] _ IH];
    intros l3 H23; inversion H23 as [|b' c ? ? [Hb1 Hb2] Hrest]; subst;
    constructor; [|by apply IH].
  split; [congruence|by eapply same_rules_trans].
Qed.

(** [scan] computes the cache-free answer and leaves every gitignore
    with the same rules and a coherent cache. *)
Lemma scan_spec item_path gis :
  Forall (fun entry => rel_coherent entry.2) gis ->
  exists gis',
    GitIgnoreMatcher.scan match_file fs item_path gis
    = (excluded_fresh match_file fs gis item_path, gis')
    /\ Forall (fun entry => rel_coherent entry.2) gis'
    /\ Forall2 same_scope gis gis'.
Proof.
  induction gis as [|[root gi] rest IH]; intros Hall; simpl.
  - exists []. by split_and!.
  - apply Forall_cons in Hall as [Hgi Hrest]. simpl in Hgi.
    destruct (GitIgnoreMatcher._is_path_in_scope item_path root); simpl.
    + destruct (gitignore_excluded_spec gi item_path Hgi)
        as (gi' & -> & Hc' & Hs').
      destruct (excluded_pure match_file fs gi item_path); simpl.
      * exists ((root, gi') :: rest). split_and!; [done|by constructor|].
        constructor; [by split|apply same_scope_refl_all].
      * destruct (IH Hrest) as (rest' & -> & Hc2 & Hs2).
        exists ((root, gi') :: rest'). split_and!; [done|by constructor|].
        constructor; [by split|done].
    + destruct (IH Hrest) as (rest' & -> & Hc2 & Hs2).
      exists ((root, gi) :: rest'). split_and!; [done|by constructor|].
      constructor; [|done]. split; [done|apply same_rules_refl].
Qed.

Lemma excluded_fresh_same_rules gis gis' item_path :
  Forall2 same_scope gis gis' ->
  excluded_fresh match_file fs gis' item_path
  = excluded_fresh match_file fs gis item_path.
Proof.
  induction 1 as [|e e' l l' [H1 H2] _ IH]; [done|].
  unfold excluded_fresh in *. simpl.
  by rewrite IH, H1, (excluded_pure_same_rules _ _ _ H2).
Qed.

(** One call of [GitIgnoreMatcher.excluded]: the cache-free answer, and
    the invariant is kept. *)
Lemma matcher_excluded_spec m item_path :
  matcher_ok match_file fs m ->
  exists m',
    GitIgnoreMatcher.excluded match_file fs m item_path
    = (excluded_fresh match_file fs (GitIgnoreMatcher.gitignores m) item_path,
       m')
    /\ matcher_ok match_file fs m'
    /\ Forall2 same_scope (GitIgnoreMatcher.gitignores m)
                          (GitIgnoreMatcher.gitignores m')
    /\ GitIgnoreMatcher._exclusion_cache m' !! item_path
       = Some (excluded_fresh match_file fs (GitIgnoreMatcher.gitignores m)
                 item_path).
Proof.
  intros [Hgis Hcache]. unfold GitIgnoreMatcher.excluded.
  destruct (GitIgnoreMatcher._exclusion_cache m !! item_path) as [b|] eqn:E.
  - pose proof (Hcache _ _ E) as ->. exists m.
    split_and!; [done|by split|apply same_scope_refl_all|done].
  - destruct (scan_spec item_path _ Hgis) as (gis' & -> & Hc' & Hs').
    assert (forall k, excluded_fresh match_file fs gis' k
                      = excluded_fresh match_file fs
                          (GitIgnoreMatcher.gitignores m) k) as Hsame
      by (intros k; by apply excluded_fresh_same_rules).
    destruct (Z.of_nat (size (GitIgnoreMatcher._exclusion_cache m))
              <? GitIgnoreMatcher._max_cache_size m)%Z.
    + eexists; split; [reflexivity|]. simpl. split_and!; [|done|].
      * split; [done|]. simpl. intros k b.
        destruct (decide (item_path = k)) as [<-|Hne].
        -- rewrite lookup_insert_eq. intros [= <-]. by rewrite Hsame.
        -- rewrite lookup_insert_ne by done. intros Hk.
           rewrite Hsame. by apply Hcache.
      * by rewrite lookup_insert_eq.
    + eexists; split; [reflexivity|]. simpl. split_and!; [|done|].
      * split; [done|]. simpl. intros k b.
        destruct (decide (item_path = k)) as [<-|Hne].
        -- rewrite lookup_insert_eq. intros [= <-]. by rewrite Hsame.
        -- rewrite lookup_insert_ne by done. by rewrite lookup_empty.
      * by rewrite lookup_insert_eq.
Qed.

Lemma add_gitignore_ok m gi root_path :
  matcher_ok match_file fs m -> rel_coherent gi ->
  matcher_ok match_file fs (GitIgnoreMatcher.add_gitignore m gi root_path).
Proof.
  intros [Hgis _] Hgi. split; simpl.
  - apply Forall_app. split; [done|]. by constructor.
  - intros k b. by rewrite lookup_empty.
Qed.

Lemma matcher_ok_empty n : matcher_ok match_file fs (GitIgnoreMatcher.mk [] ∅ n).
Proof. split; simpl; [constructor|]. intros k b. by rewrite lookup_empty. Qed.

(** The invariant holds after every sequence of calls, and the scopes of
    the matcher are the ones it had followed by the added ones. *)
Lemma after_calls_spec calls : forall m,
  added_coherent calls -> matcher_ok match_file fs m ->
  matcher_ok match_file fs (after_calls match_file fs calls m)
  /\ Forall2 same_scope
       (GitIgnoreMatcher.gitignores m ++ added calls)
       (GitIgnoreMatcher.gitignores (after_calls match_file fs calls m)).
Proof.
  induction calls as [|[gi root_path|item_path] rest IH]; intros m Hadd Hm;
    simpl.
  - rewrite app_nil_r. split; [done|apply same_scope_refl_all].
  - apply Forall_cons in Hadd as [Hgi Hadd].
    destruct (IH _ Hadd (add_gitignore_ok m gi root_path Hm Hgi)) as [H1 H2].
    split; [done|]. simpl in H2. by rewrite <- app_assoc in H2.
  - apply Forall_cons in Hadd as [_ Hadd].
    destruct (matcher_excluded_spec m item_path Hm) as (m' & -> & Hm' & Hs & _).
    simpl. destruct (IH _ Hadd Hm') as [H1 H2]. split; [done|].
    eapply same_scope_trans_all; [|exact H2].
    apply Forall2_app; [done|apply same_scope_refl_all].
Qed.

(** The answer of [excluded] after a sequence of calls on a new matcher
    is the cache-free answer over the added scopes. *)
Lemma excluded_after_calls calls limit item_path :
  added_coherent calls ->
  (GitIgnoreMatcher.excluded match_file fs
     (after_calls match_file fs calls (GitIgnoreMatcher.mk [] ∅ limit))
     item_path).1
  = excluded_fresh match_file fs (added calls) item_path.
Proof.
  intros Hadd.
  destruct (after_calls_spec calls _ Hadd (matcher_ok_empty limit)) as [Hm Hs].
  simpl in Hs.
  destruct (matcher_excluded_spec _ item_path Hm) as (m' & -> & _).
  simpl. by apply excluded_fresh_same_rules.
Qed.

Lemma added_rel_coherent calls :
  added_coherent calls ->
  Forall (fun entry => rel_coherent entry.2) (added calls).
Proof.
  induction calls as [|[gi root_path|item_path] rest IH]; intros Hadd; simpl.
  - constructor.
  - apply Forall_cons in Hadd as [Hgi Hadd]. constructor; auto.
  - apply Forall_cons in Hadd as [_ Hadd]. auto.
Qed.

(** [GitIgnore.excluded] reports a path exactly when the object is
    enabled and one of its scopes has the resolved path under its root
    and matches it. *)
Lemma gitignore_excluded_iff gi item_path :
  rel_coherent gi ->
  (GitIgnore.excluded match_file fs gi item_path).1 = true
  <-> GitIgnore.enabled gi = true
      /\ exists scope,
          scope ∈ GitIgnore._specs gi
          /\ PathLib.is_relative_to (resolve fs item_path) scope.1 = true
          /\ spec_matches match_file (resolve fs item_path)
               (is_dir fs (resolve fs item_path)) scope = true.
Proof.
  intros Hc. destruct (gitignore_excluded_spec gi item_path Hc) as (gi' & -> & _).
  simpl. unfold excluded_pure. rewrite andb_true_iff, existsb_exists.
  split; intros [He (scope & Hin & Hm)]; (split; [done|]); exists scope.
  - apply list_elem_of_In in Hin. split_and!; [done| |done].
    unfold spec_matches in Hm. unfold PathLib.is_relative_to.
    by destruct (PathLib.relative_to (resolve fs item_path) scope.1).
  - apply list_elem_of_In in Hin. by destruct Hm.
Qed.

End GitIgnoreFacts.

(** C3: the exclusion cache of [GitIgnoreMatcher] is transparent.  After
    any sequence of [add_gitignore] and [excluded] calls on a new matcher,
    with any cache size limit, [excluded] answers what the cache-free scan
    over the current list of gitignores answers, which depends on the
    added scopes only; asking again gives the same answer; and after one
    more [add_gitignore] the answer is that of a fresh evaluation over
    the extended list. *)
Theorem matcher_cache_transparent match_file fs calls limit item_path :
  added_coherent calls ->
  let m := after_calls match_file fs calls (GitIgnoreMatcher.mk [] ∅ limit) in
  (GitIgnoreMatcher.excluded match_file fs m item_path).1
  = (GitIgnoreMatcher.scan match_file fs item_path
       (GitIgnoreMatcher.gitignores m)).1
  /\ (GitIgnoreMatcher.excluded match_file fs m item_path).1
     = excluded_fresh match_file fs (added calls) item_path
  /\ (GitIgnoreMatcher.excluded match_file fs
        (GitIgnoreMatcher.excluded match_file fs m item_path).2 item_path).1
     = (GitIgnoreMatcher.excluded match_file fs m item_path).1
  /\ (forall gi root_path,
         rel_coherent gi ->
         (GitIgnoreMatcher.excluded match_file fs
            (GitIgnoreMatcher.add_gitignore m gi root_path) item_path).1
         = excluded_fresh match_file fs (added calls ++ [(root_path, gi)])
             item_path).
Proof.
  intros Hadd m.
  destruct (after_calls_spec match_file fs calls _ Hadd
              (matcher_ok_empty match_file fs limit)) as [Hm Hs].
  fold m in Hm, Hs. simpl in Hs.
  destruct (matcher_excluded_spec match_file fs m item_path Hm)
    as (m' & E & Hm' & Hs' & _).
  destruct Hm as [Hgis Hcache].
  destruct (scan_spec match_file fs item_path _ Hgis) as (gis' & Escan & _).
  split_and!.
  - by rewrite E, Escan.
  - rewrite E. simpl. by apply excluded_fresh_same_rules.
  - rewrite E. simpl.
    destruct (matcher_excluded_spec match_file fs m' item_path Hm')
      as (m'' & -> & _). simpl.
    by apply excluded_fresh_same_rules.
  - intros gi root_path Hgi.
    destruct (matcher_excluded_spec match_file fs
                (GitIgnoreMatcher.add_gitignore m gi root_path) item_path)
      as (m2 & -> & _); [by apply add_gitignore_ok|].
    simpl. apply excluded_fresh_same_rules.
    apply Forall2_app; [done|apply same_scope_refl_all].
Qed.

Lemma matcher_cache_transparent_witness :
  (GitIgnoreMatcher.excluded match_exact fs_scope
     (after_calls match_exact fs_scope calls_demo (GitIgnoreMatcher.mk [] ∅ 1))
     (posix ["root"; "sub"; "foo"])).1
  = excluded_fresh match_exact fs_scope (added calls_demo)
      (posix ["root"; "sub"; "foo"]).
Proof.
  refine (proj1 (proj2 (matcher_cache_transparent match_exact fs_scope
                          calls_demo 1 (posix ["root"; "sub"; "foo"]) _))).
  repeat constructor. apply init_rel_coherent.
Defined.

(** C2, as stated, fails for [GitIgnore.excluded], which resolves the
    path before it looks at the scope: [/a/link] is not a descendant of
    the scope root [/root/sub], yet it resolves to [/root/sub/foo] and is
    reported excluded by the scope of [/root/sub/.gitignore]. *)
Lemma gitignore_excluded_through_symlink :
  GitIgnore._specs gi_sub = [(posix ["root"; "sub"], ["foo"])]
  /\ GitIgnore.root_path gi_sub = Some (posix ["root"; "sub"])
  /\ PathLib.is_relative_to (posix ["a"; "link"]) (posix ["root"; "sub"])
     = false
  /\ (GitIgnore.excluded match_exact fs_scope gi_sub (posix ["a"; "link"])).1
     = true.
Proof. split_and!; vm_compute; reflexivity. Qed.

(** C2, amended: a scope affects a path only through the resolved form of
    the path.  [GitIgnore.excluded] reports a path exactly when the object
    is enabled and some scope of it has the resolved path under its root
    and matches it; [GitIgnoreMatcher.excluded] reports a path exactly
    when some registered scope whose root is an ancestor of, or equal to,
    the path as given has its [GitIgnore] report it.  With a pattern
    matcher in which [foo] matches [foo], the scope of
    [/root/sub/.gitignore] excludes [/root/sub/foo] and not [/root/foo]. *)
Theorem scope_affects_resolved_descendants match_file fs gi item_path
    calls limit :
  rel_coherent gi -> added_coherent calls ->
  match_file ["foo"] "foo" = true ->
  ((GitIgnore.excluded match_file fs gi item_path).1 = true
   <-> GitIgnore.enabled gi = true
       /\ exists scope,
           scope ∈ GitIgnore._specs gi
           /\ PathLib.is_relative_to (resolve fs item_path) scope.1 = true
           /\ spec_matches match_file (resolve fs item_path)
                (is_dir fs (resolve fs item_path)) scope = true)
  /\ ((GitIgnoreMatcher.excluded match_file fs
         (after_calls match_file fs calls (GitIgnoreMatcher.mk [] ∅ limit))
         item_path).1 = true
      <-> exists entry,
          entry ∈ added calls
          /\ PathLib.is_relative_to item_path entry.1 = true
          /\ (GitIgnore.excluded match_file fs entry.2 item_path).1 = true)
  /\ (GitIgnore.excluded match_file fs_scope gi_sub
        (posix ["root"; "sub"; "foo"])).1 = true
  /\ (GitIgnore.excluded match_file fs_scope gi_sub
        (posix ["root"; "foo"])).1 = false
  /\ (GitIgnoreMatcher.excluded match_file fs_scope
        (GitIgnoreMatcher.add_gitignore GitIgnoreMatcher.init gi_sub
           (posix ["root"; "sub"]))
        (posix ["root"; "sub"; "foo"])).1 = true
  /\ (GitIgnoreMatcher.excluded match_file fs_scope
        (GitIgnoreMatcher.add_gitignore GitIgnoreMatcher.init gi_sub
           (posix ["root"; "sub"]))
        (posix ["root"; "foo"])).1 = false.
Proof.
  intros Hgi Hadd Hfoo. split_and!.
  - by apply gitignore_excluded_iff.
  - rewrite excluded_after_calls by done.
    unfold excluded_fresh. rewrite existsb_exists.
    pose proof (added_rel_coherent calls Hadd) as Hall.
    rewrite Forall_forall in Hall.
    split; intros (entry & Hin & Hm); exists entry.
    + apply list_elem_of_In in Hin.
      apply andb_true_iff in Hm as [Hscope Hex].
      destruct (gitignore_excluded_spec match_file fs entry.2 item_path
                  (Hall _ Hin)) as (gi' & -> & _).
      by split_and!.
    + destruct Hm as [Hscope Hex].
      destruct (gitignore_excluded_spec match_file fs entry.2 item_path
                  (Hall _ Hin)) as (gi' & E & _).
      rewrite E in Hex. simpl in Hex.
      split; [by apply list_elem_of_In|].
      apply andb_true_iff. by split.
  - vm_compute. by rewrite Hfoo.
  - vm_compute. reflexivity.
  - vm_compute. by rewrite Hfoo.
  - vm_compute. reflexivity.
Qed.

Lemma scope_affects_resolved_descendants_witness :
  (GitIgnore.excluded match_exact fs_scope gi_sub
     (posix ["root"; "sub"; "foo"])).1 = true
  /\ (GitIgnoreMatcher.excluded match_exact fs_scope
        (GitIgnoreMatcher.add_gitignore GitIgnoreMatcher.init gi_sub
           (posix ["root"; "sub"]))
        (posix ["root"; "foo"])).1 = false.
Proof.
  pose proof (scope_affects_resolved_descendants match_exact fs_scope gi_sub
                (posix ["root"; "foo"]) calls_demo 1) as H.
  destruct H as (_ & _ & H1 & _ & _ & H2).
  - apply init_rel_coherent.
  - repeat constructor. apply init_rel_coherent.
  - vm_compute. reflexivity.
  - split; [exact H1|exact H2].
Defined.

(** ** The walk for nested [.gitignore] files *)

Section WalkFacts.

Variable fs : FileSystem.
Variable gi : GitIgnore.t.
Variable root : Path.

Lemma subdirs_elem d c :
  c ∈ GitIgnore.subdirs fs d ->
  is_dir fs c = true /\ is_symlink fs c = false
  /\ exists name, name ∈ iterdir fs d /\ c = PathLib.joinpath d name.
Proof.
  unfold GitIgnore.subdirs. intros Hc.
  apply list_elem_of_filter in Hc as [Hf Hm].
  apply list_elem_of_fmap in Hm as (name & -> & Hn).
  apply andb_prop_elim in Hf as [Hd Hs].
  apply Is_true_true in Hd. apply negb_prop_elim in Hs.
  split_and!; [done| |eauto].
  by destruct (is_symlink fs (PathLib.joinpath d name)).
Qed.

Lemma pushed_from_mono V V' d :
  V ⊆ V' -> pushed_from fs gi root V d -> pushed_from fs gi root V' d.
Proof. intros HV (parent & Hp & H). exists parent. split; [set_solver|done]. Qed.

(** The yielded directories are distinct, were not visited before, and
    each is the root or was pushed from a visited or yielded directory
    within depth. *)
Lemma walk_loop_inv fuel : forall stack visited,
  Forall (fun d => d = root \/ pushed_from fs gi root visited d) stack ->
  let ys := (GitIgnore.walk_loop fs gi root fuel stack visited).1 in
  NoDup ys
  /\ Forall (fun d => d ∉ visited) ys
  /\ Forall (fun d => d = root
                      \/ pushed_from fs gi root (visited ∪ list_to_set ys) d)
            ys.
Proof.
  induction fuel as [|fuel IH]; intros stack visited Hst; simpl.
  - split_and!; constructor.
  - destruct stack as [|d stack]; simpl; [split_and!; constructor|].
    apply Forall_cons in Hst as [Hd Hst].
    case_bool_decide as Hvis; [by apply IH|].
    set (stack'' := if GitIgnore._within_depth gi root d
                    then reverse (GitIgnore.subdirs fs d) ++ stack else stack).
    assert (Forall (fun c => c = root
                             \/ pushed_from fs gi root ({[d]} ∪ visited) c)
                   stack'') as Hst''.
    { assert (Forall (fun c => c = root
                               \/ pushed_from fs gi root ({[d]} ∪ visited) c)
                     stack) as Hold.
      { eapply Forall_impl; [exact Hst|]. intros c [->|Hc]; [by left|right].
        eapply pushed_from_mono; [|exact Hc]. set_solver. }
      unfold stack''. destruct (GitIgnore._within_depth gi root d) eqn:Hw;
        [|done].
      apply Forall_app. split; [|done].
      apply Forall_forall. intros c Hc. right. exists d.
      split_and!; [set_solver| |done].
      by rewrite elem_of_reverse in Hc. }
    specialize (IH stack'' ({[d]} ∪ visited) Hst'').
    destruct (GitIgnore.walk_loop fs gi root fuel stack'' ({[d]} ∪ visited))
      as [ys finished]. simpl in *.
    destruct IH as (Hnd & Hnv & Hpush). rewrite Forall_forall in Hnv.
    split_and!.
    + constructor; [|done]. intros Hin. apply (Hnv _ Hin). set_solver.
    + constructor; [done|]. apply Forall_forall. intros y Hy.
      specialize (Hnv _ Hy). set_solver.
    + constructor.
      * destruct Hd as [->|Hd]; [by left|right].
        eapply pushed_from_mono; [|exact Hd]. set_solver.
      * eapply Forall_impl; [exact Hpush|]. intros c [->|Hc]; [by left|right].
        eapply pushed_from_mono; [|exact Hc]. set_solver.
Qed.

(** A property that holds of the stack and passes to the pushed
    sub-directories holds of every yielded directory. *)
Lemma walk_loop_closed (P : Path -> Prop) :
  (forall d c, P d -> c ∈ GitIgnore.subdirs fs d -> P c) ->
  forall fuel stack visited,
    Forall P stack ->
    Forall P (GitIgnore.walk_loop fs gi root fuel stack visited).1.
Proof.
  intros Hclosed. induction fuel as [|fuel IH]; intros stack visited Hst; simpl;
    [constructor|].
  destruct stack as [|d stack]; simpl; [constructor|].
  apply Forall_cons in Hst as [Hd Hst].
  case_bool_decide as Hvis; [by apply IH|].
  set (stack'' := if GitIgnore._within_depth gi root d
                  then reverse (GitIgnore.subdirs fs d) ++ stack else stack).
  assert (Forall P stack'') as Hst''.
  { unfold stack''. destruct (GitIgnore._within_depth gi root d); [|done].
    apply Forall_app. split; [|done]. apply Forall_forall. intros c Hc.
    rewrite elem_of_reverse in Hc. eauto. }
  specialize (IH stack'' ({[d]} ∪ visited) Hst'').
  destruct (GitIgnore.walk_loop fs gi root fuel stack'' ({[d]} ∪ visited))
    as [ys finished]. simpl in *. by constructor.
Qed.

Lemma below_root : below root root.
Proof.
  exists []. split; [|constructor]. apply relative_to_Some.
  by rewrite app_nil_r.
Qed.

Lemma relative_to_joinpath d name rel :
  PathLib.relative_to d root = Some rel ->
  PathLib.relative_to (PathLib.joinpath d name) root
  = Some (if bool_decide (name = "" \/ name = ".") then rel else rel ++ [name]).
Proof.
  intros Hrel. unfold PathLib.joinpath. case_bool_decide; [done|].
  apply relative_to_Some in Hrel as [Ha Hp]. apply relative_to_Some. simpl.
  split; [done|]. by rewrite Hp, app_assoc.
Qed.

Lemma below_subdirs d c :
  below root d -> c ∈ GitIgnore.subdirs fs d -> below root c.
Proof.
  intros (rel & Hrel & Hall) Hc.
  apply subdirs_elem in Hc as (_ & _ & name & _ & ->).
  eexists. split; [by apply relative_to_joinpath|].
  case_bool_decide as Hn; [done|].
  apply Forall_app. split; [done|]. constructor; [|constructor].
  split; intros ->; apply Hn; auto.
Qed.

(** Every yielded directory lies below the root. *)
Lemma walk_dirs_below fuel :
  Forall (below root) (GitIgnore._walk_dirs fs gi root fuel).1.
Proof.
  apply walk_loop_closed; [apply below_subdirs|].
  constructor; [apply below_root|constructor].
Qed.

End WalkFacts.

Section CollectFacts.

Variable fs : FileSystem.
Variable root : Path.

Lemma join_not_dot rel :
  rel <> [] -> Forall proper_name rel -> Str.join "/" rel <> ".".
Proof.
  destruct rel as [|x r]; [done|]. intros _ Hall.
  apply Forall_cons in Hall as [[Hx1 Hx2] _].
  destruct r as [|y r]; simpl; [done|].
  destruct x as [|a x]; [done|]. simpl.
  intros [= _ Hx]. by destruct x.
Qed.

(** The prefix computed by [_collect_patterns] is the directory prefix. *)
Lemma collect_prefix rel :
  Forall proper_name rel ->
  (if bool_decide (PathLib.as_posix rel = ".") then ""
   else PathLib.as_posix rel +:+ "/") = dir_prefix rel.
Proof.
  intros Hall. destruct rel as [|x r]; [done|].
  unfold PathLib.as_posix, dir_prefix.
  rewrite bool_decide_eq_false_2; [done|]. by apply join_not_dot.
Qed.

Lemma prefix_pattern_rewritten rel pat :
  GitIgnore.prefix_pattern (dir_prefix rel) pat = rewritten rel pat.
Proof.
  unfold GitIgnore.prefix_pattern, rewritten.
  by destruct (Str.startswith Str.BANG pat).
Qed.

Lemma collect_loop_spec dirs : forall patterns,
  Forall (below root) dirs ->
  GitIgnore.collect_loop fs root dirs patterns
  = Ok (patterns ++ flat_map (contribution fs root) dirs).
Proof.
  induction dirs as [|d rest IH]; intros patterns Hall; simpl.
  - by rewrite app_nil_r.
  - apply Forall_cons in Hall as [(rel & Hrel & Hproper) Hall].
    unfold contribution at 1.
    destruct (is_file fs (PathLib.joinpath d ".gitignore")); simpl.
    + rewrite Hrel, (collect_prefix rel Hproper), IH by done.
      by rewrite app_assoc.
    + by apply IH.
Qed.

Lemma contribution_elem d pat :
  below root d ->
  pat ∈ contribution fs root d
  <-> exists rel raw,
      is_file fs (PathLib.joinpath d ".gitignore") = true
      /\ PathLib.relative_to d root = Some rel
      /\ raw ∈ GitIgnore._parse_gitignore_file fs
                 (PathLib.joinpath d ".gitignore")
      /\ pat = rewritten rel raw.
Proof.
  intros (rel & Hrel & _). unfold contribution. rewrite Hrel.
  destruct (is_file fs (PathLib.joinpath d ".gitignore")).
  - rewrite list_elem_of_fmap. split.
    + intros (raw & -> & Hraw). exists rel, raw.
      by rewrite prefix_pattern_rewritten.
    + intros (rel' & raw & _ & [= <-] & Hraw & ->). exists raw.
      by rewrite prefix_pattern_rewritten.
  - split; [by intros ?%elem_of_nil|]. by intros (? & ? & ? & _).
Qed.

Lemma relative_to_nil d : PathLib.relative_to d root = Some [] <-> d = root.
Proof.
  rewrite relative_to_Some, app_nil_r. destruct d, root; simpl.
  split; [by intros [-> ->]|by intros [= -> ->]].
Qed.

End CollectFacts.

(** The rewriting of [_collect_patterns]: it returns, for every walked
    directory [d] with
    a [.gitignore] file and every pattern parsed from that file, the
    pattern rewritten with the relative directory of [d] in front of its
    body: the [!] of a negated pattern stays in front of the prefixed
    body, the prefix is empty exactly for the root's own file and is the
    relative directory followed by [/] for a nested one, and nothing else
    is returned. *)
Theorem collect_patterns_prefixes_nested fs gi root fuel :
  exists patterns,
    GitIgnore._collect_patterns fs gi root fuel = Ok patterns
    /\ (forall pat,
           pat ∈ patterns
           <-> exists d rel raw,
               d ∈ (GitIgnore._walk_dirs fs gi root fuel).1
               /\ is_file fs (PathLib.joinpath d ".gitignore") = true
               /\ PathLib.relative_to d root = Some rel
               /\ raw ∈ GitIgnore._parse_gitignore_file fs
                          (PathLib.joinpath d ".gitignore")
               /\ pat = rewritten rel raw)
    /\ (forall d rel,
           PathLib.relative_to d root = Some rel ->
           (d = root -> dir_prefix rel = "")
           /\ (d <> root -> dir_prefix rel = Str.join "/" rel +:+ "/"))
    /\ (forall rel raw,
           Str.startswith Str.BANG raw = true ->
           rewritten rel raw
           = "!" +:+ dir_prefix rel +:+ Str.lstrip Str.SLASH (Str.tail raw))
    /\ (forall rel raw,
           Str.startswith Str.BANG raw = false ->
           rewritten rel raw = dir_prefix rel +:+ Str.lstrip Str.SLASH raw).
Proof.
  pose proof (walk_dirs_below fs gi root fuel) as Hbelow.
  eexists. split; [|split_and!].
  - unfold GitIgnore._collect_patterns. by apply collect_loop_spec.
  - intros pat. simpl. rewrite list_elem_of_In, in_flat_map.
    rewrite Forall_forall in Hbelow. split.
    + intros (d & Hd & Hpat). apply list_elem_of_In in Hd, Hpat.
      apply (contribution_elem fs root d pat (Hbelow _ Hd)) in Hpat
        as (rel & raw & ?). exists d, rel, raw. by split.
    + intros (d & rel & raw & Hd & H). exists d.
      split; [by apply list_elem_of_In|]. apply list_elem_of_In.
      apply (contribution_elem fs root d pat (Hbelow _ Hd)). eauto.
  - intros d rel Hrel. split.
    + intros ->.
      assert (PathLib.relative_to root root = Some []) as Hnil
        by (by apply relative_to_nil).
      rewrite Hnil in Hrel. by injection Hrel as <-.
    + intros Hne. destruct rel as [|x r]; [|done].
      by apply relative_to_nil in Hrel.
  - intros rel raw Hneg. unfold rewritten. by rewrite Hneg.
  - intros rel raw Hneg. unfold rewritten. by rewrite Hneg.
Qed.

Lemma collect_patterns_prefixes_nested_witness :
  exists patterns,
    GitIgnore._collect_patterns fs_scope gi_sub (posix ["root"]) 10
    = Ok patterns
    /\ "sub/foo" ∈ patterns.
Proof.
  destruct (collect_patterns_prefixes_nested fs_scope gi_sub (posix ["root"]) 10)
    as (patterns & Hrun & Hiff & _).
  exists patterns. split; [exact Hrun|].
  apply Hiff. exists (posix ["root"; "sub"]), ["sub"], "foo".
  split_and!; try (vm_compute; reflexivity);
    apply list_elem_of_In; vm_compute; auto.
Defined.

(** C4, on the code: the directory prefix is put in front of a pattern
    as it is, without escaping, so the pattern [foo] of the [.gitignore]
    in a directory named [!x] is collected as [!x/foo], which is the
    negation of [x/foo], the very pattern that [!foo] in [x/.gitignore]
    gives; likewise [foo] in a directory named [a*] becomes the glob
    [a*/foo].  On the tree with the root pattern [x/foo], the file
    [/root/x/foo], which is not under [/root/!x], is excluded without the
    nested [.gitignore] and no longer excluded with it. *)
Theorem collect_patterns_prefix_unescaped :
  GitIgnore._collect_patterns (fs_bang true) (gi_bang true) (posix ["root"]) 10
  = Ok ["x/foo"; "!x/foo"]
  /\ GitIgnore._load_from_roots (fs_bang true) (gi_bang true)
       [posix ["root"]] 10
     = Ok (GitIgnore.mk true (Some 5%Z)
             [(posix ["root"], ["x/foo"; "!x/foo"])] ∅
             (Some (posix ["root"])))
  /\ (GitIgnore.excluded match_last_literal (fs_bang true)
        (GitIgnore.mk true (Some 5%Z)
           [(posix ["root"], ["x/foo"; "!x/foo"])] ∅ (Some (posix ["root"])))
        (posix ["root"; "x"; "foo"])).1 = false
  /\ PathLib.is_relative_to (posix ["root"; "x"; "foo"])
       (posix ["root"; "!x"]) = false
  /\ GitIgnore._load_from_roots (fs_bang false) (gi_bang false)
       [posix ["root"]] 10
     = Ok (GitIgnore.mk true (Some 5%Z) [(posix ["root"], ["x/foo"])] ∅
             (Some (posix ["root"])))
  /\ (GitIgnore.excluded match_last_literal (fs_bang false)
        (GitIgnore.mk true (Some 5%Z) [(posix ["root"], ["x/foo"])] ∅
           (Some (posix ["root"])))
        (posix ["root"; "x"; "foo"])).1 = true
  /\ rewritten ["!x"] "foo" = rewritten ["x"] "!foo"
  /\ rewritten ["a*"] "foo" = "a*/foo".
Proof. split_and!; vm_compute; reflexivity. Qed.

(** C9, as stated, fails: with scan depth 0 the directory [/root/sub] is
    beyond the depth, yet it is yielded by [_walk_dirs] and
    [_collect_patterns] takes the pattern of its [.gitignore]. *)
Lemma walk_collects_beyond_depth :
  GitIgnore.gitignore_depth gi_depth0 = Some 0%Z
  /\ GitIgnore._within_depth gi_depth0 (posix ["root"]) (posix ["root"; "sub"])
     = false
  /\ GitIgnore._walk_dirs fs_scope gi_depth0 (posix ["root"]) 10
     = ([posix ["root"]; posix ["root"; "sub"]], true)
  /\ GitIgnore._collect_patterns fs_scope gi_depth0 (posix ["root"]) 10
     = Ok ["sub/foo"].
Proof. split_and!; vm_compute; reflexivity. Qed.

(** C9, amended: the walk never yields a directory twice and never
    descends into a symlinked directory, and it expands only directories
    within the configured depth: every yielded directory other than the
    root is a non-symlink directory listed in a yielded directory that is
    within depth, so with depth [n] it lies at most [n + 1] levels below
    the root.  Every yielded directory, those one level beyond the depth
    included, is searched for a [.gitignore], which contributes its
    patterns. *)
Theorem walk_dirs_depth_bounded fs gi root fuel :
  NoDup (GitIgnore._walk_dirs fs gi root fuel).1
  /\ (forall d,
         d ∈ (GitIgnore._walk_dirs fs gi root fuel).1 ->
         d = root
         \/ (is_dir fs d = true /\ is_symlink fs d = false
             /\ exists parent,
                 parent ∈ (GitIgnore._walk_dirs fs gi root fuel).1
                 /\ d ∈ GitIgnore.subdirs fs parent
                 /\ GitIgnore._within_depth gi root parent = true))
  /\ (forall n d,
         GitIgnore.gitignore_depth gi = Some n ->
         d ∈ (GitIgnore._walk_dirs fs gi root fuel).1 ->
         d = root
         \/ exists rel,
             PathLib.relative_to d root = Some rel
             /\ (Z.of_nat (length rel) <= n + 1)%Z)
  /\ GitIgnore._collect_patterns fs gi root fuel
     = Ok (flat_map (contribution fs root)
                    (GitIgnore._walk_dirs fs gi root fuel).1).
Proof.
  assert (Forall (fun d => d = root \/ pushed_from fs gi root ∅ d) [root])
    as Hst by (constructor; [by left|constructor]).
  destruct (walk_loop_inv fs gi root fuel [root] ∅ Hst) as (Hnd & _ & Hpush).
  fold (GitIgnore._walk_dirs fs gi root fuel) in Hnd, Hpush.
  rewrite Forall_forall in Hpush.
  assert (forall d,
             d ∈ (GitIgnore._walk_dirs fs gi root fuel).1 ->
             d = root
             \/ (is_dir fs d = true /\ is_symlink fs d = false
                 /\ exists parent,
                     parent ∈ (GitIgnore._walk_dirs fs gi root fuel).1
                     /\ d ∈ GitIgnore.subdirs fs parent
                     /\ GitIgnore._within_depth gi root parent = true))
    as Hshape.
  { intros d Hd. destruct (Hpush _ Hd) as [->|(parent & Hp & Hsub & Hw)];
      [by left|right].
    destruct (subdirs_elem fs _ _ Hsub) as (Hdir & Hsym & _).
    split_and!; [done|done|]. exists parent. split_and!; [|done|done].
    set_solver. }
  split_and!; [done|done| |].
  - intros n d Hn Hd. destruct (Hshape _ Hd)
      as [->|(_ & _ & parent & _ & Hsub & Hw)]; [by left|right].
    unfold GitIgnore._within_depth in Hw. rewrite Hn in Hw.
    destruct (PathLib.relative_to parent root) as [rel|] eqn:Hrel; [|done].
    apply Z.leb_le in Hw.
    apply subdirs_elem in Hsub as (_ & _ & name & _ & ->).
    eexists. split; [by apply relative_to_joinpath|].
    case_bool_decide; [lia|]. rewrite length_app. simpl. lia.
  - unfold GitIgnore._collect_patterns.
    by rewrite collect_loop_spec by apply walk_dirs_below.
Qed.

Lemma walk_dirs_depth_bounded_witness :
  posix ["root"; "sub"] = posix ["root"]
  \/ exists rel,
      PathLib.relative_to (posix ["root"; "sub"]) (posix ["root"]) = Some rel
      /\ (Z.of_nat (length rel) <= 0 + 1)%Z.
Proof.
  destruct (walk_dirs_depth_bounded fs_scope gi_depth0 (posix ["root"]) 10)
    as (_ & _ & Hdepth & _).
  apply (Hdepth 0%Z (posix ["root"; "sub"])).
  - vm_compute; reflexivity.
  - apply list_elem_of_In. vm_compute. auto.
Defined.

(** * Further properties of the code *)

(** ** More on the path resolver *)

Section ResolverMore.

Import PathResolver.

Variable fs : FileSystem.

Lemma resolve_loop_independent path_strings : forall acc st1 st2,
  coherent fs st1 -> coherent fs st2 ->
  result_of (resolve_loop fs path_strings acc st1)
  = result_of (resolve_loop fs path_strings acc st2).
Proof.
  induction path_strings as [|s rest IH]; intros acc st1 st2 H1 H2; simpl;
    [done|].
  destruct (_is_glob s); unfold mbind, M_bind, bind.
  - destruct (resolve_glob_ok fs st1 s H1) as (st1' & -> & H1' & _).
    destruct (resolve_glob_ok fs st2 s H2) as (st2' & -> & H2' & _).
    by apply IH.
  - destruct (exists_ fs s) eqn:E.
    + destruct (resolve_single_ok fs st1 s H1 E) as (st1' & -> & H1' & _).
      destruct (resolve_single_ok fs st2 s H2 E) as (st2' & -> & H2' & _).
      by apply IH.
    + by rewrite !resolve_single_missing.
Qed.

Lemma resolve_loop_first_missing pre s post : forall acc st,
  coherent fs st -> literals_exist fs pre ->
  _is_glob s = false -> exists_ fs s = false ->
  resolve_loop fs (pre ++ s :: post) acc st
  = error_and_exit (MsgPathDoesNotExist s) st.
Proof.
  induction pre as [|p pre IH]; intros acc st Hc Hpre Hg He; simpl.
  - rewrite Hg. unfold mbind, M_bind, bind.
    by rewrite resolve_single_missing.
  - apply Forall_cons in Hpre as [Hp Hpre].
    destruct (_is_glob p) eqn:G; unfold mbind, M_bind, bind.
    + destruct (resolve_glob_ok fs st p Hc) as (st' & -> & Hc' & _).
      by rewrite IH.
    + destruct (resolve_single_ok fs st p Hc (Hp eq_refl))
        as (st' & -> & Hc' & _).
      by rewrite IH.
Qed.

Lemma resolve_glob_warns st pat :
  coherent fs st -> glob_cache_nonempty st ->
  exists st',
    _resolve_glob fs pat st = Ok (map (resolve_str fs) (glob_ fs pat), st')
    /\ coherent fs st' /\ glob_cache_nonempty st'
    /\ warnings st'
       = warnings st
         ++ (if bool_decide (glob_ fs pat = [])
             then [MsgNoGlobMatches pat] else [])
    /\ (glob_ fs pat = [] -> _glob_cache st' = _glob_cache st).
Proof.
  intros Hc Hn. pose proof Hc as [Hr Hg]. unfold _resolve_glob.
  unfold mbind, M_bind, bind, get; simpl.
  destruct (_glob_cache st !! pat) as [l|] eqn:E.
  - pose proof (Hn _ _ E) as Hne. rewrite (Hg _ _ E) in Hne |- *.
    exists st. split_and!; auto.
    + rewrite bool_decide_eq_false_2; [by rewrite app_nil_r|].
      intros G. by rewrite G in Hne.
  - destruct (glob_ fs pat) as [|m ms] eqn:G; simpl.
    + eexists; split; [reflexivity|]. split_and!; simpl; auto.
    + eexists; split; [reflexivity|]. simpl.
      split; [|split; [|split; [by rewrite app_nil_r|done]]].
      * split; simpl; [exact Hr|].
        intros s l Hl. destruct (decide (pat = s)) as [<-|Hne].
        -- rewrite lookup_insert_eq in Hl. rewrite G. simpl. congruence.
        -- rewrite lookup_insert_ne in Hl by done. by apply Hg.
      * intros s l Hl. simpl in Hl. destruct (decide (pat = s)) as [<-|Hne].
        -- rewrite lookup_insert_eq in Hl. by injection Hl as <-.
        -- rewrite lookup_insert_ne in Hl by done. by eapply Hn.
Qed.

Lemma resolve_single_keeps st s v st' :
  _resolve_single_path fs s st = Ok (v, st') ->
  warnings st' = warnings st /\ _glob_cache st' = _glob_cache st.
Proof.
  unfold _resolve_single_path, mbind, M_bind, bind, get; simpl.
  destruct (_resolved_cache st !! s); simpl; [by intros [= _ <-]|].
  destruct (exists_ fs s); simpl; [|done]. by intros [= _ <-].
Qed.

Lemma resolve_single_coherent st s v st' :
  coherent fs st -> _resolve_single_path fs s st = Ok (v, st') ->
  coherent fs st'.
Proof.
  intros Hc Hrun. destruct (exists_ fs s) eqn:E.
  - destruct (resolve_single_ok fs st s Hc E) as (st1 & Hrun1 & Hc1 & _).
    congruence.
  - rewrite (resolve_single_missing fs st s Hc E) in Hrun. done.
Qed.

Lemma resolve_loop_warnings path_strings : forall acc st v st',
  coherent fs st -> glob_cache_nonempty st ->
  resolve_loop fs path_strings acc st = Ok (v, st') ->
  coherent fs st' /\ glob_cache_nonempty st'
  /\ warnings st'
     = warnings st ++ map MsgNoGlobMatches (unmatched_globs fs path_strings).
Proof.
  induction path_strings as [|s rest IH]; intros acc st v st' Hc Hn; simpl.
  - intros [= _ <-]. by rewrite app_nil_r.
  - unfold unmatched_globs. rewrite filter_cons.
    destruct (_is_glob s) eqn:G; unfold mbind, M_bind, bind.
    + destruct (resolve_glob_warns st s Hc Hn)
        as (st1 & -> & Hc1 & Hn1 & Hw1 & _).
      intros Hrun. destruct (IH _ _ _ _ Hc1 Hn1 Hrun) as (Hc2 & Hn2 & Hw2).
      split_and!; [done|done|]. rewrite Hw2, Hw1.
      case_bool_decide as Hm.
      * rewrite decide_True by done. simpl. by rewrite <- app_assoc.
      * rewrite decide_False by (by intros [_ ?]). by rewrite app_nil_r.
    + destruct (_resolve_single_path fs s st) as [[p st1]| |] eqn:E;
        [|done|done].
      destruct (resolve_single_keeps _ _ _ _ E) as [Hw1 Hg1].
      pose proof (resolve_single_coherent _ _ _ _ Hc E) as Hc1.
      assert (glob_cache_nonempty st1) as Hn1
        by (unfold glob_cache_nonempty; by rewrite Hg1).
      intros Hrun. destruct (IH _ _ _ _ Hc1 Hn1 Hrun) as (Hc2 & Hn2 & Hw2).
      split_and!; [done|done|]. rewrite Hw2, Hw1.
      by rewrite decide_False by (by intros [? _]).
Qed.

Lemma expand_nil path_strings :
  expand fs path_strings = []
  <-> Forall (fun s => _is_glob s = true /\ glob_ fs s = []) path_strings.
Proof.
  induction path_strings as [|s rest IH]; simpl; [by split|].
  rewrite Forall_cons, <- IH. unfold expand_one.
  destruct (_is_glob s); simpl.
  - destruct (glob_ fs s); simpl; [|split; [done|by intros [[_ ?] _]]].
    tauto.
  - split; [done|]. by intros [[? _] _].
Qed.

End ResolverMore.

(** X1: the caches of the resolver never change what [resolve_paths]
    returns or how it ends: on two resolvers with the same base path
    whose caches hold what the file system answers, the same input gives
    the same list, or the same exit. *)
Theorem resolve_paths_cache_independent fs st1 st2 path_strings :
  coherent fs st1 -> coherent fs st2 ->
  PathResolver.base_path st1 = PathResolver.base_path st2 ->
  result_of (PathResolver.resolve_paths fs path_strings st1)
  = result_of (PathResolver.resolve_paths fs path_strings st2).
Proof.
  intros H1 H2 Hb. unfold PathResolver.resolve_paths.
  destruct path_strings as [|s rest]; [simpl; by rewrite Hb|].
  unfold mbind, M_bind, bind.
  pose proof (resolve_loop_independent fs (s :: rest) [] st1 st2 H1 H2) as E.
  destruct (PathResolver.resolve_loop fs (s :: rest) [] st1) as [[v1 s1]| |];
    destruct (PathResolver.resolve_loop fs (s :: rest) [] st2) as [[v2 s2]| |];
    simpl in E; try done. injection E as <-.
  destruct v1 as [|p v1]; [done|].
  by destruct (PathLib.commonpath (p :: v1)).
Qed.

Lemma coherent_warm : coherent fs_flat resolver_warm.
Proof.
  split; intros s p; simpl; [|by rewrite lookup_empty].
  destruct (decide ("a" = s)) as [<-|Hne].
  - rewrite lookup_insert_eq. by intros [= <-].
  - rewrite lookup_insert_ne by done. by rewrite lookup_empty.
Qed.

Lemma resolve_paths_cache_independent_witness :
  result_of (PathResolver.resolve_paths fs_flat ["b"; "a"]
               (PathResolver.init fs_flat))
  = result_of (PathResolver.resolve_paths fs_flat ["b"; "a"] resolver_warm).
Proof.
  apply (resolve_paths_cache_independent fs_flat (PathResolver.init fs_flat)
           resolver_warm ["b"; "a"]).
  - apply coherent_init.
  - apply coherent_warm.
  - reflexivity.
Defined.

(** X2: [resolve_paths] stops at the first literal input that does not
    exist: when the literals before it exist, the call does not return
    and ends through [error_and_exit] with the message for that path,
    whatever follows it in the input. *)
Theorem resolve_paths_first_missing_literal fs st pre s post :
  coherent fs st -> literals_exist fs pre ->
  PathResolver._is_glob s = false -> exists_ fs s = false ->
  PathResolver.resolve_paths fs (pre ++ s :: post) st
  = error_and_exit (MsgPathDoesNotExist s) st.
Proof.
  intros Hc Hpre Hg He. unfold PathResolver.resolve_paths.
  destruct (pre ++ s :: post) as [|x l] eqn:E; [by destruct pre|].
  rewrite <- E. unfold mbind, M_bind, bind.
  by rewrite (resolve_loop_first_missing fs pre s post [] st Hc Hpre Hg He).
Qed.

Lemma resolve_paths_first_missing_literal_witness :
  PathResolver.resolve_paths fs_empty (["*.md"] ++ "gone" :: ["later"])
    (PathResolver.init fs_empty)
  = error_and_exit (MsgPathDoesNotExist "gone") (PathResolver.init fs_empty).
Proof.
  apply (resolve_paths_first_missing_literal fs_empty
           (PathResolver.init fs_empty) ["*.md"] "gone" ["later"]).
  - apply coherent_init.
  - repeat constructor. discriminate.
  - reflexivity.
  - reflexivity.
Defined.

(** X3: a call of [resolve_paths] that returns has logged exactly one
    warning for every occurrence of a glob pattern without a match, in
    input order, and nothing else: an empty expansion is never cached, so
    a repeated pattern is looked up, and warned about, again. *)
Theorem resolve_paths_warnings fs st path_strings v st' :
  coherent fs st -> glob_cache_nonempty st ->
  PathResolver.resolve_paths fs path_strings st = Ok (v, st') ->
  PathResolver.warnings st'
  = PathResolver.warnings st
    ++ map MsgNoGlobMatches (unmatched_globs fs path_strings)
  /\ glob_cache_nonempty st'.
Proof.
  intros Hc Hn. unfold PathResolver.resolve_paths.
  destruct path_strings as [|s rest].
  - simpl. intros [= _ <-]. by rewrite app_nil_r.
  - unfold mbind, M_bind, bind.
    destruct (PathResolver.resolve_loop fs (s :: rest) [] st)
      as [[l st1]| |] eqn:E; [|done|done].
    destruct (resolve_loop_warnings fs _ _ _ _ _ Hc Hn E) as (_ & Hn1 & Hw).
    destruct l as [|p l]; [by intros [= _ <-]|].
    destruct (PathLib.commonpath (p :: l)); [|done].
    by intros [= _ <-].
Qed.

Lemma resolve_paths_warnings_witness :
  exists v st',
    PathResolver.resolve_paths fs_flat ["*.md"; "a"; "*.md"]
      (PathResolver.init fs_flat) = Ok (v, st')
    /\ PathResolver.warnings st'
       = [MsgNoGlobMatches "*.md"; MsgNoGlobMatches "*.md"].
Proof.
  eexists. eexists. split; [reflexivity|].
  refine (proj1 (resolve_paths_warnings fs_flat (PathResolver.init fs_flat)
                   ["*.md"; "a"; "*.md"] _ _ _ _ eq_refl)).
  - apply coherent_init.
  - intros s l. simpl. by rewrite lookup_empty.
Defined.

(** X4: on a non-empty input whose literals exist [resolve_paths]
    returns the empty list exactly when every input is a glob pattern
    without a match; a single literal among the inputs makes the result
    non-empty or ends the process. *)
Theorem resolve_paths_empty_result fs st path_strings :
  coherent fs st -> path_strings <> [] -> literals_exist fs path_strings ->
  result_of (PathResolver.resolve_paths fs path_strings st) = Ok []
  <-> Forall (fun s => PathResolver._is_glob s = true /\ glob_ fs s = [])
             path_strings.
Proof.
  intros Hc Hne Hall. rewrite <- expand_nil.
  unfold PathResolver.resolve_paths.
  destruct path_strings as [|s rest]; [done|].
  unfold mbind, M_bind, bind.
  destruct (resolve_loop_ok fs (s :: rest) [] st Hc Hall) as (st1 & -> & _).
  rewrite app_nil_l.
  destruct (expand fs (s :: rest)) as [|p l]; [done|].
  destruct (PathLib.commonpath (p :: l)); simpl; split; done.
Qed.

Lemma resolve_paths_empty_result_witness :
  result_of (PathResolver.resolve_paths fs_flat ["*.md"; "*.txt"]
               (PathResolver.init fs_flat)) = Ok []
  <-> Forall (fun s => PathResolver._is_glob s = true /\ glob_ fs_flat s = [])
             ["*.md"; "*.txt"].
Proof.
  apply (resolve_paths_empty_result fs_flat (PathResolver.init fs_flat)
           ["*.md"; "*.txt"]).
  - apply coherent_init.
  - discriminate.
  - repeat constructor; discriminate.
Defined.

(** X5: [is_under path parents] holds exactly when some parent has the
    anchor of [path] and its components as a prefix of those of [path]
    (the equality test adds nothing); so every path is under itself,
    nothing is under the empty list, and being under is transitive. *)
Theorem is_under_prefix path parents :
  (PathResolver.is_under path parents = true
   <-> exists p r, p ∈ parents /\ anchor path = anchor p
                   /\ parts path = parts p ++ r)
  /\ PathResolver.is_under path [path] = true
  /\ PathResolver.is_under path [] = false
  /\ (forall q, PathResolver.is_under path [q] = true ->
                PathResolver.is_under q parents = true ->
                PathResolver.is_under path parents = true).
Proof.
  assert (forall x ps,
             PathResolver.is_under x ps = true
             <-> exists p, p ∈ ps /\ PathLib.is_relative_to x p = true) as Hiff.
  { intros x ps. unfold PathResolver.is_under. rewrite existsb_exists.
    split; intros (p & Hin & Hp); exists p.
    - split; [by apply list_elem_of_In|].
      apply orb_true_iff in Hp as [Heq|Hp]; [|done].
      apply bool_decide_eq_true in Heq as ->. apply is_relative_to_refl.
    - split; [by apply list_elem_of_In|]. by rewrite Hp, orb_true_r. }
  split_and!.
  - rewrite Hiff. split.
    + intros (p & Hin & Hp). apply is_relative_to_true in Hp as (r & ? & ?).
      by exists p, r.
    + intros (p & r & Hin & Ha & Hp). exists p. split; [done|].
      apply is_relative_to_true. eauto.
  - apply Hiff. exists path. split; [by left|apply is_relative_to_refl].
  - reflexivity.
  - intros q Hq Hps. apply Hiff in Hq as (q' & Hq' & Hq).
    apply list_elem_of_singleton in Hq' as ->.
    apply Hiff in Hps as (p & Hin & Hp). apply Hiff. exists p.
    split; [done|]. by eapply is_relative_to_trans.
Qed.

(** ** More on the [.gitignore] loader *)

Section ParseFacts.

Lemma lstrip_not_startswith c s :
  Str.startswith c (Str.lstrip c s) = false.
Proof.
  induction s as [|a s IH]; simpl; [done|].
  case_bool_decide as Hac; [done|]. simpl. by rewrite bool_decide_eq_false_2.
Qed.

Lemma parse_line_cases line :
  GitIgnore._parse_line line = []
  /\ (Str.strip line = "" \/ Str.startswith Str.HASH (Str.strip line) = true)
  \/ Str.strip line <> ""
     /\ Str.startswith Str.HASH (Str.strip line) = false
     /\ (Str.startswith Str.BANG (Str.strip line) = true
         /\ GitIgnore._parse_line line
            = ["!" +:+ Str.lstrip Str.SLASH (Str.tail (Str.strip line))]
         \/ Str.startswith Str.BANG (Str.strip line) = false
            /\ GitIgnore._parse_line line
               = [Str.lstrip Str.SLASH (Str.strip line)]).
Proof.
  unfold GitIgnore._parse_line.
  case_bool_decide as He; simpl; [left; auto|].
  destruct (Str.startswith Str.HASH (Str.strip line)); [left; auto|].
  right. split_and!; [done|done|].
  destruct (Str.startswith Str.BANG (Str.strip line)); auto.
Qed.

End ParseFacts.

(** X6: the patterns [_parse_gitignore_file] returns never start with a
    slash; each comes from one line that is neither blank nor a comment,
    and for a line that starts with [!] the pattern is [!] followed by a
    body without leading slash.  A file that cannot be read gives no
    pattern, and there are never more patterns than lines. *)
Theorem parsed_patterns_normalized fs gitignore_path :
  (read_text fs gitignore_path = None ->
   GitIgnore._parse_gitignore_file fs gitignore_path = [])
  /\ (forall pat,
         pat ∈ GitIgnore._parse_gitignore_file fs gitignore_path ->
         Str.startswith Str.SLASH pat = false
         /\ exists text line,
             read_text fs gitignore_path = Some text
             /\ line ∈ Str.splitlines text
             /\ Str.strip line <> ""
             /\ Str.startswith Str.HASH (Str.strip line) = false
             /\ GitIgnore._parse_line line = [pat]
             /\ (Str.startswith Str.BANG (Str.strip line) = true ->
                 exists body, pat = "!" +:+ body
                              /\ Str.startswith Str.SLASH body = false))
  /\ (forall text,
         read_text fs gitignore_path = Some text ->
         length (GitIgnore._parse_gitignore_file fs gitignore_path)
         <= length (Str.splitlines text)).
Proof.
  unfold GitIgnore._parse_gitignore_file. split_and!.
  - by intros ->.
  - intros pat. destruct (read_text fs gitignore_path) as [text|];
      [|by intros ?%elem_of_nil].
    rewrite list_elem_of_In, in_flat_map. intros (line & Hline & Hpat).
    apply list_elem_of_In in Hline, Hpat.
    destruct (parse_line_cases line)
      as [[E _]|(Hne & Hhash & [[Hb E]|[Hb E]])];
      rewrite E in Hpat.
    + by apply elem_of_nil in Hpat.
    + apply list_elem_of_singleton in Hpat as ->. split; [done|].
      exists text, line. split_and!; try done.
      intros _. eexists. split; [done|apply lstrip_not_startswith].
    + apply list_elem_of_singleton in Hpat as ->.
      split; [apply lstrip_not_startswith|].
      exists text, line. split_and!; try done. congruence.
  - intros text ->. induction (Str.splitlines text) as [|line ls IH];
      simpl; [done|].
    rewrite length_app.
    assert (length (GitIgnore._parse_line line) <= 1); [|lia].
    destruct (parse_line_cases line) as [[-> _]|(_ & _ & [[_ ->]|[_ ->]])];
      simpl; lia.
Qed.

Section NormRootsFacts.

Variable fs : FileSystem.

Lemma norm_roots_loop_spec roots : forall seen out,
  (forall x, x ∈ seen <-> x ∈ out) -> NoDup out ->
  NoDup (GitIgnore.norm_roots_loop fs roots seen out)
  /\ forall x,
      x ∈ GitIgnore.norm_roots_loop fs roots seen out
      <-> x ∈ out \/ exists r, r ∈ roots /\ x = norm_root fs r.
Proof.
  induction roots as [|r rest IH]; intros seen out Hseen Hnd; simpl.
  - split; [done|]. intros x. split; [auto|].
    intros [?|(r & Hr & _)]; [done|by apply elem_of_nil in Hr].
  - fold (norm_root fs r). case_bool_decide as Hin.
    + destruct (IH seen out Hseen Hnd) as [H1 H2]. split; [done|].
      intros x. rewrite H2. split.
      * intros [?|(r' & Hr' & ->)]; [by left|right].
        exists r'. split; [by right|done].
      * intros [?|(r' & Hr' & ->)]; [by left|].
        apply elem_of_cons in Hr' as [->|Hr'].
        -- left. by apply Hseen.
        -- right. eauto.
    + destruct (IH ({[norm_root fs r]} ∪ seen) (out ++ [norm_root fs r]))
        as [H1 H2].
      * intros x. rewrite elem_of_union, elem_of_singleton, elem_of_app,
          list_elem_of_singleton, Hseen. tauto.
      * apply NoDup_app. split_and!; [done| |apply NoDup_singleton].
        intros x Hx Hx'. apply list_elem_of_singleton in Hx' as ->.
        apply Hin. by apply Hseen.
      * split; [done|]. intros x. rewrite H2, elem_of_app,
          list_elem_of_singleton. split.
        -- intros [[? | ->] | (r' & Hr' & ->)]; [by left| |].
           ++ right. exists r. split; [by left|done].
           ++ right. exists r'. split; [by right|done].
        -- intros [?|(r' & Hr' & ->)]; [by left; left|].
           apply elem_of_cons in Hr' as [->|Hr']; [by left; right|].
           right. eauto.
Qed.


End NormRootsFacts.

(** X7: [_norm_roots] returns each normalised root once: the result has
    no duplicates, and a directory is in it exactly when it is the
    normalised form of one of the given roots (its resolved path when that
    is a directory, else the parent of the resolved path). *)
Theorem norm_roots_distinct fs roots :
  NoDup (GitIgnore._norm_roots fs roots)
  /\ (forall x,
         x ∈ GitIgnore._norm_roots fs roots
         <-> exists r, r ∈ roots /\ x = norm_root fs r)
  /\ GitIgnore._norm_roots fs [] = [].
Proof.
  destruct (norm_roots_loop_spec fs roots ∅ []) as [H1 H2].
  - intros x. split; [by intros ?%elem_of_empty|by intros ?%elem_of_nil].
  - constructor.
  - split_and!; [done| |done]. intros x. unfold GitIgnore._norm_roots.
    rewrite H2. split; [|auto]. intros [?%elem_of_nil|?]; done.
Qed.

(** ** More on the walk *)

Section WalkMore.

Variable fs : FileSystem.
Variable gi : GitIgnore.t.
Variable root : Path.




Lemma sum_map_reverse {A} (f : A -> nat) (l : list A) :
  sum_list (map f (reverse l)) = sum_list (map f l).
Proof.
  induction l as [|x l IH]; [done|].
  rewrite reverse_cons, map_app, sum_list_with_app. simpl.
  unfold sum_list in *. lia.
Qed.

Lemma walk_cost_pos b d : 1 <= walk_cost fs b d.
Proof. destruct b; simpl; lia. Qed.

Lemma stack_cost_nil_inv n stack : stack_cost fs root n stack = 0 -> stack = [].
Proof.
  destruct stack as [|d stack]; [done|]. unfold stack_cost. simpl.
  pose proof (walk_cost_pos (budget n (rel_len root d)) d). lia.
Qed.

Lemma rel_len_subdir d c rel :
  (forall x, Forall proper_name (iterdir fs x)) ->
  PathLib.relative_to d root = Some rel ->
  c ∈ GitIgnore.subdirs fs d ->
  rel_len root c = S (length rel) /\ is_Some (PathLib.relative_to c root).
Proof.
  intros Hproper Hrel Hc.
  apply subdirs_elem in Hc as (_ & _ & name & Hname & ->).
  pose proof (Hproper d) as Hall. rewrite Forall_forall in Hall.
  destruct (Hall _ Hname) as [Hn1 Hn2].
  pose proof (relative_to_joinpath root d name rel Hrel) as E.
  rewrite bool_decide_eq_false_2 in E by (intros [?|?]; done).
  split.
  - unfold rel_len. rewrite E, length_app. simpl. lia.
  - by eexists.
Qed.

Lemma walk_loop_terminates n :
  GitIgnore.gitignore_depth gi = Some n ->
  (forall x, Forall proper_name (iterdir fs x)) ->
  forall fuel stack visited,
    Forall (fun d => is_Some (PathLib.relative_to d root)) stack ->
    stack_cost fs root n stack <= fuel ->
    (GitIgnore.walk_loop fs gi root fuel stack visited).2 = true.
Proof.
  intros Hn Hproper. induction fuel as [|fuel IH]; intros stack visited Hst Hc;
    simpl.
  - apply bool_decide_eq_true. apply (stack_cost_nil_inv n). lia.
  - destruct stack as [|d stack]; [done|].
    apply Forall_cons in Hst as [[rel Hrel] Hst].
    unfold stack_cost in Hc. simpl in Hc. fold (stack_cost fs root n stack) in Hc.
    pose proof (walk_cost_pos (budget n (rel_len root d)) d) as Hpos.
    case_bool_decide as Hvis; [apply IH; [done|lia]|].
    set (stack'' := if GitIgnore._within_depth gi root d
                    then reverse (GitIgnore.subdirs fs d) ++ stack else stack).
    assert (Forall (fun d => is_Some (PathLib.relative_to d root)) stack''
            /\ stack_cost fs root n stack'' <= fuel) as [Hst'' Hc''].
    { unfold stack''. unfold GitIgnore._within_depth. rewrite Hn, Hrel.
      destruct (Z.of_nat (length rel) <=? n)%Z eqn:Hw; [|split; [done|lia]].
      apply Z.leb_le in Hw. split.
      - apply Forall_app. split; [|done]. apply Forall_forall. intros c Hc'.
        rewrite elem_of_reverse in Hc'.
        by destruct (rel_len_subdir d c rel Hproper Hrel Hc') as [_ ?].
      - unfold stack_cost. rewrite map_app, sum_list_with_app.
        fold (stack_cost fs root n stack).
        assert (rel_len root d = length rel) as Hlen
          by (unfold rel_len; by rewrite Hrel).
        rewrite Hlen in Hc, Hpos.
        assert (budget n (length rel) = S (budget n (S (length rel)))) as Hb
          by (unfold budget; lia).
        rewrite Hb in Hc. simpl in Hc.
        assert (sum_list_with id
                  (map (fun d0 => walk_cost fs (budget n (rel_len root d0)) d0)
                       (reverse (GitIgnore.subdirs fs d)))
                = sum_list (map (walk_cost fs (budget n (S (length rel))))
                                (GitIgnore.subdirs fs d))) as ->; [|lia].
        fold (sum_list
                (map (fun d0 => walk_cost fs (budget n (rel_len root d0)) d0)
                     (reverse (GitIgnore.subdirs fs d)))).
        rewrite sum_map_reverse. f_equal.
        apply map_ext_in. intros c Hc'. apply list_elem_of_In in Hc'.
        by destruct (rel_len_subdir d c rel Hproper Hrel Hc') as [-> _]. }
    specialize (IH stack'' ({[d]} ∪ visited) Hst'' Hc'').
    by destruct (GitIgnore.walk_loop fs gi root fuel stack'' ({[d]} ∪ visited)).
Qed.

End WalkMore.



(** X10: with a bounded scan depth [n], on a file system whose directory
    entries are proper names, [_walk_dirs] ends: [walk_cost] for [n + 1]
    levels below the root bounds the iterations of its loop, whatever
    links there are. *)
Theorem walk_dirs_terminates fs gi root n fuel :
  GitIgnore.gitignore_depth gi = Some n ->
  (forall x, Forall proper_name (iterdir fs x)) ->
  walk_cost fs (budget n 0) root <= fuel ->
  (GitIgnore._walk_dirs fs gi root fuel).2 = true.
Proof.
  intros Hn Hproper Hfuel. apply (walk_loop_terminates fs gi root n Hn Hproper).
  - constructor; [|constructor]. exists []. apply relative_to_Some.
    by rewrite app_nil_r.
  - unfold stack_cost. simpl. unfold rel_len.
    assert (PathLib.relative_to root root = Some []) as ->
      by (apply relative_to_Some; by rewrite app_nil_r).
    simpl. lia.
Qed.


Lemma fs_scope_proper : forall x, Forall proper_name (iterdir fs_scope x).
Proof.
  intros x. simpl. repeat case_bool_decide; repeat constructor; done.
Qed.

Lemma walk_dirs_terminates_witness :
  (GitIgnore._walk_dirs fs_scope gi_depth0 (posix ["root"]) 2).2 = true.
Proof.
  apply (walk_dirs_terminates fs_scope gi_depth0 (posix ["root"]) 0 2).
  - reflexivity.
  - apply fs_scope_proper.
  - vm_compute. lia.
Defined.

(** ** More on loading scopes *)

(** X11: a [GitIgnore] is constructed with at most one scope, rooted at
    the directory of the resolved [.gitignore] path and never with an
    empty pattern list, and with an empty relative-path cache.  When the
    file cannot be read, or when gitignore filtering is off in the
    configuration, the object excludes no path at all. *)
Theorem gitignore_init_scope fs config gitignore_path :
  GitIgnore.root_path (GitIgnore.init fs config gitignore_path)
  = Some (PathLib.parent (resolve fs gitignore_path))
  /\ GitIgnore._rel_path_cache (GitIgnore.init fs config gitignore_path) = ∅
  /\ (GitIgnore._specs (GitIgnore.init fs config gitignore_path) = []
      /\ GitIgnore._parse_gitignore_file fs (resolve fs gitignore_path) = []
      \/ GitIgnore._specs (GitIgnore.init fs config gitignore_path)
         = [(PathLib.parent (resolve fs gitignore_path),
             GitIgnore._parse_gitignore_file fs (resolve fs gitignore_path))]
         /\ GitIgnore._parse_gitignore_file fs (resolve fs gitignore_path)
            <> [])
  /\ (read_text fs (resolve fs gitignore_path) = None
      \/ gitignore config = false ->
      forall match_file item_path,
        (GitIgnore.excluded match_file fs
           (GitIgnore.init fs config gitignore_path) item_path).1 = false).
Proof.
  unfold GitIgnore.init, GitIgnore._load_spec_from_gitignore. simpl.
  split_and!; [done|done| |].
  - destruct (GitIgnore._parse_gitignore_file fs (resolve fs gitignore_path));
      [by left|by right].
  - intros H match_file item_path. unfold GitIgnore.excluded. simpl.
    destruct H as [H|H].
    + unfold GitIgnore._parse_gitignore_file. rewrite H. simpl.
      by destruct (gitignore config).
    + by rewrite H.
Qed.

Section LoadRootsFacts.

Variable fs : FileSystem.
Variable self : GitIgnore.t.
Variable fuel : nat.





End LoadRootsFacts.


(** ** More on the matcher *)

Section MatcherMore.

Variable match_file : GitIgnore.PathSpec -> string -> bool.
Variable fs : FileSystem.

Lemma excluded_fresh_app gis gis' item_path :
  excluded_fresh match_file fs (gis ++ gis') item_path
  = excluded_fresh match_file fs gis item_path
    || excluded_fresh match_file fs gis' item_path.
Proof. unfold excluded_fresh. apply existsb_app. Qed.

Lemma excluded_fresh_perm gis gis' item_path :
  gis ≡ₚ gis' ->
  excluded_fresh match_file fs gis item_path
  = excluded_fresh match_file fs gis' item_path.
Proof.
  unfold excluded_fresh. induction 1 as [|x l l' _ IH|x y l|l l' l'' _ IH1 _ IH2];
    simpl; [done|by rewrite IH| |congruence].
  rewrite !orb_assoc. f_equal. apply orb_comm.
Qed.

(** The exclusion cache never holds more entries than its limit (one
    entry when the limit is below one). *)
Lemma excluded_cache_size m item_path :
  (Z.of_nat (size (GitIgnoreMatcher._exclusion_cache m))
   <= Z.max (GitIgnoreMatcher._max_cache_size m) 1)%Z ->
  (Z.of_nat (size (GitIgnoreMatcher._exclusion_cache
                     (GitIgnoreMatcher.excluded match_file fs m item_path).2))
   <= Z.max (GitIgnoreMatcher._max_cache_size m) 1)%Z
  /\ GitIgnoreMatcher._max_cache_size
       (GitIgnoreMatcher.excluded match_file fs m item_path).2
     = GitIgnoreMatcher._max_cache_size m.
Proof.
  intros Hsize. unfold GitIgnoreMatcher.excluded.
  destruct (GitIgnoreMatcher._exclusion_cache m !! item_path) eqn:E; [done|].
  destruct (GitIgnoreMatcher.scan match_file fs item_path
              (GitIgnoreMatcher.gitignores m)) as [result gis].
  destruct (Z.of_nat (size (GitIgnoreMatcher._exclusion_cache m))
            <? GitIgnoreMatcher._max_cache_size m)%Z eqn:Hlt; simpl.
  - apply Z.ltb_lt in Hlt. rewrite map_size_insert_None by done. lia.
  - rewrite map_size_insert_None by apply lookup_empty.
    rewrite map_size_empty. lia.
Qed.

Lemma after_calls_cache_size calls : forall m,
  (Z.of_nat (size (GitIgnoreMatcher._exclusion_cache m))
   <= Z.max (GitIgnoreMatcher._max_cache_size m) 1)%Z ->
  (Z.of_nat (size (GitIgnoreMatcher._exclusion_cache
                     (after_calls match_file fs calls m)))
   <= Z.max (GitIgnoreMatcher._max_cache_size m) 1)%Z
  /\ GitIgnoreMatcher._max_cache_size (after_calls match_file fs calls m)
     = GitIgnoreMatcher._max_cache_size m.
Proof.
  induction calls as [|[gi root_path|item_path] rest IH]; intros m Hm; simpl.
  - done.
  - apply (IH (GitIgnoreMatcher.add_gitignore m gi root_path)).
    simpl. rewrite map_size_empty. lia.
  - destruct (excluded_cache_size m item_path Hm) as [H1 H2].
    destruct (IH (GitIgnoreMatcher.excluded match_file fs m item_path).2)
      as [H3 H4]; [by rewrite H2|].
    rewrite H2 in H3, H4. done.
Qed.

End MatcherMore.

Section MatcherStats.

Variable match_file : GitIgnore.PathSpec -> string -> bool.
Variable fs : FileSystem.

Lemma scan_length item_path gis :
  length (GitIgnoreMatcher.scan match_file fs item_path gis).2 = length gis.
Proof.
  induction gis as [|[root gi] rest IH]; simpl; [done|].
  destruct (negb (GitIgnoreMatcher._is_path_in_scope item_path root)).
  - destruct (GitIgnoreMatcher.scan match_file fs item_path rest). simpl in *.
    by rewrite IH.
  - destruct (GitIgnore.excluded match_file fs gi item_path) as [[] gi'];
      simpl; [done|].
    destruct (GitIgnoreMatcher.scan match_file fs item_path rest). simpl in *.
    by rewrite IH.
Qed.

Lemma excluded_gitignores_length m item_path :
  length (GitIgnoreMatcher.gitignores
            (GitIgnoreMatcher.excluded match_file fs m item_path).2)
  = length (GitIgnoreMatcher.gitignores m).
Proof.
  unfold GitIgnoreMatcher.excluded.
  destruct (GitIgnoreMatcher._exclusion_cache m !! item_path); [done|].
  pose proof (scan_length item_path (GitIgnoreMatcher.gitignores m)) as H.
  destruct (GitIgnoreMatcher.scan match_file fs item_path
              (GitIgnoreMatcher.gitignores m)) as [result gis].
  by destruct (_ <? _)%Z.
Qed.

Lemma after_calls_gitignores_length calls : forall m,
  length (GitIgnoreMatcher.gitignores (after_calls match_file fs calls m))
  = length (GitIgnoreMatcher.gitignores m) + length (added calls).
Proof.
  induction calls as [|[gi root_path|item_path] rest IH]; intros m; simpl.
  - lia.
  - rewrite IH. simpl. rewrite length_app. simpl. lia.
  - by rewrite IH, excluded_gitignores_length.
Qed.

End MatcherStats.

(** X13: registering one more gitignore can only add exclusions: after
    [add_gitignore] the matcher answers what it answered before, or that
    the new scope applies to the path and its [GitIgnore] reports it; a
    negation pattern of one scope never re-includes a path that another
    scope excludes. *)
Theorem add_gitignore_only_adds_exclusions match_file fs calls limit gi
    root_path item_path :
  added_coherent calls -> rel_coherent gi ->
  (GitIgnoreMatcher.excluded match_file fs
     (GitIgnoreMatcher.add_gitignore
        (after_calls match_file fs calls (GitIgnoreMatcher.mk [] ∅ limit))
        gi root_path) item_path).1
  = (GitIgnoreMatcher.excluded match_file fs
       (after_calls match_file fs calls (GitIgnoreMatcher.mk [] ∅ limit))
       item_path).1
    || (GitIgnoreMatcher._is_path_in_scope item_path root_path
        && (GitIgnore.excluded match_file fs gi item_path).1).
Proof.
  intros Hadd Hgi.
  change (GitIgnoreMatcher.add_gitignore
            (after_calls match_file fs calls (GitIgnoreMatcher.mk [] ∅ limit))
            gi root_path)
    with (after_calls match_file fs [AddGitignore gi root_path]
            (after_calls match_file fs calls (GitIgnoreMatcher.mk [] ∅ limit))).
  assert (forall c1 c2 m,
             after_calls match_file fs c2 (after_calls match_file fs c1 m)
             = after_calls match_file fs (c1 ++ c2) m) as Happ.
  { induction c1 as [|[g r|p] c1 IH]; intros c2 m; simpl; [done|apply IH..]. }
  assert (forall c1 c2, added (c1 ++ c2) = added c1 ++ added c2) as Hadded.
  { induction c1 as [|[g r|p] c1 IH]; intros c2; simpl; [done| |apply IH].
    by rewrite IH. }
  rewrite Happ, !excluded_after_calls, Hadded, excluded_fresh_app; [|done|].
  - f_equal. unfold excluded_fresh. simpl. rewrite orb_false_r.
    by destruct (gitignore_excluded_spec match_file fs gi item_path Hgi)
      as (gi' & -> & _).
  - apply Forall_app. split; [done|]. by constructor.
Qed.

Lemma add_gitignore_only_adds_exclusions_witness :
  (GitIgnoreMatcher.excluded match_exact fs_scope
     (GitIgnoreMatcher.add_gitignore
        (after_calls match_exact fs_scope calls_demo
           (GitIgnoreMatcher.mk [] ∅ 1))
        gi_depth0 (posix ["root"])) (posix ["root"; "sub"; "foo"])).1
  = (GitIgnoreMatcher.excluded match_exact fs_scope
       (after_calls match_exact fs_scope calls_demo
          (GitIgnoreMatcher.mk [] ∅ 1))
       (posix ["root"; "sub"; "foo"])).1
    || (GitIgnoreMatcher._is_path_in_scope (posix ["root"; "sub"; "foo"])
          (posix ["root"])
        && (GitIgnore.excluded match_exact fs_scope gi_depth0
              (posix ["root"; "sub"; "foo"])).1).
Proof.
  apply (add_gitignore_only_adds_exclusions match_exact fs_scope calls_demo 1
           gi_depth0 (posix ["root"]) (posix ["root"; "sub"; "foo"])).
  - repeat constructor. apply init_rel_coherent.
  - apply init_rel_coherent.
Defined.

(** X14: the answer of the matcher does not depend on the order in which
    the gitignores were registered, on the questions asked in between,
    or on the cache size limit: two call sequences that register the same
    scopes in any order give the same answer for every path. *)
Theorem excluded_order_independent match_file fs calls1 calls2 limit1 limit2
    item_path :
  added_coherent calls1 -> added_coherent calls2 ->
  added calls1 ≡ₚ added calls2 ->
  (GitIgnoreMatcher.excluded match_file fs
     (after_calls match_file fs calls1 (GitIgnoreMatcher.mk [] ∅ limit1))
     item_path).1
  = (GitIgnoreMatcher.excluded match_file fs
       (after_calls match_file fs calls2 (GitIgnoreMatcher.mk [] ∅ limit2))
       item_path).1.
Proof.
  intros H1 H2 Hperm. rewrite !excluded_after_calls by done.
  by apply excluded_fresh_perm.
Qed.

Lemma excluded_order_independent_witness :
  (GitIgnoreMatcher.excluded match_exact fs_scope
     (after_calls match_exact fs_scope calls_before
        (GitIgnoreMatcher.mk [] ∅ 10000))
     (posix ["root"; "sub"; "foo"])).1
  = (GitIgnoreMatcher.excluded match_exact fs_scope
       (after_calls match_exact fs_scope calls_after
          (GitIgnoreMatcher.mk [] ∅ 1))
       (posix ["root"; "sub"; "foo"])).1.
Proof.
  apply (excluded_order_independent match_exact fs_scope calls_before
           calls_after 10000 1 (posix ["root"; "sub"; "foo"])).
  - repeat constructor; apply init_rel_coherent.
  - repeat constructor; apply init_rel_coherent.
  - apply perm_swap.
Defined.

(** X15: what [get_cache_stats] reports after any sequence of calls on a
    new matcher: the gitignore count is the number of [add_gitignore]
    calls, and the cache size never exceeds the size limit (one entry
    when the limit is below one), because a full cache is cleared before
    the next entry is stored. *)
Theorem cache_stats_bounded match_file fs calls limit :
  gitignore_count
    (get_cache_stats
       (after_calls match_file fs calls (GitIgnoreMatcher.mk [] ∅ limit)))
  = length (added calls)
  /\ (Z.of_nat
        (cache_size
           (get_cache_stats
              (after_calls match_file fs calls
                 (GitIgnoreMatcher.mk [] ∅ limit))))
      <= Z.max limit 1)%Z
  /\ GitIgnoreMatcher._max_cache_size
       (after_calls match_file fs calls (GitIgnoreMatcher.mk [] ∅ limit))
     = limit.
Proof.
  unfold get_cache_stats. simpl. split.
  - by rewrite after_calls_gitignores_length.
  - apply (after_calls_cache_size match_file fs calls
             (GitIgnoreMatcher.mk [] ∅ limit)).
    simpl. rewrite map_size_empty. lia.
Qed.

(** X16: [clear_cache] changes no answer: after any sequence of calls,
    the matcher with its cache cleared answers every path as before, and
    keeps its gitignores. *)
Theorem clear_cache_keeps_answers match_file fs calls limit item_path :
  added_coherent calls ->
  (GitIgnoreMatcher.excluded match_file fs
     (GitIgnoreMatcher.clear_cache
        (after_calls match_file fs calls (GitIgnoreMatcher.mk [] ∅ limit)))
     item_path).1
  = (GitIgnoreMatcher.excluded match_file fs
       (after_calls match_file fs calls (GitIgnoreMatcher.mk [] ∅ limit))
       item_path).1
  /\ GitIgnoreMatcher.gitignores
       (GitIgnoreMatcher.clear_cache
          (after_calls match_file fs calls (GitIgnoreMatcher.mk [] ∅ limit)))
     = GitIgnoreMatcher.gitignores
         (after_calls match_file fs calls (GitIgnoreMatcher.mk [] ∅ limit)).
Proof.
  intros Hadd. split; [|done].
  destruct (after_calls_spec match_file fs calls _ Hadd
              (matcher_ok_empty match_file fs limit)) as [[Hgis Hcache] _].
  set (m := after_calls match_file fs calls (GitIgnoreMatcher.mk [] ∅ limit))
    in *.
  destruct (matcher_excluded_spec match_file fs m item_path) as (m1 & -> & _);
    [by split|].
  destruct (matcher_excluded_spec match_file fs (GitIgnoreMatcher.clear_cache m)
              item_path) as (m2 & -> & _); [|done].
  split; [done|]. intros k b. simpl. by rewrite lookup_empty.
Qed.

Lemma clear_cache_keeps_answers_witness :
  (GitIgnoreMatcher.excluded match_exact fs_scope
     (GitIgnoreMatcher.clear_cache
        (after_calls match_exact fs_scope calls_demo
           (GitIgnoreMatcher.mk [] ∅ 10000)))
     (posix ["root"; "sub"; "foo"])).1
  = (GitIgnoreMatcher.excluded match_exact fs_scope
       (after_calls match_exact fs_scope calls_demo
          (GitIgnoreMatcher.mk [] ∅ 10000))
       (posix ["root"; "sub"; "foo"])).1.
Proof.
  refine (proj1 (clear_cache_keeps_answers match_exact fs_scope calls_demo
                   10000 (posix ["root"; "sub"; "foo"]) _)).
  repeat constructor. apply init_rel_coherent.
Defined.

(** X17: a matcher whose registered gitignores are all disabled, and in
    particular a matcher without gitignores, excludes no path. *)
Theorem disabled_gitignores_exclude_nothing match_file fs calls limit
    item_path :
  added_coherent calls ->
  Forall (fun entry => GitIgnore.enabled entry.2 = false) (added calls) ->
  (GitIgnoreMatcher.excluded match_file fs
     (after_calls match_file fs calls (GitIgnoreMatcher.mk [] ∅ limit))
     item_path).1 = false.
Proof.
  intros Hadd Hoff. rewrite excluded_after_calls by done.
  unfold excluded_fresh. induction Hoff as [|e l He _ IH]; simpl; [done|].
  unfold excluded_pure at 1. by rewrite He, andb_false_r.
Qed.

Lemma disabled_gitignores_exclude_nothing_witness :
  (GitIgnoreMatcher.excluded match_exact fs_scope
     (after_calls match_exact fs_scope
        [AddGitignore gi_off (posix ["root"; "sub"])]
        (GitIgnoreMatcher.mk [] ∅ 10000))
     (posix ["root"; "sub"; "foo"])).1 = false.
Proof.
  apply (disabled_gitignores_exclude_nothing match_exact fs_scope
           [AddGitignore gi_off (posix ["root"; "sub"])] 10000
           (posix ["root"; "sub"; "foo"])).
  - repeat constructor. apply init_rel_coherent.
  - repeat constructor.
Defined.

(** ** More on the filter chain *)

(** X18: the three limit checks are thresholds.  With its unbounded flag
    set a check never fires; otherwise the depth check fires exactly
    from [max_depth] on, the item and entry checks exactly from their
    maximum on, so a check that fired keeps firing as the counter
    grows. *)
Theorem limit_checks_thresholds self :
  (forall d,
      FilterApplier.check_depth_limit self d = true
      <-> no_max_depth (FilterApplier.config self) = false
          /\ (max_depth (FilterApplier.config self) <= d)%Z)
  /\ (forall n,
         FilterApplier.check_item_limit self n = true
         <-> no_max_items (FilterApplier.config self) = false
             /\ (max_items (FilterApplier.config self) <= n)%Z)
  /\ (forall n,
         FilterApplier.check_entry_limit self n = true
         <-> no_max_entries (FilterApplier.config self) = false
             /\ (max_entries (FilterApplier.config self) <= n)%Z)
  /\ (forall d d',
         (d <= d')%Z ->
         (FilterApplier.check_depth_limit self d = true ->
          FilterApplier.check_depth_limit self d' = true)
         /\ (FilterApplier.check_item_limit self d = true ->
             FilterApplier.check_item_limit self d' = true)
         /\ (FilterApplier.check_entry_limit self d = true ->
             FilterApplier.check_entry_limit self d' = true)).
Proof.
  unfold FilterApplier.check_depth_limit, FilterApplier.check_item_limit,
    FilterApplier.check_entry_limit.
  split_and!.
  - intros d. destruct (no_max_depth _); [naive_solver|].
    rewrite Z.ltb_lt. split; [intros; split; [done|lia]|intros [_ ?]; lia].
  - intros n. destruct (no_max_items _); [naive_solver|].
    rewrite Z.leb_le. naive_solver.
  - intros n. destruct (no_max_entries _); [naive_solver|].
    rewrite Z.leb_le. naive_solver.
  - intros d d' Hle. split_and!.
    + destruct (no_max_depth _); [done|]. rewrite !Z.ltb_lt. lia.
    + destruct (no_max_items _); [done|]. rewrite !Z.leb_le. lia.
    + destruct (no_max_entries _); [done|]. rewrite !Z.leb_le. lia.
Qed.

(** X19: [should_include_item] raises the [TypeError] of a depth
    comparison exactly when the item passes filters 1 to 3 and the
    exclude depth is [None], or the exclude depth is an integer, filter 4
    lets the item through and the gitignore depth is [None]; all of this
    is decided before the matcher or the file system is consulted.  With
    both depths set to integers no [TypeError] is raised. *)
Theorem should_include_item_type_error match_file fs self item_path
    curr_depth is_dir excl incl flag st :
  (FilterApplier.should_include_item match_file fs self item_path curr_depth
     is_dir excl incl flag st = Raise TypeError
   <-> passes_filters_1_to_3 self item_path is_dir incl flag = true
       /\ (exclude_depth (FilterApplier.config self) = None
           \/ exists e,
               exclude_depth (FilterApplier.config self) = Some e
               /\ (curr_depth <=? e)%Z
                  && PathResolver.is_under item_path excl = false
               /\ gitignore_depth (FilterApplier.config self) = None))
  /\ (forall e g,
         exclude_depth (FilterApplier.config self) = Some e ->
         gitignore_depth (FilterApplier.config self) = Some g ->
         FilterApplier.should_include_item match_file fs self item_path
           curr_depth is_dir excl incl flag st <> Raise TypeError).
Proof.
  unfold FilterApplier.should_include_item, FilterApplier.le_depth,
    passes_filters_1_to_3.
  destruct (negb is_dir && no_files (FilterApplier.config self)); simpl.
  { split; [split; [done|by intros [? _]]|done]. }
  destruct (FilterApplier.rejected_by_extension self item_path is_dir); simpl.
  { split; [split; [done|by intros [? _]]|done]. }
  destruct (FilterApplier.rejected_as_not_given self item_path is_dir incl flag);
    simpl.
  { split; [split; [done|by intros [? _]]|done]. }
  destruct (negb (hidden_items (FilterApplier.config self))
            && PathResolver.is_hidden item_path
            && negb (bool_decide (item_path ∈ incl))); simpl.
  { split; [split; [done|by intros [? _]]|done]. }
  destruct (exclude_depth (FilterApplier.config self)) as [e|].
  2: { split; [split; [by auto|done]|done]. }
  destruct ((curr_depth <=? e)%Z && PathResolver.is_under item_path excl)
    eqn:F4.
  { split; [split; [done|]|done].
    intros [_ [?|(e' & [= <-] & F4' & _)]]; [done|congruence]. }
  assert (forall (b : bool) (m : GitIgnoreMatcher.t),
             (if b then Ok (false, m)
              else if negb (FilterApplier.extensions_active self)
                      && negb (PathResolver.is_under item_path incl)
                   then Ok (false, m) else Ok (true, m))
             <> (Raise TypeError : outcome (bool * GitIgnoreMatcher.t)))
    as Hne.
  { intros [] m; simpl; [done|].
    by destruct (negb (FilterApplier.extensions_active self)
                 && negb (PathResolver.is_under item_path incl)). }
  destruct (gitignore_depth (FilterApplier.config self)) as [g|].
  - assert (forall (w : bool),
               (let '(ignored, gitignore_matcher) :=
                  if w
                  then GitIgnoreMatcher.excluded match_file fs st item_path
                  else (false, st) in
                if ignored then Ok (false, gitignore_matcher)
                else if negb (FilterApplier.extensions_active self)
                        && negb (PathResolver.is_under item_path incl)
                     then Ok (false, gitignore_matcher)
                     else Ok (true, gitignore_matcher))
               <> (Raise TypeError : outcome (bool * GitIgnoreMatcher.t)))
      as Hno.
    { intros [].
      - destruct (GitIgnoreMatcher.excluded match_file fs st item_path).
        apply Hne.
      - apply (Hne false st). }
    split.
    + split; [by intros ?%Hno|].
      intros [_ [?|(e' & _ & _ & ?)]]; done.
    + intros e' g' _ _. apply Hno.
  - split; [|done]. split; [|done]. intros _. split; [done|]. right.
    by exists e.
Qed.

(** X20: an item that [should_include_item] includes has passed every
    filter: a file is included only when files are shown and, with an
    extension allow-list, its extension is allowed; without the
    allow-list, and unless its directory is under the given paths, a file
    is one of the resolved include paths and a directory has one of them
    under it; a hidden item is shown or explicitly given; within the
    exclude depth the item is under no exclude path; within the gitignore
    depth the matcher does not exclude it; and without the allow-list it
    is under an include path. *)
Theorem included_item_passes_every_filter match_file fs self item_path
    curr_depth is_dir excl incl flag st st' :
  FilterApplier.should_include_item match_file fs self item_path curr_depth
    is_dir excl incl flag st = Ok (true, st') ->
  (is_dir = false -> no_files (FilterApplier.config self) = false)
  /\ (is_dir = false -> FilterApplier.extensions_active self = true ->
      has_allowed_extension self (PathLib.name item_path))
  /\ (flag = false -> FilterApplier.extensions_active self = false ->
      if is_dir
      then exists t, t ∈ incl /\ PathResolver.is_under t [item_path] = true
      else item_path ∈ incl)
  /\ (hidden_items (FilterApplier.config self) = false ->
      PathResolver.is_hidden item_path = true -> item_path ∈ incl)
  /\ (exists e g,
         exclude_depth (FilterApplier.config self) = Some e
         /\ gitignore_depth (FilterApplier.config self) = Some g
         /\ ((curr_depth <= e)%Z ->
             PathResolver.is_under item_path excl = false)
         /\ ((curr_depth <= g)%Z ->
             (GitIgnoreMatcher.excluded match_file fs st item_path).1 = false))
  /\ (FilterApplier.extensions_active self = false ->
      PathResolver.is_under item_path incl = true).
Proof.
  unfold FilterApplier.should_include_item, FilterApplier.le_depth.
  destruct (negb is_dir && no_files (FilterApplier.config self)) eqn:F1;
    [done|].
  destruct (FilterApplier.rejected_by_extension self item_path is_dir) eqn:F15;
    [done|].
  destruct (FilterApplier.rejected_as_not_given self item_path is_dir incl flag)
    eqn:F2; [done|].
  destruct (negb (hidden_items (FilterApplier.config self))
            && PathResolver.is_hidden item_path
            && negb (bool_decide (item_path ∈ incl))) eqn:F3; [done|].
  destruct (exclude_depth (FilterApplier.config self)) as [e|] eqn:He; [|done].
  destruct ((curr_depth <=? e)%Z && PathResolver.is_under item_path excl)
    eqn:F4; [done|].
  destruct (gitignore_depth (FilterApplier.config self)) as [g|] eqn:Hg;
    [|done].
  intros Hrun.
  assert ((if (curr_depth <=? g)%Z
           then (GitIgnoreMatcher.excluded match_file fs st item_path).1
           else false) = false
          /\ negb (FilterApplier.extensions_active self)
             && negb (PathResolver.is_under item_path incl) = false)
    as [F5 F6].
  { destruct (curr_depth <=? g)%Z.
    - destruct (GitIgnoreMatcher.excluded match_file fs st item_path)
        as [[] m]; [done|]. simpl.
      by destruct (negb (FilterApplier.extensions_active self)
                   && negb (PathResolver.is_under item_path incl)).
    - by destruct (negb (FilterApplier.extensions_active self)
                   && negb (PathResolver.is_under item_path incl)). }
  clear Hrun. split_and!.
  - intros ->. simpl in F1. done.
  - intros -> Hact. by apply rejected_by_extension_file.
  - intros -> Hact. unfold FilterApplier.rejected_as_not_given in F2.
    rewrite Hact in F2. simpl in F2. destruct is_dir; simpl in F2.
    + destruct (existsb _ incl) eqn:Hex; [|done].
      apply existsb_exists in Hex as (t & Hin & Ht). exists t.
      split; [by apply list_elem_of_In|done].
    + case_bool_decide; done.
  - intros Hh Hhid. rewrite Hh, Hhid in F3. simpl in F3.
    case_bool_decide; done.
  - exists e, g. split_and!; [done|done| |].
    + intros Hle. apply Z.leb_le in Hle. by rewrite Hle in F4.
    + intros Hle. apply Z.leb_le in Hle. by rewrite Hle in F5.
  - intros Hact. rewrite Hact in F6. simpl in F6.
    by destruct (PathResolver.is_under item_path incl).
Qed.

Lemma included_item_passes_every_filter_witness :
  has_allowed_extension (FilterApplier.init cfg_py)
    (PathLib.name (posix ["cwd"; "b.Py"])).
Proof.
  refine (proj1 (proj2
            (included_item_passes_every_filter match_nothing fs_flat
               (FilterApplier.init cfg_py) (posix ["cwd"; "b.Py"]) 1
               false [] [posix ["cwd"]] false
               GitIgnoreMatcher.init _ _)) _ _).
  - vm_compute. reflexivity.
  - reflexivity.
  - reflexivity.
Defined.

(** X21: [should_include_item] has no side effect that matters: when it
    returns, the matcher holds the same scopes as before, its invariant
    still holds, and it answers every path as before; an item rejected
    before the gitignore filter leaves the matcher untouched. *)
Theorem should_include_item_keeps_matcher match_file fs self item_path
    curr_depth is_dir excl incl flag st b st' :
  matcher_ok match_file fs st ->
  FilterApplier.should_include_item match_file fs self item_path curr_depth
    is_dir excl incl flag st = Ok (b, st') ->
  matcher_ok match_file fs st'
  /\ Forall2 same_scope (GitIgnoreMatcher.gitignores st)
                        (GitIgnoreMatcher.gitignores st')
  /\ (forall p,
         (GitIgnoreMatcher.excluded match_file fs st' p).1
         = (GitIgnoreMatcher.excluded match_file fs st p).1)
  /\ (st' = st
      \/ st' = (GitIgnoreMatcher.excluded match_file fs st item_path).2).
Proof.
  intros Hok Hrun.
  assert (st' = st
          \/ st' = (GitIgnoreMatcher.excluded match_file fs st item_path).2)
    as Hst.
  { revert Hrun.
    unfold FilterApplier.should_include_item, FilterApplier.le_depth.
    repeat case_match; intros Hrun; simplify_eq; auto;
      match goal with
      | H : GitIgnoreMatcher.excluded _ _ _ _ = _ |- _ => rewrite H; auto
      end. }
  assert (matcher_ok match_file fs st'
          /\ Forall2 same_scope (GitIgnoreMatcher.gitignores st)
                                (GitIgnoreMatcher.gitignores st')) as [H1 H2].
  { destruct Hst as [->| ->]; [split; [done|apply same_scope_refl_all]|].
    destruct (matcher_excluded_spec match_file fs st item_path Hok)
      as (m & -> & Hm & Hs & _). done. }
  split_and!; [done|done| |done].
  intros p.
  destruct (matcher_excluded_spec match_file fs st p Hok) as (m1 & -> & _).
  destruct (matcher_excluded_spec match_file fs st' p H1) as (m2 & -> & _).
  simpl. by apply excluded_fresh_same_rules.
Qed.

Lemma should_include_item_keeps_matcher_witness :
  (GitIgnoreMatcher.excluded match_nothing fs_flat
     (GitIgnoreMatcher.excluded match_nothing fs_flat
        (GitIgnoreMatcher.mk [] ∅ 10000) (posix ["cwd"; "a.txt"])).2
     (posix ["cwd"; "b.txt"])).1
  = (GitIgnoreMatcher.excluded match_nothing fs_flat
       (GitIgnoreMatcher.mk [] ∅ 10000) (posix ["cwd"; "b.txt"])).1.
Proof.
  refine (proj1 (proj2 (proj2
            (should_include_item_keeps_matcher match_nothing fs_flat
               (FilterApplier.init cfg_plain) (posix ["cwd"; "a.txt"]) 1
               false [] [posix ["cwd"; "a.txt"]; posix ["cwd"]] false
               (GitIgnoreMatcher.mk [] ∅ 10000) true _ _ _)))
            (posix ["cwd"; "b.txt"])).
  - apply matcher_ok_empty.
  - vm_compute. reflexivity.
Defined.

(** ** More on the selection coordinator *)

Section RunMore.

Import PathResolver ItemsSelectionService.

Variable fs : FileSystem.

Lemma resolve_paths_coherent st path_strings v st' :
  coherent fs st -> resolve_paths fs path_strings st = Ok (v, st') ->
  coherent fs st'.
Proof.
  intros Hc. unfold resolve_paths. destruct path_strings as [|s rest].
  - simpl. by intros [= _ <-].
  - unfold mbind, M_bind, bind.
    destruct (resolve_loop fs (s :: rest) [] st) as [[l st1]| |] eqn:E;
      [|done|done].
    assert (coherent fs st1) as Hc1.
    { clear -Hc E. revert E. generalize (@nil Path). generalize (s :: rest).
      intros l0. revert st Hc. induction l0 as [|x l0 IH]; intros st Hc acc;
        simpl; [by intros [= _ <-]|].
      destruct (_is_glob x); unfold mbind, M_bind, bind.
      - destruct (resolve_glob_ok fs st x Hc) as (st2 & -> & Hc2 & _).
        by apply IH.
      - destruct (_resolve_single_path fs x st) as [[p st2]| |] eqn:E2;
          [|done|done].
        apply IH. by eapply resolve_single_coherent. }
    destruct l as [|p l]; [by intros [= _ <-]|].
    destruct (PathLib.commonpath (p :: l)); [|done]. by intros [= _ <-].
Qed.

(** What [resolve_paths] returns for the exclude arguments, without its
    last element. *)
Lemma resolve_excludes st path_strings :
  coherent fs st -> literals_exist fs path_strings ->
  expand fs path_strings = []
  \/ is_Some (PathLib.commonpath (expand fs path_strings)) ->
  exists excl st',
    resolve_paths fs path_strings st = Ok (excl, st')
    /\ removelast excl = expand fs path_strings.
Proof.
  intros Hc Hall Hcp. unfold resolve_paths.
  destruct path_strings as [|s rest].
  - simpl. by eexists _, _.
  - unfold mbind, M_bind, bind.
    destruct (resolve_loop_ok fs (s :: rest) [] st Hc Hall) as (st1 & -> & _).
    rewrite app_nil_l.
    destruct (expand fs (s :: rest)) as [|p l] eqn:E; [by eexists _, _|].
    destruct Hcp as [?|[cp Hcp]]; [done|]. rewrite Hcp.
    eexists _, _. split; [reflexivity|]. apply removelast_last.
Qed.

End RunMore.

(** X22: when the include arguments resolve to a list, which is never
    empty then, and the exclude arguments resolve, [run] hands to the
    traversal the last include path as the root, the whole include list,
    and exactly the resolved exclude paths: the element [resolve_paths]
    appends, or the working directory it returns for no argument, is
    dropped from the excludes. *)
Theorem run_reaches_traverse (Items : Type)
    (traverse : Path -> list Path -> list Path -> GitIgnoreMatcher.t ->
                M PathResolver.t Items)
    fs config incl st1 :
  PathResolver.resolve_paths fs (paths config ++ include config)
    (PathResolver.init fs) = Ok (incl, st1) ->
  incl <> [] ->
  literals_exist fs (exclude config) ->
  expand fs (exclude config) = []
  \/ is_Some (PathLib.commonpath (expand fs (exclude config))) ->
  exists root st2,
    last incl = Some root
    /\ ItemsSelectionService.run Items traverse fs config
       = traverse root incl (expand fs (exclude config))
           GitIgnoreMatcher.init st2.
Proof.
  intros Hincl Hne Hall Hcp.
  pose proof (resolve_paths_coherent fs _ _ _ _ (coherent_init fs) Hincl) as Hc.
  destruct (resolve_excludes fs st1 (exclude config) Hc Hall Hcp)
    as (excl & st2 & Hexcl & Hrem).
  destruct (last incl) as [root|] eqn:Hlast;
    [|by apply last_None in Hlast].
  exists root, st2. split; [done|].
  unfold ItemsSelectionService.run, ItemsSelectionService.run_from.
  unfold mbind, M_bind, bind. rewrite Hincl.
  unfold ItemsSelectionService.last_item. rewrite Hlast. simpl.
  rewrite Hexcl. destruct incl as [|p l]; [done|]. simpl.
  by rewrite Hrem.
Qed.

Lemma run_reaches_traverse_witness :
  exists root st2,
    last [posix ["cwd"; "a"]; posix ["cwd"; "a"]] = Some root
    /\ ItemsSelectionService.run (list Path) traverse_excludes fs_flat cfg_ab
       = traverse_excludes root [posix ["cwd"; "a"]; posix ["cwd"; "a"]]
           (expand fs_flat (exclude cfg_ab)) GitIgnoreMatcher.init st2.
Proof.
  apply (run_reaches_traverse (list Path) traverse_excludes fs_flat cfg_ab
           [posix ["cwd"; "a"]; posix ["cwd"; "a"]] resolver_warm).
  - vm_compute. reflexivity.
  - discriminate.
  - repeat constructor.
  - right. by eexists.
Defined.

(** ** The performance cache *)

Section CacheFacts.

Import PerformanceCache.

Variable fs : FileSystem.
Variable path_exists : Path -> bool.

Lemma cache_with_limit_elem `{Countable K} {V} self (cache : gmap K V) k v k' x :
  _cache_with_limit self cache k v !! k' = Some x ->
  k' = k /\ x = v \/ cache !! k' = Some x.
Proof.
  unfold _cache_with_limit. destruct (_ <? _)%Z.
  - destruct (decide (k = k')) as [<-|Hne].
    + rewrite lookup_insert_eq. intros [= <-]. by left.
    + rewrite lookup_insert_ne by done. by right.
  - destruct (decide (k = k')) as [<-|Hne].
    + rewrite lookup_insert_eq. intros [= <-]. by left.
    + rewrite lookup_insert_ne by done. by rewrite lookup_empty.
Qed.

Lemma cache_with_limit_size `{Countable K} {V} self (cache : gmap K V) k v :
  cache !! k = None ->
  (Z.of_nat (size cache) <= Z.max (max_cache_size self) 1)%Z ->
  (Z.of_nat (size (_cache_with_limit self cache k v))
   <= Z.max (max_cache_size self) 1)%Z.
Proof.
  intros Hk Hsize. unfold _cache_with_limit.
  destruct (_ <? _)%Z eqn:Hlt.
  - apply Z.ltb_lt in Hlt. rewrite map_size_insert_None by done. lia.
  - rewrite map_size_insert_None by apply lookup_empty.
    rewrite map_size_empty. lia.
Qed.

Lemma is_under_single p q :
  PathResolver.is_under p [q]
  = bool_decide (p = q) || PathLib.is_relative_to p q.
Proof. unfold PathResolver.is_under. simpl. by rewrite orb_false_r. Qed.

Lemma cache_inv_init limit : cache_inv fs path_exists (init limit).
Proof.
  split_and!.
  - split_and!; intros *; simpl; try (by rewrite lookup_empty);
      by intros ?%elem_of_empty.
  - unfold cache_bounded. simpl. rewrite !map_size_empty. lia.
  - intros p [b Hb]. simpl in Hb. by rewrite lookup_empty in Hb.
Qed.

Lemma is_dir_cached_spec c p :
  cache_inv fs path_exists c ->
  (is_dir_cached fs c p).1 = is_dir fs p
  /\ cache_inv fs path_exists (is_dir_cached fs c p).2
  /\ max_cache_size (is_dir_cached fs c p).2 = max_cache_size c
  /\ _known_dirs c ⊆ _known_dirs (is_dir_cached fs c p).2
  /\ _known_files c ⊆ _known_files (is_dir_cached fs c p).2
  /\ (p ∈ _known_dirs (is_dir_cached fs c p).2 <-> is_dir fs p = true)
  /\ (p ∈ _known_files (is_dir_cached fs c p).2 <-> is_dir fs p = false).
Proof.
  intros (Hok & Hb & Hk). pose proof Hok as (H1 & H2 & H3 & H4 & H5 & H6).
  destruct Hb as (B1 & B2 & B3 & B4).
  assert (forall q, q ∈ _known_dirs c -> q ∈ _known_files c -> False) as Hdisj.
  { intros q Hd Hf. apply H5 in Hd. apply H6 in Hf. congruence. }
  unfold is_dir_cached. case_bool_decide as Hd.
  { simpl. pose proof (H5 _ Hd) as E. rewrite E.
    split_and!; try done.
    split; [|done]. intros Hf. exfalso. eauto. }
  case_bool_decide as Hf.
  { simpl. pose proof (H6 _ Hf) as E. rewrite E.
    split_and!; try done. }
  destruct (_is_dir_cache c !! p) as [b|] eqn:E.
  { exfalso. assert (p ∈ known c) as Hp by (apply Hk; eauto).
    apply elem_of_union in Hp as [?|?]; done. }
  simpl. split; [done|]. split_and!.
  - split_and!.
    + split_and!; simpl; try done.
      * intros q b Hq. apply cache_with_limit_elem in Hq as [[-> ->]|Hq];
          [done|by apply H1].
      * intros q. destruct (is_dir fs p) eqn:Ep; [|by apply H5].
        intros [->%elem_of_singleton|?]%elem_of_union; [done|by apply H5].
      * intros q. destruct (is_dir fs p) eqn:Ep; [by apply H6|].
        intros [->%elem_of_singleton|?]%elem_of_union; [done|by apply H6].
    + unfold cache_bounded. simpl. split_and!; try done.
      by apply cache_with_limit_size.
    + intros q [b Hq]. simpl in Hq. unfold known. simpl.
      apply cache_with_limit_elem in Hq as [[-> ->]|Hq].
      * destruct (is_dir fs p); set_solver.
      * assert (q ∈ known c) as Hq' by (apply Hk; eauto).
        unfold known in Hq'. destruct (is_dir fs p); set_solver.
  - done.
  - simpl. destruct (is_dir fs p); set_solver.
  - simpl. destruct (is_dir fs p); set_solver.
  - simpl. destruct (is_dir fs p); [set_solver|].
    split; [done|discriminate].
  - simpl. destruct (is_dir fs p); [|set_solver].
    split; [done|discriminate].
Qed.

Lemma exists_cached_spec c p :
  cache_inv fs path_exists c ->
  (exists_cached path_exists c p).1 = path_exists p
  /\ cache_inv fs path_exists (exists_cached path_exists c p).2
  /\ max_cache_size (exists_cached path_exists c p).2 = max_cache_size c
  /\ _known_dirs (exists_cached path_exists c p).2 = _known_dirs c
  /\ _known_files (exists_cached path_exists c p).2 = _known_files c.
Proof.
  intros (Hok & Hb & Hk). pose proof Hok as (H1 & H2 & H3 & H4 & H5 & H6).
  destruct Hb as (B1 & B2 & B3 & B4). unfold exists_cached.
  destruct (_exists_cache c !! p) as [b|] eqn:E.
  { simpl. rewrite (H2 _ _ E). by split_and!. }
  simpl. split; [done|]. split_and!; try done. split_and!.
  - split_and!; simpl; try done.
    intros q b Hq. apply cache_with_limit_elem in Hq as [[-> ->]|Hq];
      [done|by apply H2].
  - unfold cache_bounded. simpl. split_and!; try done.
    by apply cache_with_limit_size.
  - done.
Qed.

Lemma resolve_cached_spec c p :
  cache_inv fs path_exists c ->
  (resolve_cached fs c p).1 = resolve fs p
  /\ cache_inv fs path_exists (resolve_cached fs c p).2
  /\ max_cache_size (resolve_cached fs c p).2 = max_cache_size c
  /\ _known_dirs (resolve_cached fs c p).2 = _known_dirs c
  /\ _known_files (resolve_cached fs c p).2 = _known_files c.
Proof.
  intros (Hok & Hb & Hk). pose proof Hok as (H1 & H2 & H3 & H4 & H5 & H6).
  destruct Hb as (B1 & B2 & B3 & B4). unfold resolve_cached.
  destruct (_resolved_path_cache c !! p) as [b|] eqn:E.
  { simpl. rewrite (H3 _ _ E). by split_and!. }
  simpl. split; [done|]. split_and!; try done. split_and!.
  - split_and!; simpl; try done.
    intros q b Hq. apply cache_with_limit_elem in Hq as [[-> ->]|Hq];
      [done|by apply H3].
  - unfold cache_bounded. simpl. split_and!; try done.
    by apply cache_with_limit_size.
  - done.
Qed.

Lemma is_under_cached_spec c p q :
  cache_inv fs path_exists c ->
  (is_under_cached c p q).1 = PathResolver.is_under p [q]
  /\ cache_inv fs path_exists (is_under_cached c p q).2
  /\ max_cache_size (is_under_cached c p q).2 = max_cache_size c
  /\ _known_dirs (is_under_cached c p q).2 = _known_dirs c
  /\ _known_files (is_under_cached c p q).2 = _known_files c.
Proof.
  intros (Hok & Hb & Hk). pose proof Hok as (H1 & H2 & H3 & H4 & H5 & H6).
  destruct Hb as (B1 & B2 & B3 & B4). unfold is_under_cached.
  destruct (_is_under_cache c !! (p, q)) as [b|] eqn:E.
  { simpl. rewrite (H4 _ _ _ E). by split_and!. }
  rewrite is_under_single. simpl. split; [done|]. split_and!; try done.
  split_and!.
  - split_and!; simpl; try done.
    intros p' q' b.
    change (if (Z.of_nat (size (_is_under_cache c)) <? max_cache_size c)%Z
            then <[(p, q) := bool_decide (p = q)
                             || PathLib.is_relative_to p q]>
                   (_is_under_cache c)
            else <[(p, q) := bool_decide (p = q)
                             || PathLib.is_relative_to p q]> ∅)
      with (_cache_with_limit c (_is_under_cache c) (p, q)
              (bool_decide (p = q) || PathLib.is_relative_to p q)).
    intros Hq. apply cache_with_limit_elem in Hq as [[[= -> ->] ->]|Hq].
    + by rewrite orb_false_r.
    + rewrite orb_false_r, <- is_under_single. by apply H4.
  - unfold cache_bounded. simpl. split_and!; try done.
    by apply (cache_with_limit_size c (_is_under_cache c) (p, q)).
  - done.
Qed.

Lemma cache_after_inv calls : forall c,
  cache_inv fs path_exists c ->
  cache_inv fs path_exists (cache_after fs path_exists calls c)
  /\ max_cache_size (cache_after fs path_exists calls c) = max_cache_size c.
Proof.
  induction calls as [|[p|p|p|p q|] rest IH]; intros c Hc; simpl; [done|..].
  - destruct (is_dir_cached_spec c p Hc) as (_ & Hc' & Hm & _).
    destruct (IH _ Hc') as [? ?]. split; [done|congruence].
  - destruct (exists_cached_spec c p Hc) as (_ & Hc' & Hm & _).
    destruct (IH _ Hc') as [? ?]. split; [done|congruence].
  - destruct (resolve_cached_spec c p Hc) as (_ & Hc' & Hm & _).
    destruct (IH _ Hc') as [? ?]. split; [done|congruence].
  - destruct (is_under_cached_spec c p q Hc) as (_ & Hc' & Hm & _).
    destruct (IH _ Hc') as [? ?]. split; [done|congruence].
  - apply (IH (clear_all c)). apply (cache_inv_init (max_cache_size c)).
Qed.

Lemma cache_after_known calls : forall c p,
  cache_inv fs path_exists c ->
  ClearAll ∉ calls ->
  p ∈ known c \/ IsDirCached p ∈ calls ->
  p ∈ known (cache_after fs path_exists calls c).
Proof.
  induction calls as [|call rest IH]; intros c p Hc Hclear Hp; simpl.
  - destruct Hp as [?|?%elem_of_nil]; done.
  - assert (ClearAll ∉ rest) as Hrest by (intros ?; apply Hclear; by right).
    assert (call <> ClearAll) as Hcall by (intros ->; apply Hclear; by left).
    destruct call as [x|x|x|x y|]; [| | | |done].
    + destruct (is_dir_cached_spec c x Hc) as (_ & Hc' & _ & Hd & Hf & Hxd & Hxf).
      apply IH; [done|done|].
      destruct Hp as [Hp|[[= ->]|Hp]%elem_of_cons]; [left| |by right].
      * unfold known in *. set_solver.
      * left. unfold known. destruct (is_dir fs x) eqn:E.
        -- apply elem_of_union. left. by apply Hxd.
        -- apply elem_of_union. right. by apply Hxf.
    + destruct (exists_cached_spec c x Hc) as (_ & Hc' & _ & Hd & Hf).
      apply IH; [done|done|].
      destruct Hp as [Hp|[[=]|Hp]%elem_of_cons]; [left|by right].
      unfold known in *. by rewrite Hd, Hf.
    + destruct (resolve_cached_spec c x Hc) as (_ & Hc' & _ & Hd & Hf).
      apply IH; [done|done|].
      destruct Hp as [Hp|[[=]|Hp]%elem_of_cons]; [left|by right].
      unfold known in *. by rewrite Hd, Hf.
    + destruct (is_under_cached_spec c x y Hc) as (_ & Hc' & _ & Hd & Hf).
      apply IH; [done|done|].
      destruct Hp as [Hp|[[=]|Hp]%elem_of_cons]; [left|by right].
      unfold known in *. by rewrite Hd, Hf.
Qed.

End CacheFacts.

(** X23: the performance cache is transparent: after any sequence of
    cached calls and [clear_all] on a new cache, with any size limit,
    [is_dir_cached], [exists_cached] and [resolve_cached] return what
    [is_dir], [exists] and [resolve] return, and [is_under_cached] returns
    what [PathResolver.is_under] returns for the single parent. *)
Theorem performance_cache_transparent fs path_exists calls limit p q :
  (PerformanceCache.is_dir_cached fs
     (cache_after fs path_exists calls (PerformanceCache.init limit)) p).1
  = is_dir fs p
  /\ (PerformanceCache.exists_cached path_exists
        (cache_after fs path_exists calls (PerformanceCache.init limit)) p).1
     = path_exists p
  /\ (PerformanceCache.resolve_cached fs
        (cache_after fs path_exists calls (PerformanceCache.init limit)) p).1
     = resolve fs p
  /\ (PerformanceCache.is_under_cached
        (cache_after fs path_exists calls (PerformanceCache.init limit)) p q).1
     = PathResolver.is_under p [q].
Proof.
  destruct (cache_after_inv fs path_exists calls _
              (cache_inv_init fs path_exists limit)) as [Hinv _].
  split_and!.
  - by destruct (is_dir_cached_spec fs path_exists _ p Hinv) as [? _].
  - by destruct (exists_cached_spec fs path_exists _ p Hinv) as [? _].
  - by destruct (resolve_cached_spec fs path_exists _ p Hinv) as [? _].
  - by destruct (is_under_cached_spec fs path_exists _ p q Hinv) as [? _].
Qed.

(** X24: what [get_stats] reports after any sequence of calls on a new
    cache: none of the four dictionaries holds more entries than the size
    limit (one entry when the limit is below one), and the limit itself
    never changes. *)
Theorem performance_cache_bounded fs path_exists calls limit :
  let s := PerformanceCache.get_stats
             (cache_after fs path_exists calls (PerformanceCache.init limit)) in
  (Z.of_nat (PerformanceCache.is_dir_cache_size s) <= Z.max limit 1)%Z
  /\ (Z.of_nat (PerformanceCache.exists_cache_size s) <= Z.max limit 1)%Z
  /\ (Z.of_nat (PerformanceCache.resolved_path_cache_size s)
      <= Z.max limit 1)%Z
  /\ (Z.of_nat (PerformanceCache.is_under_cache_size s) <= Z.max limit 1)%Z
  /\ PerformanceCache.max_cache_size
       (cache_after fs path_exists calls (PerformanceCache.init limit))
     = limit.
Proof.
  destruct (cache_after_inv fs path_exists calls _
              (cache_inv_init fs path_exists limit))
    as [(_ & (B1 & B2 & B3 & B4) & _) Hm].
  simpl in Hm. rewrite Hm in B1, B2, B3, B4. simpl. by split_and!.
Qed.

(** X25: the known sets of the cache: after any sequence of calls no
    path is both a known directory and a known file, every path in the
    [is_dir] dictionary is in a known set (so [is_dir_cached] is always
    answered from the known sets or from the file system, never from the
    dictionary), and after [is_dir_cached] the path is a known directory
    exactly when it is a directory, a known file exactly when it is
    not. *)
Theorem known_sets_partition fs path_exists calls limit p :
  let c := cache_after fs path_exists calls (PerformanceCache.init limit) in
  PerformanceCache._known_dirs c ## PerformanceCache._known_files c
  /\ (forall x, is_Some (PerformanceCache._is_dir_cache c !! x) ->
                x ∈ known c)
  /\ (p ∈ PerformanceCache._known_dirs
            (PerformanceCache.is_dir_cached fs c p).2
      <-> is_dir fs p = true)
  /\ (p ∈ PerformanceCache._known_files
            (PerformanceCache.is_dir_cached fs c p).2
      <-> is_dir fs p = false).
Proof.
  intros c.
  destruct (cache_after_inv fs path_exists calls _
              (cache_inv_init fs path_exists limit)) as [Hinv _].
  fold c in Hinv.
  destruct (is_dir_cached_spec fs path_exists c p Hinv)
    as (_ & _ & _ & _ & _ & Hd & Hf).
  destruct Hinv as ((_ & _ & _ & _ & H5 & H6) & _ & Hk).
  split_and!; [|done|done|done].
  intros x Hxd Hxf. apply H5 in Hxd. apply H6 in Hxf. congruence.
Qed.

(** X26: the size limit does not apply to the known sets: unless
    [clear_all] is called, every path that was asked about through
    [is_dir_cached] stays in a known set, whatever the limit. *)
Theorem known_sets_never_evicted fs path_exists calls limit p :
  IsDirCached p ∈ calls -> ClearAll ∉ calls ->
  p ∈ known (cache_after fs path_exists calls (PerformanceCache.init limit)).
Proof.
  intros Hp Hclear.
  apply cache_after_known; [apply cache_inv_init|done|by right].
Qed.

Lemma known_sets_never_evicted_witness :
  posix ["cwd"; "a"]
    ∈ known (cache_after fs_flat (fun _ => true)
               [IsDirCached (posix ["cwd"; "a"]);
                IsDirCached (posix ["cwd"; "b"]);
                IsDirCached (posix ["cwd"; "c"])]
               (PerformanceCache.init 1)).
Proof.
  apply (known_sets_never_evicted fs_flat (fun _ => true)
           [IsDirCached (posix ["cwd"; "a"]);
            IsDirCached (posix ["cwd"; "b"]);
            IsDirCached (posix ["cwd"; "c"])] 1 (posix ["cwd"; "a"])).
  - by left.
  - intros H. repeat (apply elem_of_cons in H as [H|H]; [done|]).
    by apply elem_of_nil in H.
Defined.

(** ** Edge cases of the gitignore object *)

(** X27: [GitIgnore.excluded] looks at the resolved path only: two paths
    with the same resolved form get the same answer, whatever the
    relative-path cache holds when each is asked. *)
Theorem excluded_same_resolved_path match_file fs gi gi' item_path item_path' :
  rel_coherent gi -> rel_coherent gi' -> same_rules gi gi' ->
  resolve fs item_path = resolve fs item_path' ->
  (GitIgnore.excluded match_file fs gi item_path).1
  = (GitIgnore.excluded match_file fs gi' item_path').1.
Proof.
  intros Hc Hc' Hs Hres.
  destruct (gitignore_excluded_spec match_file fs gi item_path Hc)
    as (g1 & -> & _).
  destruct (gitignore_excluded_spec match_file fs gi' item_path' Hc')
    as (g2 & -> & _).
  simpl. rewrite (excluded_pure_same_rules match_file fs gi gi' item_path' Hs).
  unfold excluded_pure. by rewrite Hres.
Qed.

Lemma excluded_same_resolved_path_witness :
  (GitIgnore.excluded match_exact fs_scope gi_sub (posix ["a"; "link"])).1
  = (GitIgnore.excluded match_exact fs_scope
       (GitIgnore.excluded match_exact fs_scope gi_sub
          (posix ["root"; "foo"])).2
       (posix ["root"; "sub"; "foo"])).1.
Proof.
  apply (excluded_same_resolved_path match_exact fs_scope gi_sub
           (GitIgnore.excluded match_exact fs_scope gi_sub
              (posix ["root"; "foo"])).2
           (posix ["a"; "link"]) (posix ["root"; "sub"; "foo"])).
  - apply init_rel_coherent.
  - by destruct (gitignore_excluded_spec match_exact fs_scope gi_sub
                   (posix ["root"; "foo"]) (init_rel_coherent _ _ _))
      as (g & -> & Hg & _).
  - by destruct (gitignore_excluded_spec match_exact fs_scope gi_sub
                   (posix ["root"; "foo"]) (init_rel_coherent _ _ _))
      as (g & -> & _ & Hg).
  - reflexivity.
Defined.

(** X28: with a negative scan depth not even the root is within depth:
    [_walk_dirs] yields the root alone and ends after one iteration, so
    [_collect_patterns] reads the root's own [.gitignore] and no nested
    one. *)
Theorem walk_dirs_negative_depth fs gi root n fuel :
  GitIgnore.gitignore_depth gi = Some n -> (n < 0)%Z ->
  GitIgnore._walk_dirs fs gi root (S fuel) = ([root], true)
  /\ GitIgnore._collect_patterns fs gi root (S fuel)
     = Ok (if is_file fs (PathLib.joinpath root ".gitignore")
           then map (GitIgnore.prefix_pattern "")
                    (GitIgnore._parse_gitignore_file fs
                       (PathLib.joinpath root ".gitignore"))
           else []).
Proof.
  intros Hn Hneg.
  assert (GitIgnore._walk_dirs fs gi root (S fuel) = ([root], true)) as Hwalk.
  { unfold GitIgnore._walk_dirs. simpl.
    rewrite bool_decide_eq_false_2 by apply not_elem_of_empty.
    unfold GitIgnore._within_depth. rewrite Hn.
    assert (PathLib.relative_to root root = Some []) as ->
      by (apply relative_to_Some; by rewrite app_nil_r).
    change (Z.of_nat (length (@nil string))) with 0%Z.
    rewrite (proj2 (Z.leb_gt 0 n)) by lia. by destruct fuel. }
  split; [done|]. unfold GitIgnore._collect_patterns. rewrite Hwalk. simpl.
  destruct (is_file fs (PathLib.joinpath root ".gitignore")); simpl; [|done].
  assert (PathLib.relative_to root root = Some []) as ->
    by (apply relative_to_Some; by rewrite app_nil_r).
  done.
Qed.

Lemma walk_dirs_negative_depth_witness :
  GitIgnore._walk_dirs fs_scope
    (GitIgnore.mk true (Some (-1)%Z) [] ∅ None) (posix ["root"]) 1
  = ([posix ["root"]], true)
  /\ GitIgnore._collect_patterns fs_scope
       (GitIgnore.mk true (Some (-1)%Z) [] ∅ None) (posix ["root"]) 1
     = Ok (if is_file fs_scope (PathLib.joinpath (posix ["root"]) ".gitignore")
           then map (GitIgnore.prefix_pattern "")
                    (GitIgnore._parse_gitignore_file fs_scope
                       (PathLib.joinpath (posix ["root"]) ".gitignore"))
           else []).
Proof.
  apply (walk_dirs_negative_depth fs_scope
           (GitIgnore.mk true (Some (-1)%Z) [] ∅ None) (posix ["root"])
           (-1)%Z 0).
  - reflexivity.
  - reflexivity.
Defined.
